(** * SPT parking calculator: a shallow embedding of
      [src/analyzers/parking_calculator.py] and its verified properties.

    The Python module computes with [int] (unbounded) and [float] (IEEE 754
    binary64).  Integers are embedded as [Z]; floats as the Standard
    Library's [spec_float], with every operation the module performs
    (int-to-float conversion, [*], [/], [math.ceil], truthiness, [repr],
    [format(_, '.2f')]) written out with its rounding and its exceptions. *)

From Stdlib Require Import ZArith QArith Qround Qabs Qpower Lqa Lia Bool List.
From Stdlib Require Import Permutation.
From Stdlib Require Import String Ascii SpecFloat.
Import ListNotations.

Local Open Scope Z_scope.

(** ** Exceptions and results *)

(** The exceptions the module can raise. *)
Inductive pyexn : Type :=
| OverflowError
| ValueError
| ZeroDivisionError
| KeyError.

(** A Python computation either returns a value or raises. *)
Inductive result (A : Type) : Type :=
| Ok (a : A)
| Raise (e : pyexn).

Arguments Ok {A} a.
Arguments Raise {A} e.

Definition bind {A B : Type} (r : result A) (k : A -> result B) : result B :=
  match r with
  | Ok a => k a
  | Raise e => Raise e
  end.

Notation "x <- r ;; k" := (bind r (fun x => k))
  (at level 61, r at next level, right associativity).
Notation "' p <- r ;; k" := (bind r (fun x => let 'p := x in k))
  (at level 61, p pattern, r at next level, right associativity).

(** ** IEEE 754 binary64 *)

Module Binary64.

Definition prec : Z := 53.
Definition emax : Z := 1024.
(** Exponent of the least subnormal: [3 - emax - prec]. *)
Definition emin : Z := -1074.

(** [floor (log2 a)] for a rational [a > 0]. *)
Definition Qlog2_floor (a : Q) : Z :=
  let l := Z.log2 (Qnum a) - Z.log2 (Zpos (Qden a)) in
  if Qle_bool (2 ^ l) a then l else l - 1.

(** Round to the nearest integer, ties to even. *)
Definition Qrne (x : Q) : Z :=
  let f := Qfloor x in
  match (x - inject_Z f ?= 1 # 2)%Q with
  | Lt => f
  | Gt => f + 1
  | Eq => if Z.even f then f else f + 1
  end.

(** Exponent of the unit in the last place of a magnitude [a]. *)
Definition ulp_exp (a : Q) : Z := Z.max (Qlog2_floor a - (prec - 1)) emin.

(** Integer significand and exponent of the binary64 number nearest to
    the magnitude [a >= 0] (ties to even), before the range check. *)
Definition round_mag (a : Q) : Z * Z :=
  let e := ulp_exp a in
  let m := Qrne (a / 2 ^ e) in
  if m =? 2 ^ prec then (2 ^ (prec - 1), e + 1) else (m, e).

(** Round-to-nearest-even of [(-1)^s * a] into binary64, overflowing to
    an infinity. *)
Definition SFround (s : bool) (a : Q) : spec_float :=
  let '(m, e) := round_mag a in
  match m with
  | Zpos p => if e <=? emax - prec then S754_finite s p e else S754_infinity s
  | _ => S754_zero s
  end.

(** The rounded magnitude as a rational. *)
Definition round_val (a : Q) : Q :=
  let '(m, e) := round_mag a in inject_Z m * 2 ^ e.

(** Round-to-nearest-even as a function on the rationals (range
    unbounded): the value every finite result of an operation has. *)
Definition RN (q : Q) : Q :=
  if Qle_bool 0 q then round_val q else (- round_val (- q))%Q.

Definition SFsign (x : spec_float) : bool :=
  match x with
  | S754_zero s | S754_infinity s | S754_finite s _ _ => s
  | S754_nan => false
  end.

(** Magnitude of a zero or finite number. *)
Definition SFmag (x : spec_float) : Q :=
  match x with
  | S754_finite _ m e => inject_Z (Zpos m) * 2 ^ e
  | _ => 0
  end.

(** Real value of a zero or finite number. *)
Definition SF2Q (x : spec_float) : Q :=
  if SFsign x then - SFmag x else SFmag x.

Definition is_finite (x : spec_float) : bool :=
  match x with
  | S754_zero _ | S754_finite _ _ _ => true
  | _ => false
  end.

Definition is_zero (x : spec_float) : bool :=
  match x with
  | S754_zero _ => true
  | _ => false
  end.

(** [x * y] *)
Definition mul (x y : spec_float) : spec_float :=
  match x, y with
  | S754_nan, _ | _, S754_nan => S754_nan
  | S754_infinity _, S754_zero _ | S754_zero _, S754_infinity _ => S754_nan
  | S754_infinity sx, _ => S754_infinity (xorb sx (SFsign y))
  | _, S754_infinity sy => S754_infinity (xorb (SFsign x) sy)
  | _, _ => SFround (xorb (SFsign x) (SFsign y)) (SFmag x * SFmag y)
  end.

(** [x / y] for a divisor that is not a zero. *)
Definition div (x y : spec_float) : spec_float :=
  match x, y with
  | S754_nan, _ | _, S754_nan => S754_nan
  | S754_infinity _, S754_infinity _ => S754_nan
  | S754_infinity sx, _ => S754_infinity (xorb sx (SFsign y))
  | _, S754_infinity sy => S754_zero (xorb (SFsign x) sy)
  | _, _ => SFround (xorb (SFsign x) (SFsign y)) (SFmag x / SFmag y)
  end.

(** The float nearest to the integer [z]. *)
Definition of_Z (z : Z) : spec_float :=
  SFround (z <? 0) (inject_Z (Z.abs z)).

(** The float nearest to the rational [n / d], as a decimal literal is
    read. *)
Definition of_Q (q : Q) : spec_float :=
  SFround (Qnum q <? 0) (Qabs q).

End Binary64.

(** ** Python numbers *)

(** A value of Python's numeric tower as the module receives it: an [int],
    or a [float] (an [int] is accepted wherever a [float] is annotated, and
    the module's own defaults and examples pass [int]s). *)
Inductive pynum : Type :=
| PInt (z : Z)
| PFloat (x : spec_float).

(** [float(z)]: raises when [z] rounds out of range. *)
Definition py_float_of_int (z : Z) : result spec_float :=
  match Binary64.of_Z z with
  | S754_infinity _ => Raise OverflowError
  | x => Ok x
  end.

Definition py_to_float (a : pynum) : result spec_float :=
  match a with
  | PInt z => py_float_of_int z
  | PFloat x => Ok x
  end.

(** [a * b] *)
Definition py_mul (a b : pynum) : result pynum :=
  match a, b with
  | PInt x, PInt y => Ok (PInt (x * y))
  | _, _ =>
      x <- py_to_float a ;;
      y <- py_to_float b ;;
      Ok (PFloat (Binary64.mul x y))
  end.

(** [a / b]: true division always yields a float; two [int]s are divided
    exactly and the quotient rounded once. *)
Definition py_truediv (a b : pynum) : result spec_float :=
  match a, b with
  | PInt x, PInt y =>
      if y =? 0 then Raise ZeroDivisionError
      else
        match Binary64.SFround (xorb (x <? 0) (y <? 0))
                (inject_Z (Z.abs x) / inject_Z (Z.abs y)) with
        | S754_infinity _ => Raise OverflowError
        | q => Ok q
        end
  | _, _ =>
      x <- py_to_float a ;;
      y <- py_to_float b ;;
      if Binary64.is_zero y then Raise ZeroDivisionError
      else Ok (Binary64.div x y)
  end.

(** [math.ceil(a)] *)
Definition py_ceil (a : pynum) : result Z :=
  match a with
  | PInt z => Ok z
  | PFloat S754_nan => Raise ValueError
  | PFloat (S754_infinity _) => Raise OverflowError
  | PFloat x => Ok (Qceiling (Binary64.SF2Q x))
  end.

(** Truth value of a number: zero is false, everything else (NaN too) is
    true. *)
Definition py_bool (a : pynum) : bool :=
  match a with
  | PInt z => negb (z =? 0)
  | PFloat x => negb (Binary64.is_zero x)
  end.

(** Real value of an [int] or of a zero or finite [float]. *)
Definition py_value (a : pynum) : Q :=
  match a with
  | PInt z => inject_Z z
  | PFloat x => Binary64.SF2Q x
  end.

(** An [int], or a [float] that is neither an infinity nor NaN. *)
Definition py_finite (a : pynum) : bool :=
  match a with
  | PInt _ => true
  | PFloat x => Binary64.is_finite x
  end.

(** Value of [a] once converted to a float, as [*] and [/] do when the
    other operand is a float. *)
Definition to_float_value (a : pynum) : Q :=
  match a with
  | PInt z => Binary64.RN (inject_Z z)
  | PFloat x => Binary64.SF2Q x
  end.

(** [a <= b]: exact comparison of the two values; false when either is
    NaN. *)
Definition py_le (a b : pynum) : bool :=
  match a, b with
  | PFloat S754_nan, _ | _, PFloat S754_nan => false
  | PFloat (S754_infinity s), PFloat (S754_infinity s') => orb s (negb s')
  | PFloat (S754_infinity s), _ => s
  | _, PFloat (S754_infinity s') => negb s'
  | _, _ => Qle_bool (py_value a) (py_value b)
  end.

(** ** Python strings *)

Local Open Scope string_scope.
Local Open Scope Z_scope.

(** [needle in hay] *)
Fixpoint contains (needle hay : string) : bool :=
  if String.prefix needle hay then true
  else
    match hay with
    | EmptyString => false
    | String _ rest => contains needle rest
    end.

Definition digit_char (d : Z) : ascii := ascii_of_nat (48 + Z.to_nat d).

(** Decimal digits of a natural number, most significant first. *)
Fixpoint digits_pos_fuel (fuel : nat) (n : Z) (acc : string) : string :=
  match fuel with
  | O => acc
  | S fuel' =>
      let acc' := String (digit_char (n mod 10)) acc in
      if n <? 10 then acc' else digits_pos_fuel fuel' (n / 10) acc'
  end.

Definition digits_of_nonneg (n : Z) : string :=
  digits_pos_fuel (S (Z.to_nat (Z.log2 n))) n "".

(** [str(z)] *)
Definition str_int (z : Z) : string :=
  if z <? 0 then "-" ++ digits_of_nonneg (- z) else digits_of_nonneg z.

Fixpoint zeros (n : nat) : string :=
  match n with
  | O => ""
  | S n' => String "0" (zeros n')
  end.

(** [s.rjust(n, "0")] *)
Definition pad_left (n : nat) (s : string) : string :=
  zeros (n - String.length s) ++ s.

Definition sign_prefix (s : bool) : string := if s then "-" else "".

(** [format(x, ".2f")]: the exact value rounded half-even to two places. *)
Definition format_2f (x : spec_float) : string :=
  match x with
  | S754_nan => "nan"
  | S754_infinity s => sign_prefix s ++ "inf"
  | _ =>
      let n := Binary64.Qrne (Binary64.SFmag x * 100) in
      sign_prefix (Binary64.SFsign x)
        ++ digits_of_nonneg (n / 10 ^ 2) ++ "."
        ++ pad_left 2 (digits_of_nonneg (n mod 10 ^ 2))
  end.

(** [floor (log10 a)] for a rational [a > 0] in the binary64 range. *)
Definition Qlog10_floor (a : Q) : Z :=
  let g := Binary64.Qlog2_floor a * 30103 / 100000 in
  if Qle_bool (10 ^ (g + 1)) a then g + 1
  else if Qle_bool (10 ^ g) a then g
  else g - 1.

(** Does the decimal [c * 10^e] read back as the magnitude [a]? *)
Definition reads_back (a : Q) (c e : Z) : bool :=
  Qeq_bool (Binary64.SFmag (Binary64.SFround false (inject_Z c * 10 ^ e))) a.

(** The [n]-digit decimal that reads back as [a] and is nearest to it, if
    there is one: its digits as an integer, and the exponent of its last
    digit. *)
Definition shortest_at (a : Q) (k : Z) (n : Z) : option (Z * Z) :=
  let e := k + 1 - n in
  let s := (a / 10 ^ e)%Q in
  let lo := Qfloor s in
  let hi := lo + 1 in
  match reads_back a lo e, reads_back a hi e with
  | true, true =>
      match (s - inject_Z lo ?= inject_Z hi - s)%Q with
      | Lt => Some (lo, e)
      | Gt => Some (hi, e)
      | Eq => Some (if Z.even lo then lo else hi, e)
      end
  | true, false => Some (lo, e)
  | false, true => Some (hi, e)
  | false, false => None
  end.

Fixpoint shortest_from (fuel : nat) (a : Q) (k : Z) (n : Z) : Z * Z :=
  match fuel with
  | O => (Binary64.Qrne (a / 10 ^ (k + 1 - n)), k + 1 - n)
  | S fuel' =>
      match shortest_at a k n with
      | Some r => r
      | None => shortest_from fuel' a k (n + 1)
      end
  end.

(** Shortest decimal digits that read back as the magnitude [a > 0], and
    the position of the decimal point relative to their start. *)
Definition shortest_digits (a : Q) : string * Z :=
  let '(c, e) := shortest_from 17 a (Qlog10_floor a) 1 in
  let ds := digits_of_nonneg c in
  (ds, Z.of_nat (String.length ds) + e).

Fixpoint strip_zeros_rev (s : list ascii) : list ascii :=
  match s with
  | "0"%char :: rest => strip_zeros_rev rest
  | _ => s
  end.

(** Drop trailing zeros (a candidate such as [10] stands for the digit
    string ["1"]). *)
Definition strip_trailing_zeros (s : string) : string :=
  string_of_list_ascii (rev (strip_zeros_rev (rev (list_ascii_of_string s)))).

(** [repr(x)] for a float: the shortest digits that read back as [x], in
    fixed notation when the decimal point falls within [-4 < decpt <= 16]
    and in exponent notation otherwise. *)
Definition repr_float (x : spec_float) : string :=
  match x with
  | S754_nan => "nan"
  | S754_infinity s => sign_prefix s ++ "inf"
  | S754_zero s => sign_prefix s ++ "0.0"
  | S754_finite s _ _ =>
      let '(ds0, decpt) := shortest_digits (Binary64.SFmag x) in
      let ds := strip_trailing_zeros ds0 in
      let n := Z.of_nat (String.length ds) in
      sign_prefix s ++
      if (decpt <=? -4) || (16 <? decpt) then
        let ex := decpt - 1 in
        String.substring 0 1 ds
          ++ (if 1 <? n then "." ++ String.substring 1 (Z.to_nat n - 1) ds
              else "")
          ++ "e" ++ (if ex <? 0 then "-" else "+")
          ++ pad_left 2 (digits_of_nonneg (Z.abs ex))
      else if decpt <=? 0 then
        "0." ++ zeros (Z.to_nat (- decpt)) ++ ds
      else if n <=? decpt then
        ds ++ zeros (Z.to_nat (decpt - n)) ++ ".0"
      else
        String.substring 0 (Z.to_nat decpt) ds ++ "."
          ++ String.substring (Z.to_nat decpt) (Z.to_nat (n - decpt)) ds
  end.

(** The text of a number: [str(a)] where the conversion is made. *)
Definition str_num (a : pynum) : string :=
  match a with
  | PInt z => str_int z
  | PFloat x => repr_float x
  end.

(** [sys.get_int_max_str_digits()]: CPython (3.11 and later, and the
    security releases of 3.7 to 3.10) refuses to convert an [int] of more
    decimal digits than this to a string. *)
Definition int_max_str_digits : Z := 4300.

(** Number of decimal digits of [z], the sign apart. *)
Definition decimal_digits (z : Z) : Z :=
  Z.of_nat (String.length (digits_of_nonneg (Z.abs z))).

(** [{z}] in an f-string, for an [int]: raises [ValueError] when [z] has
    more than [int_max_str_digits] digits. *)
Definition py_str_int (z : Z) : result string :=
  if int_max_str_digits <? decimal_digits z then Raise ValueError
  else Ok (str_int z).

(** [{a}] in an f-string, for a number; a [float] of any size is
    converted. *)
Definition py_str_num (a : pynum) : result string :=
  match a with
  | PInt z => py_str_int z
  | PFloat x => Ok (repr_float x)
  end.

(** ** The parking calculator *)

(** A float literal of the source text. *)
Definition float_lit (q : Q) : spec_float := Binary64.of_Q q.

(** Result of one calculation (the [ParkingRequirement] dataclass). *)
Record ParkingRequirement : Type := {
  use_type : string;
  gross_sf : pynum;
  units : option Z;
  base_ratio : string;
  required_spaces : Z;
  ada_spaces : Z;
  total_spaces : Z;
  notes : list string
}.

(** An entry of [PARKING_RATIOS]: the dict with keys ["ratio"], ["unit"]
    and ["notes"]. *)
Record ratio_info : Type := {
  ri_ratio : spec_float;
  ri_unit : string;
  ri_notes : string
}.

Definition entry (k : string) (r : Q) (u n : string) : string * ratio_info :=
  (k, {| ri_ratio := float_lit r; ri_unit := u; ri_notes := n |}).

(** Brevard County / Palm Bay parking ratios, in source order. *)
Definition PARKING_RATIOS : list (string * ratio_info) := [
  (* Residential *)
  entry "single_family" 2.0 "dwelling unit" "2 spaces per DU";
  entry "multi_family" 1.5 "dwelling unit" "1.5 spaces per DU + guest parking";
  entry "townhouse" 2.0 "dwelling unit" "2 spaces per DU";
  entry "senior_housing" 0.5 "dwelling unit" "0.5 spaces per DU";
  (* Commercial *)
  entry "retail" 4.0 "1,000 SF GFA" "4 spaces per 1,000 SF";
  entry "shopping_center" 4.5 "1,000 SF GLA" "4.5 spaces per 1,000 SF GLA";
  entry "restaurant" 10.0 "1,000 SF" "10 spaces per 1,000 SF or 1 per 3 seats";
  entry "fast_food" 12.0 "1,000 SF" "12 spaces per 1,000 SF";
  entry "bank" 4.0 "1,000 SF" "4 spaces per 1,000 SF + queue for drive-thru";
  (* Office *)
  entry "office_general" 3.0 "1,000 SF" "3 spaces per 1,000 SF";
  entry "office_medical" 5.0 "1,000 SF" "5 spaces per 1,000 SF";
  entry "office_dental" 4.5 "1,000 SF" "4.5 spaces per 1,000 SF";
  (* Industrial *)
  entry "warehouse" 1.0 "1,000 SF" "1 space per 1,000 SF";
  entry "manufacturing" 1.5 "1,000 SF" "1.5 spaces per 1,000 SF";
  entry "flex_space" 2.0 "1,000 SF" "2 spaces per 1,000 SF";
  (* Institutional *)
  entry "church" 0.33 "seat" "1 space per 3 seats";
  entry "school_elementary" 2.0 "classroom" "2 spaces per classroom";
  entry "school_high" 8.0 "classroom" "8 spaces per classroom";
  entry "daycare" 1.0 "employee + 1 per 10 children" "Drop-off lane required";
  (* Recreation *)
  entry "gym_fitness" 5.0 "1,000 SF" "5 spaces per 1,000 SF";
  entry "hotel" 1.0 "room" "1 space per room + employee parking"
].

(** [l.append(x)] *)
Definition append {A : Type} (l : list A) (x : A) : list A := (l ++ [x])%list.

(** [d.get(k)] on a dict given by its items. *)
Fixpoint lookup {V : Type} (k : string) (d : list (string * V)) : option V :=
  match d with
  | [] => None
  | (k', v) :: rest => if String.eqb k k' then Some v else lookup k rest
  end.

(** [k in d] *)
Definition in_dict {V : Type} (k : string) (d : list (string * V)) : bool :=
  match lookup k d with
  | Some _ => true
  | None => false
  end.

(** [d[k]] *)
Definition getitem {V : Type} (d : list (string * V)) (k : string) : result V :=
  match lookup k d with
  | Some v => Ok v
  | None => Raise KeyError
  end.

(** ADA parking requirements (2010 ADA Standards): (threshold, required). *)
Definition ADA_REQUIREMENTS : list (Z * Z) := [
  (25, 1);
  (50, 2);
  (75, 3);
  (100, 4);
  (150, 5);
  (200, 6);
  (300, 7);
  (400, 8);
  (500, 9);
  (1000, 2)
].

(** The [for threshold, required in table] loop of [calculate_ada_spaces]:
    the first [required] whose [threshold] is not below [total_spaces]. *)
Fixpoint ada_scan (table : list (Z * Z)) (total_spaces : Z) : option Z :=
  match table with
  | [] => None
  | (threshold, required) :: rest =>
      if total_spaces <=? threshold then Some required
      else ada_scan rest total_spaces
  end.

(** Required ADA accessible spaces. *)
Definition calculate_ada_spaces (total_spaces : Z) : result Z :=
  if total_spaces <=? 0 then Ok 0
  else
    match ada_scan ADA_REQUIREMENTS total_spaces with
    | Some required => Ok required
    | None =>
        (* Over 1000 spaces: 20 + 1 for each 100 over 1000 *)
        q <- py_truediv (PInt (total_spaces - 1000)) (PInt 100) ;;
        c <- py_ceil (PFloat q) ;;
        Ok (20 + c)
    end.

(** At least 1 in 6 accessible spaces must be van accessible. *)
Definition calculate_van_accessible (ada_spaces : Z) : result Z :=
  q <- py_truediv (PInt ada_spaces) (PInt 6) ;;
  c <- py_ceil (PFloat q) ;;
  Ok (Z.max 1 c).

(** The branch of [calculate_parking]'s [if]/[elif] chain that a unit
    string selects. *)
Inductive unit_branch : Type :=
| DwellingUnit
| ThousandSF
| Seat
| Room
| Classroom
| DefaultSF.

(** The chain of substring tests, in source order. *)
Definition select_branch (unit_type : string) : unit_branch :=
  if contains "dwelling unit" unit_type then DwellingUnit
  else if contains "1,000 SF" unit_type then ThousandSF
  else if contains "seat" unit_type then Seat
  else if contains "room" unit_type then Room
  else if contains "classroom" unit_type then Classroom
  else DefaultSF.

(** [math.ceil(a * b)] *)
Definition ceil_mul (a b : pynum) : result Z :=
  p <- py_mul a b ;; py_ceil p.

(** Parking requirement for a given use. *)
Definition calculate_parking (use_type : string) (gross_sf : pynum)
    (units seats employees : Z) (custom_ratio : option pynum)
    : result ParkingRequirement :=
  let notes : list string := [] in
  let '(notes, use_type) :=
    if negb (in_dict use_type PARKING_RATIOS) then
      (append notes ("⚠️ Unknown use type '" ++ use_type
                       ++ "', using general office ratio"),
       "office_general")
    else (notes, use_type) in
  ratio_info <- getitem PARKING_RATIOS use_type ;;
  let ratio :=
    match custom_ratio with
    | Some c => if py_bool c then c else PFloat (ri_ratio ratio_info)
    | None => PFloat (ri_ratio ratio_info)
    end in
  let unit_type := ri_unit ratio_info in
  let notes := append notes (ri_notes ratio_info) in
  (* Calculate base requirement *)
  '(required, notes) <-
    match select_branch unit_type with
    | DwellingUnit =>
        required <- ceil_mul ratio (PInt units) ;;
        s_ratio <- py_str_num ratio ;;
        s_units <- py_str_int units ;;
        s_required <- py_str_int required ;;
        Ok (required,
            append notes ("Calculation: " ++ s_ratio ++ " × " ++ s_units
                        ++ " units = " ++ s_required ++ " spaces"))
    | ThousandSF =>
        sf_units <- py_truediv gross_sf (PInt 1000) ;;
        required <- ceil_mul ratio (PFloat sf_units) ;;
        s_ratio <- py_str_num ratio ;;
        s_required <- py_str_int required ;;
        Ok (required,
            append notes ("Calculation: " ++ s_ratio ++ " × "
                        ++ format_2f sf_units ++ " (1,000 SF) = "
                        ++ s_required ++ " spaces"))
    | Seat =>
        required <- ceil_mul ratio (PInt seats) ;;
        s_ratio <- py_str_num ratio ;;
        s_seats <- py_str_int seats ;;
        s_required <- py_str_int required ;;
        Ok (required,
            append notes ("Calculation: " ++ s_ratio ++ " × " ++ s_seats
                        ++ " seats = " ++ s_required ++ " spaces"))
    | Room =>
        required <- ceil_mul ratio (PInt units) ;;
        s_ratio <- py_str_num ratio ;;
        s_units <- py_str_int units ;;
        s_required <- py_str_int required ;;
        Ok (required,
            append notes ("Calculation: " ++ s_ratio ++ " × " ++ s_units
                        ++ " rooms = " ++ s_required ++ " spaces"))
    | Classroom =>
        required <- ceil_mul ratio (PInt units) ;;
        s_ratio <- py_str_num ratio ;;
        s_units <- py_str_int units ;;
        s_required <- py_str_int required ;;
        Ok (required,
            append notes ("Calculation: " ++ s_ratio ++ " × " ++ s_units
                        ++ " classrooms = " ++ s_required ++ " spaces"))
    | DefaultSF =>
        sf_units <- py_truediv gross_sf (PInt 1000) ;;
        required <- ceil_mul ratio (PFloat sf_units) ;;
        Ok (required, append notes "Default calculation based on SF")
    end ;;
  (* Calculate ADA requirements *)
  ada_spaces <- calculate_ada_spaces required ;;
  van_accessible <- calculate_van_accessible ada_spaces ;;
  s_ada <- py_str_int ada_spaces ;;
  s_van <- py_str_int van_accessible ;;
  let notes :=
    append notes ("ADA: " ++ s_ada ++ " accessible spaces (" ++ s_van
                    ++ " van accessible)") in
  (* Total (ADA spaces are included in total, not additional) *)
  let total := required in
  s_ratio <- py_str_num ratio ;;
  Ok {| use_type := use_type;
        gross_sf := gross_sf;
        units := Some units;
        base_ratio := s_ratio ++ " per " ++ unit_type;
        required_spaces := required;
        ada_spaces := ada_spaces;
        total_spaces := total;
        notes := notes |}.

(** One element of [uses]: a dict with the keys [use_type], [gross_sf],
    [units] and [seats], each of which may be absent. *)
Record use_dict : Type := {
  d_use_type : option string;
  d_gross_sf : option pynum;
  d_units : option Z;
  d_seats : option Z
}.

(** [d.get(key, default)] for a key whose value, if present, is [v]. *)
Definition get {A : Type} (v : option A) (default : A) : A :=
  match v with
  | Some a => a
  | None => default
  end.

(** The dict that [calculate_mixed_use] returns; [mixed_notes] is its
    ["notes"] key. *)
Record MixedUseResult : Type := {
  individual_calculations : list ParkingRequirement;
  total_without_sharing : Z;
  shared_parking_potential : Z;
  potential_reduction : Z;
  ada_total : Z;
  mixed_notes : list string
}.

(** The call made for one element of [uses]; [employees] and
    [custom_ratio] keep their defaults. *)
Definition calculate_use (use : use_dict) : result ParkingRequirement :=
  calculate_parking
    (get (d_use_type use) "office_general")
    (get (d_gross_sf use) (PInt 0))
    (get (d_units use) 0)
    (get (d_seats use) 0)
    0 None.

(** The [for use in uses] loop, threading [results] and
    [total_required]. *)
Fixpoint mixed_use_loop (uses : list use_dict)
    (results : list ParkingRequirement) (total_required : Z)
    : result (list ParkingRequirement * Z) :=
  match uses with
  | [] => Ok (results, total_required)
  | use :: rest =>
      result <- calculate_use use ;;
      mixed_use_loop rest (append results result)
        (total_required + required_spaces result)
  end.

(** Parking for a mixed-use development with the potential shared parking
    reduction. *)
Definition calculate_mixed_use (uses : list use_dict) : result MixedUseResult :=
  '(results, total_required) <- mixed_use_loop uses [] 0 ;;
  (* Shared parking analysis (simplified ULI model):
     15% potential reduction *)
  shared_potential <- ceil_mul (PInt total_required) (PFloat (float_lit 0.85)) ;;
  ada <- calculate_ada_spaces shared_potential ;;
  Ok {| individual_calculations := results;
        total_without_sharing := total_required;
        shared_parking_potential := shared_potential;
        potential_reduction := total_required - shared_potential;
        ada_total := ada;
        mixed_notes := [
          "Shared parking analysis based on ULI Shared Parking methodology";
          "Actual reduction requires detailed time-of-day analysis";
          "Local jurisdiction approval required for shared parking credits"
        ] |}.

(** ** Vocabulary of the statements *)

(** The key [calculate_parking] looks up: the caller's use type, or
    ["office_general"] when the table does not have it. *)
Definition resolve_use_type (use_type : string) : string :=
  if in_dict use_type PARKING_RATIOS then use_type else "office_general".

(** The ratio [calculate_parking] multiplies by:
    [custom_ratio if custom_ratio else ratio_info["ratio"]]. *)
Definition effective_ratio (info : ratio_info) (custom_ratio : option pynum)
    : pynum :=
  match custom_ratio with
  | Some c => if py_bool c then c else PFloat (ri_ratio info)
  | None => PFloat (ri_ratio info)
  end.

(** The [required] that each branch of [calculate_parking] computes. *)
Definition base_requirement (branch : unit_branch) (ratio gross_sf : pynum)
    (units seats : Z) : result Z :=
  match branch with
  | DwellingUnit | Room | Classroom => ceil_mul ratio (PInt units)
  | Seat => ceil_mul ratio (PInt seats)
  | ThousandSF | DefaultSF =>
      sf_units <- py_truediv gross_sf (PInt 1000) ;;
      ceil_mul ratio (PFloat sf_units)
  end.

(** The effective ratio is zero or positive: no [custom_ratio], a zero one
    (which is ignored), or one with [0 <= custom_ratio]. *)
Definition ratio_not_negative (custom_ratio : option pynum) : bool :=
  match custom_ratio with
  | Some c => if py_bool c then py_le (PInt 0) c else true
  | None => true
  end.

(** The warning appended for a use type that the table does not have. *)
Definition unknown_use_note (use_type : string) : string :=
  "⚠️ Unknown use type '" ++ use_type ++ "', using general office ratio".

(** [r] with one more note in front. *)
Definition with_first_note (note : string) (r : ParkingRequirement)
    : ParkingRequirement :=
  {| use_type := use_type r;
     gross_sf := gross_sf r;
     units := units r;
     base_ratio := base_ratio r;
     required_spaces := required_spaces r;
     ada_spaces := ada_spaces r;
     total_spaces := total_spaces r;
     notes := note :: notes r |}.


(** One [calculate_parking] call per element of [uses], in order. *)
Fixpoint calculate_each (uses : list use_dict)
    : result (list ParkingRequirement) :=
  match uses with
  | [] => Ok []
  | use :: rest =>
      r <- calculate_use use ;;
      rs <- calculate_each rest ;;
      Ok (r :: rs)
  end.

(** Sum of the [required_spaces] of a list of results. *)
Definition sum_required (rs : list ParkingRequirement) : Z :=
  fold_right (fun r acc => required_spaces r + acc) 0 rs.

(** The double nearest to [0.85]: [7656119366529843 / 2^53]. *)
Definition f085 : spec_float := S754_finite false 7656119366529843 (-53).

(** The table entry for ["office_general"]. *)
Definition office_general_info : ratio_info :=
  {| ri_ratio := float_lit 3.0;
     ri_unit := "1,000 SF";
     ri_notes := "3 spaces per 1,000 SF" |}.

(** The three advisory notes of every mixed-use result. *)
Definition mixed_use_notes : list string := [
  "Shared parking analysis based on ULI Shared Parking methodology";
  "Actual reduction requires detailed time-of-day analysis";
  "Local jurisdiction approval required for shared parking credits"
].

(** The mixed-use example of the module: retail 10000 sf, general office
    20000 sf, restaurant 3000 sf. *)
Definition retail_office_restaurant : list use_dict := [
  {| d_use_type := Some "retail"; d_gross_sf := Some (PInt 10000);
     d_units := None; d_seats := None |};
  {| d_use_type := Some "office_general"; d_gross_sf := Some (PInt 20000);
     d_units := None; d_seats := None |};
  {| d_use_type := Some "restaurant"; d_gross_sf := Some (PInt 3000);
     d_units := None; d_seats := None |}
].

(** Does a table entry select the branch it should: the fallback for
    ["daycare"] only, and never the [Classroom] branch, which the [Room]
    test shadows? *)
Definition entry_branch_ok (e : string * ratio_info) : bool :=
  match select_branch (ri_unit (snd e)) with
  | DefaultSF => String.eqb (fst e) "daycare"
  | Classroom => false
  | _ => negb (String.eqb (fst e) "daycare")
  end.

(** The note that closes every record. *)
Definition ada_note (ada van : Z) : string :=
  "ADA: " ++ str_int ada ++ " accessible spaces (" ++ str_int van
    ++ " van accessible)".

(** The note that each branch of [calculate_parking] appends after
    computing [required]; [sf_units] is read by the [ThousandSF] branch
    only. *)
Definition calculation_note (branch : unit_branch) (ratio : pynum)
    (sf_units : spec_float) (units seats required : Z) : string :=
  match branch with
  | DwellingUnit =>
      "Calculation: " ++ str_num ratio ++ " × " ++ str_int units
        ++ " units = " ++ str_int required ++ " spaces"
  | ThousandSF =>
      "Calculation: " ++ str_num ratio ++ " × " ++ format_2f sf_units
        ++ " (1,000 SF) = " ++ str_int required ++ " spaces"
  | Seat =>
      "Calculation: " ++ str_num ratio ++ " × " ++ str_int seats
        ++ " seats = " ++ str_int required ++ " spaces"
  | Room =>
      "Calculation: " ++ str_num ratio ++ " × " ++ str_int units
        ++ " rooms = " ++ str_int required ++ " spaces"
  | Classroom =>
      "Calculation: " ++ str_num ratio ++ " × " ++ str_int units
        ++ " classrooms = " ++ str_int required ++ " spaces"
  | DefaultSF => "Default calculation based on SF"
  end.

(** The conversions to text that the calculation line of each branch
    makes, in order. *)
Definition calculation_strings (branch : unit_branch) (ratio : pynum)
    (units seats required : Z) : result unit :=
  match branch with
  | DwellingUnit | Room | Classroom =>
      s_ratio <- py_str_num ratio ;;
      s_units <- py_str_int units ;;
      s_required <- py_str_int required ;;
      Ok tt
  | ThousandSF =>
      s_ratio <- py_str_num ratio ;;
      s_required <- py_str_int required ;;
      Ok tt
  | Seat =>
      s_ratio <- py_str_num ratio ;;
      s_seats <- py_str_int seats ;;
      s_required <- py_str_int required ;;
      Ok tt
  | DefaultSF => Ok tt
  end.

(** [gross_sf / 1000] where the division returns. *)
Definition sf_units_of (gross_sf : pynum) : spec_float :=
  match py_truediv gross_sf (PInt 1000) with
  | Ok sf_units => sf_units
  | Raise _ => S754_nan
  end.

(** The notes of a call for [use_type]: the warning when the table does
    not have it, then the entry's note, the calculation and the ADA
    line. *)
Definition notes_of (use_type : string) (info : ratio_info) (calc : string)
    (ada van : Z) : list string :=
  ((if in_dict use_type PARKING_RATIOS then [] else [unknown_use_note use_type])
     ++ [ri_notes info; calc; ada_note ada van])%list.

(** A number that is, as a float, neither a zero, an infinity nor NaN. *)
Definition finite_nonzero (a : pynum) : Prop :=
  forall x,
    py_to_float a = Ok x -> Binary64.is_finite x = true /\
    Binary64.is_zero x = false.

(** Is [a] the float NaN? *)
Definition py_is_nan (a : pynum) : bool :=
  match a with
  | PFloat S754_nan => true
  | _ => false
  end.

(** Twice the ratio of each entry counted per dwelling unit, room or
    classroom. *)
Definition unit_count_halves : list (string * Z) := [
  ("single_family", 4);
  ("multi_family", 3);
  ("townhouse", 4);
  ("senior_housing", 1);
  ("school_elementary", 4);
  ("school_high", 16);
  ("hotel", 2)
].

(** Twice the ratio of each entry computed from the floor area. *)
Definition floor_area_halves : list (string * Z) := [
  ("retail", 8);
  ("shopping_center", 9);
  ("restaurant", 20);
  ("fast_food", 24);
  ("bank", 8);
  ("office_general", 6);
  ("office_medical", 10);
  ("office_dental", 9);
  ("warehouse", 2);
  ("manufacturing", 3);
  ("flex_space", 4);
  ("daycare", 2);
  ("gym_fitness", 10)
].

(** The counts of an outcome: required, accessible and total spaces. *)
Definition spaces (outcome : result ParkingRequirement) : result (Z * Z * Z) :=
  r <- outcome ;; Ok (required_spaces r, ada_spaces r, total_spaces r).

(** A mixed-use input whose second element has a NaN floor area and
    whose third has more rooms than a float can hold. *)
Definition nan_in_the_middle : list use_dict := [
  {| d_use_type := Some "retail"; d_gross_sf := Some (PInt 10000);
     d_units := None; d_seats := None |};
  {| d_use_type := Some "bank"; d_gross_sf := Some (PFloat S754_nan);
     d_units := None; d_seats := None |};
  {| d_use_type := Some "hotel"; d_gross_sf := None;
     d_units := Some (10 ^ 400); d_seats := None |}
].

(** * Facts *)

Import Binary64.

(** ** The embedding on concrete inputs *)

(** [SFround] agrees with the Standard Library's executable specification
    of binary64 on the conversions, products and quotients of the
    module's constants. *)
Example of_Z_agrees :
  map of_Z [0; 1000; -50; 2 ^ 53 + 1; 2 ^ 53 + 3; 2 ^ 1024]
  = map (fun z => binary_normalize 53 1024 z 0 false)
      [0; 1000; -50; 2 ^ 53 + 1; 2 ^ 53 + 3; 2 ^ 1024].
Proof. vm_compute. reflexivity. Qed.

Example mul_agrees :
  map (fun p => mul (fst p) (snd p))
    [(float_lit 0.33, of_Z 100); (float_lit 0.07, of_Z 100);
     (float_lit 0.85, of_Z 130); (float_lit 1.5, of_Z (-7));
     (SFround false (3 # 2 ^ 1074), float_lit 0.5)]
  = map (fun p => SFmul 53 1024 (fst p) (snd p))
      [(float_lit 0.33, of_Z 100); (float_lit 0.07, of_Z 100);
       (float_lit 0.85, of_Z 130); (float_lit 1.5, of_Z (-7));
       (SFround false (3 # 2 ^ 1074), float_lit 0.5)].
Proof. vm_compute. reflexivity. Qed.

Example div_agrees :
  map (fun p => div (fst p) (snd p))
    [(of_Z 5000, of_Z 1000); (of_Z 1, of_Z 3); (float_lit 2500.5, of_Z 1000);
     (of_Z (-1), of_Z 1000)]
  = map (fun p => SFdiv 53 1024 (fst p) (snd p))
      [(of_Z 5000, of_Z 1000); (of_Z 1, of_Z 3); (float_lit 2500.5, of_Z 1000);
       (of_Z (-1), of_Z 1000)].
Proof. vm_compute. reflexivity. Qed.

(** [0.07 * 100] is not 7. *)
Example ceil_mul_inexact :
  ceil_mul (PFloat (float_lit 0.07)) (PInt 100) = Ok 8.
Proof. vm_compute. reflexivity. Qed.

Example repr_float_examples :
  map repr_float
    [float_lit 0.33; float_lit 4.0; mul (float_lit 0.07) (of_Z 100);
     of_Z (10 ^ 16); float_lit 0.00001; float_lit (-0.5)]
  = ["0.33"; "4.0"; "7.000000000000001"; "1e+16"; "1e-05"; "-0.5"].
Proof. vm_compute. reflexivity. Qed.

Example format_2f_examples :
  map format_2f [float_lit 0.125; float_lit 5.0; float_lit (-0.001)]
  = ["0.12"; "5.00"; "-0.00"].
Proof. vm_compute. reflexivity. Qed.

(** The single use example of the module: a 50-unit apartment building. *)
Example calculate_parking_multi_family :
  calculate_parking "multi_family" (PInt 0) 50 0 0 None =
  Ok {| use_type := "multi_family";
        gross_sf := PInt 0;
        units := Some 50;
        base_ratio := "1.5 per dwelling unit";
        required_spaces := 75;
        ada_spaces := 3;
        total_spaces := 75;
        notes := ["1.5 spaces per DU + guest parking";
                  "Calculation: 1.5 × 50 units = 75 spaces";
                  "ADA: 3 accessible spaces (1 van accessible)"] |}.
Proof. vm_compute. reflexivity. Qed.

(** ** Powers of two and logarithms *)

Section Binary64Facts.
Local Open Scope Q_scope.

Lemma pow2_pos (e : Z) : 0 < 2 ^ e.
Proof. apply Qpower_0_lt. reflexivity. Qed.

Lemma pow2_add (a b : Z) : 2 ^ (a + b) == 2 ^ a * 2 ^ b.
Proof. apply Qpower_plus. discriminate. Qed.

Lemma pow2_le (a b : Z) : (a <= b)%Z -> 2 ^ a <= 2 ^ b.
Proof. intros H. apply Qpower_le_compat_l; [exact H | discriminate]. Qed.

Lemma pow2_lt (a b : Z) : (a < b)%Z -> 2 ^ a < 2 ^ b.
Proof. intros H. apply Qpower_lt_compat_l; [exact H | reflexivity]. Qed.

Lemma pow2_lt_inv (a b : Z) : 2 ^ a < 2 ^ b -> (a < b)%Z.
Proof. intros H. apply (Qpower_lt_compat_l_inv 2); [exact H | reflexivity]. Qed.

Lemma pow2_inject (e : Z) : (0 <= e)%Z -> 2 ^ e == inject_Z (2 ^ e).
Proof. intros H. symmetry. apply (Zpower_Qpower 2 e H). Qed.

Lemma pow2_succ (e : Z) : 2 ^ (e + 1) == 2 * 2 ^ e.
Proof. rewrite pow2_add. change (2 ^ 1) with 2. ring. Qed.

Lemma pow2_pred (e : Z) : 2 * 2 ^ (e - 1) == 2 ^ e.
Proof.
  rewrite <- pow2_succ. replace (e - 1 + 1)%Z with e by ring. reflexivity.
Qed.

Lemma Qlog2_floor_spec (a : Q) :
  0 < a -> 2 ^ Qlog2_floor a <= a /\ a < 2 ^ (Qlog2_floor a + 1).
Proof.
  intros Ha.
  assert (Hn : (0 < Qnum a)%Z).
  { destruct a as [n d]. unfold Qlt in Ha. simpl in *. lia. }
  pose proof (Z.log2_spec _ Hn) as [Hp1 Hp2].
  pose proof (Z.log2_spec (Zpos (Qden a)) eq_refl) as [Hq1 Hq2].
  pose proof (Z.log2_nonneg (Qnum a)) as Hp0.
  pose proof (Z.log2_nonneg (Zpos (Qden a))) as Hq0.
  unfold Qlog2_floor.
  set (p := Z.log2 (Qnum a)) in *. set (q := Z.log2 (Zpos (Qden a))) in *.
  assert (HaD : a * inject_Z (Zpos (Qden a)) == inject_Z (Qnum a)).
  { destruct a as [n d]. simpl. unfold Qeq, Qmult, inject_Z. simpl. lia. }
  assert (HL : 2 ^ (p - q) * 2 ^ q == 2 ^ p).
  { rewrite <- pow2_add. replace (p - q + q)%Z with p by ring. reflexivity. }
  rewrite (pow2_inject p Hp0), (pow2_inject q Hq0) in HL.
  replace (Z.succ p) with (p + 1)%Z in Hp2 by lia.
  replace (Z.succ q) with (q + 1)%Z in Hq2 by lia.
  rewrite Z.pow_add_r in Hp2, Hq2 by lia.
  rewrite Zle_Qle in Hp1, Hq1.
  rewrite Zlt_Qlt in Hp2, Hq2.
  rewrite inject_Z_mult in Hp2, Hq2.
  change (inject_Z (2 ^ 1)) with 2 in Hp2, Hq2.
  set (N := inject_Z (Qnum a)) in *. set (D := inject_Z (Zpos (Qden a))) in *.
  set (P := inject_Z (2 ^ p)) in *. set (Qq := inject_Z (2 ^ q)) in *.
  pose proof (pow2_pos (p - q)) as HLpos.
  destruct (Qle_bool (2 ^ (p - q)) a) eqn:E.
  - apply Qle_bool_iff in E. split; [exact E|].
    rewrite pow2_succ. set (L := 2 ^ (p - q)) in *.
    apply Qnot_le_lt. intros C.
    assert (2 * L * D <= a * D) by (apply Qmult_le_compat_r; [exact C | lra]).
    assert (L * Qq <= L * D) by (apply Qmult_le_l; [exact HLpos | exact Hq1]).
    clearbody N D P Qq L. lra.
  - assert (E' : a < 2 ^ (p - q)).
    { apply Qnot_le_lt. intros C. apply Qle_bool_iff in C. congruence. }
    replace (p - q - 1 + 1)%Z with (p - q)%Z by ring.
    split; [|exact E'].
    pose proof (pow2_pred (p - q)) as Hpred.
    set (L := 2 ^ (p - q)) in *. set (L' := 2 ^ (p - q - 1)) in *.
    apply Qnot_lt_le. intros C.
    assert (a * D <= L' * D) by (apply Qmult_le_compat_r; [lra | lra]).
    assert (L' * D < L' * (Qq * 2)).
    { apply Qmult_lt_l; [unfold L'; apply pow2_pos | lra]. }
    assert (L' * (Qq * 2) == 2 * L' * Qq) by ring.
    assert (2 * L' * Qq == L * Qq) by (rewrite Hpred; reflexivity).
    clearbody N D P Qq L L'. lra.
Qed.

Lemma Qlog2_floor_unique (a : Q) (l : Z) :
  2 ^ l <= a -> a < 2 ^ (l + 1) -> Qlog2_floor a = l.
Proof.
  intros H1 H2.
  assert (Ha : 0 < a) by (pose proof (pow2_pos l); lra).
  destruct (Qlog2_floor_spec a Ha) as [H3 H4].
  assert (l < Qlog2_floor a + 1)%Z by (apply pow2_lt_inv; lra).
  assert (Qlog2_floor a < l + 1)%Z by (apply pow2_lt_inv; lra).
  lia.
Qed.

Lemma Qlog2_floor_mono (a b : Q) :
  0 < a -> a <= b -> (Qlog2_floor a <= Qlog2_floor b)%Z.
Proof.
  intros Ha Hab.
  destruct (Qlog2_floor_spec a Ha) as [H1 _].
  destruct (Qlog2_floor_spec b) as [_ H2]; [lra|].
  assert (Qlog2_floor a < Qlog2_floor b + 1)%Z by (apply pow2_lt_inv; lra).
  lia.
Qed.

Lemma Qrne_bounds (x : Q) :
  2 * inject_Z (Qrne x) - 1 <= 2 * x /\ 2 * x <= 2 * inject_Z (Qrne x) + 1.
Proof.
  pose proof (Qfloor_le x) as H1. pose proof (Qlt_floor x) as H2.
  rewrite inject_Z_plus in H2. change (inject_Z 1) with 1 in H2.
  unfold Qrne. set (f := Qfloor x) in *.
  destruct (Qcompare_spec (x - inject_Z f) (1 # 2)) as [E|E|E];
    [destruct (Z.even f)| |];
    rewrite ?inject_Z_plus; change (inject_Z 1) with 1;
    clearbody f; lra.
Qed.

Lemma Qrne_near (x : Q) (k : Z) :
  2 * inject_Z k - 1 < 2 * x -> 2 * x < 2 * inject_Z k + 1 -> Qrne x = k.
Proof.
  intros H1 H2. destruct (Qrne_bounds x) as [H3 H4].
  assert (A : inject_Z (Qrne x) < inject_Z k + 1) by lra.
  assert (B : inject_Z k < inject_Z (Qrne x) + 1) by lra.
  change 1 with (inject_Z 1) in A, B. rewrite <- inject_Z_plus in A, B.
  rewrite <- Zlt_Qlt in A, B. lia.
Qed.

Lemma Qrne_inject (k : Z) : Qrne (inject_Z k) = k.
Proof. apply Qrne_near; lra. Qed.

Lemma Qrne_mono (x y : Q) : x <= y -> (Qrne x <= Qrne y)%Z.
Proof.
  intros Hxy.
  pose proof (Qfloor_resp_le _ _ Hxy) as Hf.
  pose proof (Qfloor_le x) as Hx1. pose proof (Qlt_floor x) as Hx2.
  pose proof (Qfloor_le y) as Hy1. pose proof (Qlt_floor y) as Hy2.
  rewrite inject_Z_plus in Hx2, Hy2. change (inject_Z 1) with 1 in Hx2, Hy2.
  unfold Qrne. set (fx := Qfloor x) in *. set (fy := Qfloor y) in *.
  clearbody fx fy.
  assert (C : (fx < fy \/ fx = fy)%Z) by lia.
  destruct C as [C|C].
  - destruct (Qcompare_spec (x - inject_Z fx) (1 # 2));
      destruct (Qcompare_spec (y - inject_Z fy) (1 # 2));
      repeat match goal with |- context [Z.even ?f] => destruct (Z.even f) end;
      lia.
  - subst fy.
    destruct (Qcompare_spec (x - inject_Z fx) (1 # 2));
      destruct (Qcompare_spec (y - inject_Z fx) (1 # 2));
      repeat match goal with |- context [Z.even ?f] => destruct (Z.even f) end;
      try lia; exfalso; lra.
Qed.

Lemma Qrne_nonneg (x : Q) : 0 <= x -> (0 <= Qrne x)%Z.
Proof.
  intros H. rewrite <- (Qrne_inject 0). apply Qrne_mono. exact H.
Qed.

Lemma round_val_eq (a : Q) :
  round_val a == inject_Z (Qrne (a / 2 ^ ulp_exp a)) * 2 ^ ulp_exp a.
Proof.
  unfold round_val, round_mag.
  destruct (Z.eqb_spec (Qrne (a / 2 ^ ulp_exp a)) (2 ^ prec)) as [E|E].
  - rewrite E, pow2_succ. change (inject_Z (2 ^ (prec - 1))) with (2 ^ 52).
    change (inject_Z (2 ^ prec)) with (2 * 2 ^ 52). ring.
  - reflexivity.
Qed.

Lemma Qdiv_pow2_le (a b : Q) (e : Z) : a <= b -> a / 2 ^ e <= b / 2 ^ e.
Proof.
  intros H. apply Qmult_le_compat_r; [exact H|].
  apply Qlt_le_weak, Qinv_lt_0_compat, pow2_pos.
Qed.

Lemma Qdiv_pow2_mul (a : Q) (e : Z) : a / 2 ^ e * 2 ^ e == a.
Proof. field. pose proof (pow2_pos e). lra. Qed.

Lemma Qdiv_pow2_sub (a : Q) (e f : Z) : a * 2 ^ f / 2 ^ e == a * 2 ^ (f - e).
Proof.
  unfold Z.sub. rewrite pow2_add, Qpower_opp. field.
  pose proof (pow2_pos e). lra.
Qed.

Lemma ulp_exp_ge_emin (a : Q) : (emin <= ulp_exp a)%Z.
Proof. unfold ulp_exp. lia. Qed.

Lemma ulp_exp_mono (a b : Q) : 0 < a -> a <= b -> (ulp_exp a <= ulp_exp b)%Z.
Proof.
  intros Ha Hab. pose proof (Qlog2_floor_mono a b Ha Hab). unfold ulp_exp. lia.
Qed.

Lemma ulp_exp_upper (a : Q) : 0 < a -> a < 2 ^ (ulp_exp a + prec).
Proof.
  intros Ha. destruct (Qlog2_floor_spec a Ha) as [_ H].
  eapply Qlt_le_trans; [exact H|]. apply pow2_le. unfold ulp_exp, prec. lia.
Qed.

Lemma ulp_exp_lower (a : Q) :
  0 < a -> (emin < ulp_exp a)%Z -> 2 ^ (ulp_exp a + (prec - 1)) <= a.
Proof.
  intros Ha He. destruct (Qlog2_floor_spec a Ha) as [H _].
  eapply Qle_trans; [|exact H]. apply pow2_le. unfold ulp_exp, prec in *. lia.
Qed.

(** [a < 2^(E + prec)] bounds the exponent of the last place by [E]. *)
Lemma ulp_exp_le (a : Q) (E : Z) :
  0 < a -> a < 2 ^ (E + prec) -> (emin <= E)%Z -> (ulp_exp a <= E)%Z.
Proof.
  intros Ha H HE. destruct (Qlog2_floor_spec a Ha) as [H1 _].
  assert (Qlog2_floor a < E + prec)%Z by (apply pow2_lt_inv; lra).
  unfold ulp_exp, prec in *. lia.
Qed.

Lemma mantissa_upper (a : Q) :
  0 < a -> (Qrne (a / 2 ^ ulp_exp a) <= 2 ^ prec)%Z.
Proof.
  intros Ha. rewrite <- (Qrne_inject (2 ^ prec)). apply Qrne_mono.
  rewrite <- (pow2_inject prec) by (unfold prec; lia).
  apply Qle_shift_div_r; [apply pow2_pos|].
  rewrite <- pow2_add. rewrite Z.add_comm.
  apply Qlt_le_weak, ulp_exp_upper, Ha.
Qed.

Lemma mantissa_lower (a : Q) :
  0 < a -> (emin < ulp_exp a)%Z ->
  (2 ^ (prec - 1) <= Qrne (a / 2 ^ ulp_exp a))%Z.
Proof.
  intros Ha He. rewrite <- (Qrne_inject (2 ^ (prec - 1))) at 1. apply Qrne_mono.
  rewrite <- (pow2_inject (prec - 1)) by (unfold prec; lia).
  apply Qle_shift_div_l; [apply pow2_pos|].
  rewrite <- pow2_add. rewrite Z.add_comm.
  apply ulp_exp_lower; assumption.
Qed.

Lemma round_val_zero (a : Q) : a == 0 -> round_val a == 0.
Proof.
  intros Ha. rewrite round_val_eq.
  assert (Hx : a / 2 ^ ulp_exp a == 0).
  { pose proof (Qdiv_pow2_mul a (ulp_exp a)) as Hd.
    pose proof (pow2_pos (ulp_exp a)).
    set (x := a / 2 ^ ulp_exp a) in *. set (E := 2 ^ ulp_exp a) in *.
    clearbody x E.
    assert (Hm : x * E == 0) by lra.
    destruct (Qmult_integral _ _ Hm); lra. }
  assert (E : Qrne (a / 2 ^ ulp_exp a) = 0%Z).
  { set (x := a / 2 ^ ulp_exp a) in *. clearbody x.
    apply Qrne_near; change (inject_Z 0) with 0; lra. }
  rewrite E. ring.
Qed.

Lemma round_val_nonneg (a : Q) : 0 <= a -> 0 <= round_val a.
Proof.
  intros Ha. rewrite round_val_eq.
  apply Qmult_le_0_compat; [|apply Qlt_le_weak, pow2_pos].
  change 0 with (inject_Z 0). rewrite <- Zle_Qle. apply Qrne_nonneg.
  apply Qle_shift_div_l; [apply pow2_pos|]. rewrite Qmult_0_l. exact Ha.
Qed.

Lemma round_val_mono (a b : Q) : 0 <= a -> a <= b -> round_val a <= round_val b.
Proof.
  intros Ha Hab.
  destruct (Qle_lt_or_eq _ _ Ha) as [Hpos|Hz].
  2:{ rewrite (round_val_zero a) by (symmetry; exact Hz).
      apply round_val_nonneg. lra. }
  pose proof (ulp_exp_mono a b Hpos Hab) as He.
  rewrite !round_val_eq.
  assert (C : (ulp_exp a = ulp_exp b \/ ulp_exp a < ulp_exp b)%Z) by lia.
  destruct C as [C|C].
  - rewrite C. apply Qmult_le_compat_r; [|apply Qlt_le_weak, pow2_pos].
    rewrite <- Zle_Qle. apply Qrne_mono, Qdiv_pow2_le, Hab.
  - assert (Hb : 0 < b) by lra.
    pose proof (mantissa_upper a Hpos) as Hu.
    pose proof (ulp_exp_ge_emin a) as Hm.
    pose proof (mantissa_lower b Hb ltac:(lia)) as Hl.
    rewrite Zle_Qle in Hu, Hl.
    rewrite <- (pow2_inject) in Hu, Hl by (unfold prec; lia).
    apply Qle_trans with (2 ^ prec * 2 ^ ulp_exp a).
    { apply Qmult_le_compat_r; [exact Hu | apply Qlt_le_weak, pow2_pos]. }
    apply Qle_trans with (2 ^ (prec - 1) * 2 ^ ulp_exp b).
    { rewrite <- !pow2_add. apply pow2_le. lia. }
    apply Qmult_le_compat_r; [exact Hl | apply Qlt_le_weak, pow2_pos].
Qed.

Lemma round_val_error (a : Q) :
  2 * a - 2 ^ ulp_exp a <= 2 * round_val a /\
  2 * round_val a <= 2 * a + 2 ^ ulp_exp a.
Proof.
  rewrite round_val_eq.
  destruct (Qrne_bounds (a / 2 ^ ulp_exp a)) as [H1 H2].
  pose proof (pow2_pos (ulp_exp a)) as Hp.
  pose proof (Qdiv_pow2_mul a (ulp_exp a)) as Hd.
  set (E := 2 ^ ulp_exp a) in *. set (x := a / E) in *.
  set (m := inject_Z (Qrne x)) in *. clearbody m x E.
  assert (A : (2 * m - 1) * E <= 2 * x * E) by (apply Qmult_le_compat_r; lra).
  assert (B : 2 * x * E <= (2 * m + 1) * E) by (apply Qmult_le_compat_r; lra).
  split; lra.
Qed.

Lemma round_val_exact (a : Q) (M E : Z) :
  a == inject_Z M * 2 ^ E -> (0 <= M < 2 ^ prec)%Z -> (emin <= E)%Z ->
  round_val a == a.
Proof.
  intros Ha HM HE.
  assert (C : (M = 0 \/ 0 < M)%Z) by lia. destruct C as [C|C].
  { subst M. assert (Hz : a == 0) by (rewrite Ha; ring).
    rewrite (round_val_zero a Hz). symmetry. exact Hz. }
  pose proof (pow2_pos E) as HpE.
  assert (HMq : 0 < inject_Z M) by (change 0 with (inject_Z 0); rewrite <- Zlt_Qlt; lia).
  assert (Hpos : 0 < a).
  { rewrite Ha. apply Qmult_lt_0_compat; assumption. }
  assert (Hlt : a < 2 ^ (E + prec)).
  { rewrite Ha, pow2_add, (Qmult_comm (2 ^ E)).
    apply Qmult_lt_compat_r; [exact HpE|].
    rewrite pow2_inject by (unfold prec; lia). rewrite <- Zlt_Qlt. lia. }
  pose proof (ulp_exp_le a E Hpos Hlt HE) as Hle.
  rewrite round_val_eq.
  set (e := ulp_exp a) in *. clearbody e.
  assert (Hx : a / 2 ^ e == inject_Z (M * 2 ^ (E - e))).
  { rewrite Ha, Qdiv_pow2_sub, inject_Z_mult, pow2_inject by lia. reflexivity. }
  assert (Hr : Qrne (a / 2 ^ e) = (M * 2 ^ (E - e))%Z).
  { set (x := a / 2 ^ e) in *. clearbody x. apply Qrne_near; lra. }
  rewrite Hr, <- Hx. apply Qdiv_pow2_mul.
Qed.

Lemma round_val_comp (a b : Q) : 0 <= a -> a == b -> round_val a == round_val b.
Proof.
  intros Ha E. apply Qle_antisym; apply round_val_mono; lra.
Qed.

Lemma RN_nonneg (q : Q) : 0 <= q -> RN q == round_val q.
Proof.
  intros H. unfold RN. apply Qle_bool_iff in H. rewrite H. reflexivity.
Qed.

Lemma RN_neg (q : Q) : q <= 0 -> RN q == - round_val (- q).
Proof.
  intros H. unfold RN. destruct (Qle_bool 0 q) eqn:E; [|reflexivity].
  apply Qle_bool_iff in E.
  assert (Hz : q == 0) by lra.
  rewrite (round_val_zero q Hz), (round_val_zero (- q)) by lra. reflexivity.
Qed.

Lemma RN_mono (x y : Q) : x <= y -> RN x <= RN y.
Proof.
  intros Hxy.
  destruct (Qlt_le_dec x 0) as [Hx|Hx]; destruct (Qlt_le_dec y 0) as [Hy|Hy].
  - rewrite (RN_neg x), (RN_neg y) by lra.
    pose proof (round_val_mono (- y) (- x)). lra.
  - rewrite (RN_neg x), (RN_nonneg y) by lra.
    pose proof (round_val_nonneg (- x)). pose proof (round_val_nonneg y). lra.
  - lra.
  - rewrite (RN_nonneg x), (RN_nonneg y) by lra.
    apply round_val_mono; lra.
Qed.

Lemma RN_comp (x y : Q) : x == y -> RN x == RN y.
Proof. intros E. apply Qle_antisym; apply RN_mono; lra. Qed.

Lemma round_mag_nonneg (a : Q) : 0 <= a -> (0 <= fst (round_mag a))%Z.
Proof.
  intros Ha. unfold round_mag.
  destruct (Qrne (a / 2 ^ ulp_exp a) =? 2 ^ prec)%Z; simpl; [unfold prec; lia|].
  apply Qrne_nonneg. apply Qle_shift_div_l; [apply pow2_pos|].
  rewrite Qmult_0_l. exact Ha.
Qed.

Lemma SFround_sign (s : bool) (a : Q) : SFsign (SFround s a) = s.
Proof.
  unfold SFround. destruct (round_mag a) as [m e].
  destruct m; [reflexivity| |reflexivity].
  destruct (e <=? emax - prec)%Z; reflexivity.
Qed.

Lemma SFround_mag (s : bool) (a : Q) :
  0 <= a -> is_finite (SFround s a) = true -> SFmag (SFround s a) == round_val a.
Proof.
  intros Ha. pose proof (round_mag_nonneg a Ha) as Hm.
  unfold SFround, round_val. destruct (round_mag a) as [m e]. simpl in Hm.
  destruct m; [intros _; simpl; ring| |lia].
  destruct (e <=? emax - prec)%Z; [intros _; reflexivity | discriminate].
Qed.

Lemma SFround_finite (s : bool) (a : Q) :
  0 <= a -> a < 2 ^ (emax - 1) -> is_finite (SFround s a) = true.
Proof.
  intros Ha Hlt.
  assert (He : (snd (round_mag a) <= emax - prec)%Z \/ fst (round_mag a) = 0%Z).
  { destruct (Qle_lt_or_eq _ _ Ha) as [Hpos|Hz].
    - left. assert (ulp_exp a <= emax - prec - 1)%Z.
      { apply ulp_exp_le; [exact Hpos | | unfold emin, emax, prec; lia].
        replace (emax - prec - 1 + prec)%Z with (emax - 1)%Z by ring. exact Hlt. }
      unfold round_mag. destruct (_ =? _)%Z; simpl; unfold emax, prec in *; lia.
    - right. unfold round_mag.
      assert (Hx : a / 2 ^ ulp_exp a == 0).
      { pose proof (Qdiv_pow2_mul a (ulp_exp a)) as Hd.
        pose proof (pow2_pos (ulp_exp a)).
        set (x := a / 2 ^ ulp_exp a) in *. set (E := 2 ^ ulp_exp a) in *.
        clearbody x E.
        assert (Hm : x * E == 0) by lra.
        destruct (Qmult_integral _ _ Hm); lra. }
      assert (E : Qrne (a / 2 ^ ulp_exp a) = 0%Z).
      { set (x := a / 2 ^ ulp_exp a) in *. clearbody x.
        apply Qrne_near; change (inject_Z 0) with 0; lra. }
      rewrite E. reflexivity. }
  unfold SFround. destruct (round_mag a) as [m e]. simpl in He.
  destruct m; [reflexivity| |reflexivity].
  destruct He as [He|He]; [|discriminate].
  destruct (Z.leb_spec e (emax - prec)); [reflexivity | exfalso; unfold emax, prec in *; lia].
Qed.

Lemma SFround_not_nan (s : bool) (a : Q) : SFround s a <> S754_nan.
Proof.
  unfold SFround. destruct (round_mag a) as [m e].
  destruct m; try discriminate. destruct (e <=? emax - prec)%Z; discriminate.
Qed.

(** Value of a rounded signed magnitude. *)
Lemma SF2Q_SFround (s : bool) (a q : Q) :
  0 <= a -> q == (if s then - a else a) ->
  is_finite (SFround s a) = true -> SF2Q (SFround s a) == RN q.
Proof.
  intros Ha Hq Hf. unfold SF2Q. rewrite SFround_sign.
  pose proof (SFround_mag s a Ha Hf) as Hm.
  destruct s; rewrite Hm.
  - rewrite (RN_neg q) by lra. apply Qopp_comp. apply round_val_comp; lra.
  - rewrite (RN_nonneg q) by lra. apply round_val_comp; lra.
Qed.

Lemma SFmag_nonneg (x : spec_float) : 0 <= SFmag x.
Proof.
  destruct x; simpl; try lra.
  apply Qmult_le_0_compat; [|apply Qlt_le_weak, pow2_pos].
  unfold Qle; simpl; lia.
Qed.

Lemma SF2Q_of_Z (z : Z) :
  is_finite (of_Z z) = true -> SF2Q (of_Z z) == RN (inject_Z z).
Proof.
  intros Hf. unfold of_Z in *. apply SF2Q_SFround; [| |exact Hf].
  - change 0 with (inject_Z 0). rewrite <- Zle_Qle. lia.
  - destruct (Z.ltb_spec z 0).
    + rewrite <- inject_Z_opp. f_equiv. lia.
    + f_equiv. lia.
Qed.

Lemma SF2Q_mul (x y : spec_float) :
  is_finite (mul x y) = true ->
  is_finite x = true /\ is_finite y = true /\
  SF2Q (mul x y) == RN (SF2Q x * SF2Q y).
Proof.
  intros Hf.
  assert (Hxy : is_finite x = true /\ is_finite y = true).
  { destruct x, y; simpl in *; auto; discriminate. }
  destruct Hxy as [Hx Hy]. split; [exact Hx|]. split; [exact Hy|].
  assert (E : mul x y = SFround (xorb (SFsign x) (SFsign y)) (SFmag x * SFmag y)).
  { destruct x, y; try discriminate; reflexivity. }
  rewrite E in *. pose proof (SFmag_nonneg x). pose proof (SFmag_nonneg y).
  apply SF2Q_SFround; [apply Qmult_le_0_compat; assumption | | exact Hf].
  unfold SF2Q. destruct (SFsign x), (SFsign y); simpl; ring.
Qed.

Lemma SF2Q_div (x y : spec_float) :
  is_finite x = true -> is_finite y = true -> is_zero y = false ->
  is_finite (div x y) = true ->
  SF2Q (div x y) == RN (SF2Q x / SF2Q y).
Proof.
  intros Hx Hy Hz Hf.
  assert (E : div x y = SFround (xorb (SFsign x) (SFsign y)) (SFmag x / SFmag y)).
  { destruct x, y; try discriminate; reflexivity. }
  rewrite E in *. pose proof (SFmag_nonneg x).
  assert (Hpos : 0 < SFmag y).
  { destruct y; try discriminate. simpl.
    apply Qmult_lt_0_compat; [reflexivity | apply pow2_pos]. }
  apply SF2Q_SFround; [| | exact Hf].
  - apply Qle_shift_div_l; [exact Hpos|]. lra.
  - unfold SF2Q. destruct (SFsign x), (SFsign y); simpl; field; lra.
Qed.

Lemma py_ceil_float_inv (x : spec_float) (c : Z) :
  py_ceil (PFloat x) = Ok c ->
  is_finite x = true /\ c = Qceiling (SF2Q x).
Proof.
  destruct x; simpl; intros H; inversion H; auto.
Qed.

Lemma py_float_of_int_inv (z : Z) (x : spec_float) :
  py_float_of_int z = Ok x ->
  is_finite x = true /\ SF2Q x == RN (inject_Z z).
Proof.
  unfold py_float_of_int. intros H.
  assert (E : x = of_Z z /\ is_finite (of_Z z) = true).
  { pose proof (SFround_not_nan (z <? 0)%Z (inject_Z (Z.abs z))) as Hn.
    fold (of_Z z) in Hn.
    destruct (of_Z z); inversion H; try contradiction; auto. }
  destruct E as [-> Hf]. split; [exact Hf | apply SF2Q_of_Z, Hf].
Qed.

Lemma py_to_float_inv (a : pynum) (x : spec_float) :
  py_to_float a = Ok x -> is_finite x = true ->
  py_finite a = true /\ SF2Q x == to_float_value a.
Proof.
  destruct a as [z|y]; simpl.
  - intros H _. split; [reflexivity | apply py_float_of_int_inv, H].
  - intros H Hf. inversion H; subst. split; [exact Hf | reflexivity].
Qed.

(** What [math.ceil(a * b)] returns when a float is involved. *)
Lemma ceil_mul_float_inv (a b : pynum) (c : Z) :
  (forall r u, a = PInt r -> b = PInt u -> False) ->
  ceil_mul a b = Ok c ->
  py_finite a = true /\ py_finite b = true /\
  c = Qceiling (RN (to_float_value a * to_float_value b)).
Proof.
  intros Hnot H. unfold ceil_mul in H.
  assert (E : py_mul a b =
              (x <- py_to_float a ;; y <- py_to_float b ;;
               Ok (PFloat (Binary64.mul x y)))).
  { destruct a, b; try reflexivity. exfalso. eapply Hnot; reflexivity. }
  rewrite E in H. clear E.
  destruct (py_to_float a) as [x|] eqn:Ea; [|discriminate].
  destruct (py_to_float b) as [y|] eqn:Eb; [|discriminate].
  simpl in H. apply py_ceil_float_inv in H. destruct H as [Hf ->].
  destruct (SF2Q_mul x y Hf) as (Hx & Hy & Hv).
  destruct (py_to_float_inv a x Ea Hx) as [Fa Va].
  destruct (py_to_float_inv b y Eb Hy) as [Fb Vb].
  split; [exact Fa|]. split; [exact Fb|].
  apply Z.le_antisymm; apply Qceiling_resp_le; rewrite Hv;
    apply Qle_lteq; right; apply RN_comp; rewrite Va, Vb; reflexivity.
Qed.

Lemma py_le_value (a b : pynum) :
  py_finite a = true -> py_finite b = true -> py_le a b = true ->
  py_value a <= py_value b.
Proof.
  intros Fa Fb H.
  destruct a as [x|x], b as [y|y]; simpl in *;
    try (apply Qle_bool_iff; exact H);
    destruct x; try discriminate; try (apply Qle_bool_iff; exact H);
    destruct y; try discriminate; apply Qle_bool_iff; exact H.
Qed.

(** [math.ceil(ratio * u)] is monotone in an integer [u] for a ratio that
    is not negative. *)
Lemma ceil_mul_mono_int (ratio : pynum) (u1 u2 c1 c2 : Z) :
  py_le (PInt 0) ratio = true -> (u1 <= u2)%Z ->
  ceil_mul ratio (PInt u1) = Ok c1 -> ceil_mul ratio (PInt u2) = Ok c2 ->
  (c1 <= c2)%Z.
Proof.
  intros Hr Hu H1 H2.
  destruct ratio as [r|x].
  - simpl in Hr. apply Qle_bool_iff in Hr. rewrite <- Zle_Qle in Hr.
    unfold ceil_mul in *. simpl in *. inversion H1; inversion H2; subst. nia.
  - apply ceil_mul_float_inv in H1; [|intros; discriminate].
    apply ceil_mul_float_inv in H2; [|intros; discriminate].
    destruct H1 as (Fx & _ & ->). destruct H2 as (_ & _ & ->).
    pose proof (py_le_value (PInt 0) (PFloat x) eq_refl Fx Hr) as Hv.
    simpl in *. apply Qceiling_resp_le, RN_mono.
    rewrite !(Qmult_comm (SF2Q x)). apply Qmult_le_compat_r; [|exact Hv].
    apply RN_mono. rewrite <- Zle_Qle. exact Hu.
Qed.

(** ... and in a float operand. *)
Lemma ceil_mul_mono_float (ratio : pynum) (s1 s2 : spec_float) (c1 c2 : Z) :
  py_le (PInt 0) ratio = true -> SF2Q s1 <= SF2Q s2 ->
  ceil_mul ratio (PFloat s1) = Ok c1 -> ceil_mul ratio (PFloat s2) = Ok c2 ->
  (c1 <= c2)%Z.
Proof.
  intros Hr Hs H1 H2.
  apply ceil_mul_float_inv in H1; [|intros; discriminate].
  apply ceil_mul_float_inv in H2; [|intros; discriminate].
  destruct H1 as (Fx & _ & ->). destruct H2 as (_ & _ & ->).
  pose proof (py_le_value (PInt 0) ratio eq_refl Fx Hr) as Hv.
  assert (Hv' : 0 <= to_float_value ratio).
  { destruct ratio as [r|x]; simpl in *; [|exact Hv].
    rewrite <- (round_val_zero 0), <- (RN_nonneg 0) by lra.
    apply RN_mono. exact Hv. }
  simpl. apply Qceiling_resp_le, RN_mono.
  rewrite !(Qmult_comm (to_float_value ratio)).
  apply Qmult_le_compat_r; assumption.
Qed.

(** Value of [g / 1000] when it is finite. *)
Lemma truediv_1000_inv (g : pynum) (q : spec_float) :
  py_truediv g (PInt 1000) = Ok q -> is_finite q = true ->
  py_finite g = true /\ SF2Q q == RN (py_value g / 1000).
Proof.
  intros H Hf. destruct g as [z|x].
  - split; [reflexivity|]. simpl in H.
    set (r := SFround _ _) in H.
    assert (E : q = r) by (destruct r; inversion H; reflexivity).
    subst q. unfold r in *. apply SF2Q_SFround; [| |exact Hf].
    + apply Qle_shift_div_l; [reflexivity|]. rewrite Qmult_0_l.
      change 0 with (inject_Z 0). rewrite <- Zle_Qle. lia.
    + simpl. change (inject_Z 1000) with 1000.
      destruct (Z.ltb_spec z 0); simpl.
      * replace (Z.abs z) with (- z)%Z by lia. rewrite inject_Z_opp. field.
      * replace (Z.abs z) with z by lia. reflexivity.
  - unfold py_truediv in H. simpl in H.
    change (py_float_of_int 1000) with (Ok (S754_finite false 8796093022208000 (-43))) in H.
    simpl in H. inversion H; subst q. clear H.
    assert (Fx : is_finite x = true) by (destruct x; try discriminate; reflexivity).
    split; [exact Fx|].
    rewrite SF2Q_div; [|exact Fx|reflexivity|reflexivity|exact Hf].
    apply RN_comp. simpl.
    assert (SF2Q (S754_finite false 8796093022208000 (-43)) == 1000) by reflexivity.
    rewrite H. reflexivity.
Qed.

End Binary64Facts.

(** ** Exact results of the operations the calculator performs *)

Section ExactResults.
Local Open Scope Q_scope.

Ltac push_inject_in H :=
  unfold Z.sub in H;
  repeat (rewrite inject_Z_plus in H || rewrite inject_Z_mult in H
          || rewrite inject_Z_opp in H).

Ltac push_inject :=
  unfold Z.sub;
  repeat (rewrite inject_Z_plus || rewrite inject_Z_mult
          || rewrite inject_Z_opp).

Lemma Qceiling_unique (x : Q) (c : Z) :
  inject_Z c - 1 < x -> x <= inject_Z c -> Qceiling x = c.
Proof.
  intros H1 H2.
  pose proof (Qceiling_lt x) as H3. pose proof (Qle_ceiling x) as H4.
  push_inject_in H3. change (inject_Z 1) with 1 in H3.
  assert (A : inject_Z c < inject_Z (Qceiling x) + 1) by lra.
  assert (B : inject_Z (Qceiling x) < inject_Z c + 1) by lra.
  change 1 with (inject_Z 1) in A, B. rewrite <- inject_Z_plus in A, B.
  rewrite <- Zlt_Qlt in A, B. lia.
Qed.

Lemma round_val_inject (c : Z) :
  (0 <= c < 2 ^ prec)%Z -> round_val (inject_Z c) == inject_Z c.
Proof.
  intros H. apply (round_val_exact _ c 0); [|exact H|unfold emin; lia].
  change (2 ^ 0) with 1. ring.
Qed.

Lemma pow2_ulp_le (a : Q) (E : Z) :
  0 < a -> a < 2 ^ (E + prec) -> (emin <= E)%Z -> 2 ^ ulp_exp a <= 2 ^ E.
Proof. intros. apply pow2_le, ulp_exp_le; assumption. Qed.

(** An [int] quotient that does not overflow. *)
Lemma truediv_int_ok (k d : Z) :
  (0 <= k)%Z -> (0 < d)%Z -> inject_Z k / inject_Z d < 2 ^ (emax - 1) ->
  exists q, py_truediv (PInt k) (PInt d) = Ok q /\ is_finite q = true /\
            SF2Q q == round_val (inject_Z k / inject_Z d).
Proof.
  intros Hk Hd Hlt.
  assert (Hdq : 0 < inject_Z d) by (change 0 with (inject_Z 0); rewrite <- Zlt_Qlt; lia).
  assert (Hkq : 0 <= inject_Z k) by (change 0 with (inject_Z 0); rewrite <- Zle_Qle; lia).
  assert (Ha : 0 <= inject_Z k / inject_Z d).
  { apply Qle_shift_div_l; [exact Hdq|]. rewrite Qmult_0_l. exact Hkq. }
  unfold py_truediv.
  destruct (Z.eqb_spec d 0); [lia|].
  replace (k <? 0)%Z with false by (symmetry; apply Z.ltb_ge; lia).
  replace (d <? 0)%Z with false by (symmetry; apply Z.ltb_ge; lia).
  replace (Z.abs k) with k by lia. replace (Z.abs d) with d by lia.
  cbn [xorb].
  pose proof (SFround_finite false _ Ha Hlt) as Hf.
  pose proof (SFround_mag false _ Ha Hf) as Hm.
  pose proof (SFround_sign false (inject_Z k / inject_Z d)) as Hs.
  set (r := SFround false (inject_Z k / inject_Z d)) in *.
  exists r. split; [destruct r; try discriminate; reflexivity|].
  split; [exact Hf|]. unfold SF2Q. rewrite Hs. exact Hm.
Qed.

(** [math.ceil(k / 100)] is the exact ceiling while the quotient stays
    below [2^47]. *)
Lemma ceil_truediv_100_exact (k : Z) :
  (0 < k <= 100 * 2 ^ 47)%Z ->
  (q <- py_truediv (PInt k) (PInt 100) ;; py_ceil (PFloat q))
  = Ok (Qceiling (k # 100)).
Proof.
  intros Hk.
  assert (Hkq : 0 < inject_Z k) by (change 0 with (inject_Z 0); rewrite <- Zlt_Qlt; lia).
  assert (Hk2 : inject_Z k <= 100 * 2 ^ 47).
  { change (100 * 2 ^ 47) with (inject_Z (100 * 2 ^ 47)). rewrite <- Zle_Qle. lia. }
  set (a := inject_Z k / inject_Z 100).
  assert (Ea : a == k # 100) by (unfold a; symmetry; apply Qmake_Qdiv).
  assert (Ha100 : a * 100 == inject_Z k) by (unfold a; change (inject_Z 100) with 100; field).
  assert (Hapos : 0 < a) by lra.
  destruct (truediv_int_ok k 100) as (q & E & Hf & Hv); [lia|lia| |].
  { fold a. apply Qle_lt_trans with (2 ^ 47); [lra|]. apply pow2_lt. unfold emax. lia. }
  fold a in Hv. rewrite E. cbn [bind].
  assert (Ec : py_ceil (PFloat q) = Ok (Qceiling (SF2Q q))).
  { destruct q; try discriminate; reflexivity. }
  rewrite Ec. f_equal.
  set (c := Qceiling (k # 100)).
  pose proof (Qceiling_lt (k # 100)) as Hc1. pose proof (Qle_ceiling (k # 100)) as Hc2.
  fold c in Hc1, Hc2. push_inject_in Hc1. change (inject_Z 1) with 1 in Hc1.
  rewrite <- Ea in Hc1, Hc2. clearbody c a.
  assert (Hc0 : (0 < c)%Z).
  { rewrite Zlt_Qlt. change (inject_Z 0) with 0. lra. }
  assert (Hcub : (c <= 2 ^ 47)%Z).
  { assert (inject_Z c < inject_Z (2 ^ 47 + 1)).
    { rewrite inject_Z_plus. change (inject_Z (2 ^ 47)) with (2 ^ 47).
      change (inject_Z 1) with 1. lra. }
    rewrite <- Zlt_Qlt in H. lia. }
  (* a is a multiple of 1/100 above c - 1 *)
  assert (Hgap : inject_Z c - 1 + (1 # 100) <= a).
  { assert (Hz : (100 * (c - 1) < k)%Z).
    { rewrite Zlt_Qlt. push_inject.
      change (inject_Z 100) with 100. change (inject_Z 1) with 1. lra. }
    assert (Hz' : (100 * (c - 1) + 1 <= k)%Z) by lia.
    rewrite Zle_Qle in Hz'. push_inject_in Hz'.
    change (inject_Z 100) with 100 in Hz'. change (inject_Z 1) with 1 in Hz'.
    lra. }
  apply Qceiling_unique; rewrite Hv.
  - destruct (Qlt_le_dec a (2 ^ 47)) as [Hlt|Hge].
    + destruct (round_val_error a) as [He _].
      pose proof (pow2_ulp_le a (-6) Hapos Hlt ltac:(unfold emin; lia)) as Hu.
      change (2 ^ (-6)) with (1 # 64) in Hu. lra.
    + assert (Hx : round_val a == a).
      { apply (round_val_exact a 1 47); [|unfold prec; lia|unfold emin; lia].
        change (inject_Z 1) with 1. lra. }
      lra.
  - rewrite <- (round_val_inject c) by (unfold prec; lia).
    apply round_val_mono; lra.
Qed.

Lemma of_Z_finite (z : Z) :
  (Z.abs z < 2 ^ (emax - 1))%Z ->
  py_float_of_int z = Ok (of_Z z) /\ is_finite (of_Z z) = true.
Proof.
  intros H.
  assert (Hf : is_finite (of_Z z) = true).
  { unfold of_Z. apply SFround_finite.
    - change 0 with (inject_Z 0). rewrite <- Zle_Qle. lia.
    - rewrite (pow2_inject (emax - 1)) by (unfold emax; lia).
      rewrite <- Zlt_Qlt. exact H. }
  split; [|exact Hf]. unfold py_float_of_int.
  destruct (of_Z z); try discriminate; reflexivity.
Qed.

Lemma of_Z_mag_exact (z : Z) :
  (Z.abs z < 2 ^ prec)%Z -> SFmag (of_Z z) == inject_Z (Z.abs z).
Proof.
  intros H. unfold of_Z.
  assert (Ha : 0 <= inject_Z (Z.abs z)).
  { change 0 with (inject_Z 0). rewrite <- Zle_Qle. lia. }
  rewrite SFround_mag; [apply round_val_inject; lia | exact Ha |].
  apply SFround_finite; [exact Ha|].
  rewrite (pow2_inject (emax - 1)) by (unfold emax; lia).
  rewrite <- Zlt_Qlt. unfold prec, emax in *.
  assert (2 ^ 53 < 2 ^ (1024 - 1))%Z by (apply Z.pow_lt_mono_r; lia). lia.
Qed.

Lemma mul_finite_eq (x y : spec_float) :
  is_finite x = true -> is_finite y = true ->
  mul x y = SFround (xorb (SFsign x) (SFsign y)) (SFmag x * SFmag y).
Proof. destruct x, y; try discriminate; reflexivity. Qed.

Lemma py_ceil_finite (x : spec_float) :
  is_finite x = true -> py_ceil (PFloat x) = Ok (Qceiling (SF2Q x)).
Proof. destruct x; try discriminate; reflexivity. Qed.

(** Rounding a magnitude that lies within half a unit in the last place of
    an integer gives that integer. *)
Lemma round_val_near_int (a : Q) (K : Z) :
  0 < a -> (ulp_exp a <= 0)%Z ->
  2 * inject_Z K - 2 ^ ulp_exp a < 2 * a ->
  2 * a < 2 * inject_Z K + 2 ^ ulp_exp a ->
  round_val a == inject_Z K.
Proof.
  intros Ha He H1 H2. rewrite round_val_eq.
  set (e := ulp_exp a) in *. clearbody e.
  pose proof (pow2_pos e) as Hp.
  assert (HK : inject_Z K / 2 ^ e == inject_Z (K * 2 ^ (- e))).
  { rewrite inject_Z_mult, <- pow2_inject by lia.
    rewrite Qpower_opp. reflexivity. }
  pose proof (Qdiv_pow2_mul a e) as Hd. pose proof (Qdiv_pow2_mul (inject_Z K) e) as Hd'.
  assert (Hr : Qrne (a / 2 ^ e) = (K * 2 ^ (- e))%Z).
  { rewrite HK in Hd'.
    set (x := a / 2 ^ e) in *. set (k := inject_Z (K * 2 ^ (- e))) in *.
    set (E := 2 ^ e) in *.
    apply Qrne_near; fold k; clearbody x k E.
    - apply Qnot_le_lt. intros C.
      assert (2 * x * E <= (2 * k - 1) * E) by (apply Qmult_le_compat_r; lra).
      lra.
    - apply Qnot_le_lt. intros C.
      assert ((2 * k + 1) * E <= 2 * x * E) by (apply Qmult_le_compat_r; lra).
      lra. }
  rewrite Hr, <- HK. exact Hd'.
Qed.

Lemma float_lit_085 : float_lit 0.85 = f085.
Proof. vm_compute. reflexivity. Qed.

Lemma SFmag_f085 : SFmag f085 == 7656119366529843 # 9007199254740992.
Proof. reflexivity. Qed.

(** [math.ceil(T * 0.85)] is the exact ceiling of [17 T / 20] while
    [17 |T| < 20 * 2^49]. *)
Lemma ceil_mul_085_exact (T : Z) :
  (Z.abs T <= 662294062848602)%Z ->
  ceil_mul (PInt T) (PFloat (float_lit 0.85))
  = Ok (Qceiling ((17 # 20) * inject_Z T)).
Proof.
  intros HT. rewrite float_lit_085.
  destruct (Z.eq_dec T 0) as [->|Hnz]; [vm_compute; reflexivity|].
  unfold ceil_mul, py_mul. cbn [py_to_float].
  destruct (of_Z_finite T) as [E Hf].
  { unfold emax. assert (2 ^ 50 < 2 ^ (1024 - 1))%Z by (apply Z.pow_lt_mono_r; lia). lia. }
  rewrite E. cbn [bind].
  rewrite (mul_finite_eq (of_Z T) f085 Hf eq_refl).
  unfold of_Z at 1. rewrite SFround_sign. cbn [SFsign f085]. rewrite xorb_false_r.
  pose proof (of_Z_mag_exact T ltac:(unfold prec; lia)) as Hm.
  pose proof SFmag_f085 as Hd.
  set (n := Z.abs T) in *.
  assert (Hn : (0 < n)%Z) by lia.
  set (a := SFmag (of_Z T) * SFmag f085) in *.
  set (N := inject_Z n) in *.
  assert (HN : 0 < N) by (unfold N; change 0 with (inject_Z 0); rewrite <- Zlt_Qlt; lia).
  assert (HN2 : N <= 662294062848602).
  { unfold N. change 662294062848602 with (inject_Z 662294062848602).
    rewrite <- Zle_Qle. exact HT. }
  assert (Ea : a == (17 # 20) * N - N * (1 # 45035996273704960)).
  { unfold a. rewrite Hm, Hd. fold N. field. }
  assert (Hapos : 0 < a) by lra.
  assert (Ha49 : a < 2 ^ 49).
  { change (2 ^ 49) with 562949953421312. lra. }
  assert (Hfin : is_finite (SFround (T <? 0)%Z a) = true).
  { apply SFround_finite; [lra|].
    apply Qlt_trans with (2 ^ 49); [exact Ha49 | apply pow2_lt; unfold emax; lia]. }
  rewrite (py_ceil_finite _ Hfin). f_equal.
  pose proof (SFround_mag (T <? 0)%Z a ltac:(lra) Hfin) as Hmag.
  unfold SF2Q. rewrite SFround_sign.
  pose proof (pow2_ulp_le a (-4) Hapos Ha49 ltac:(unfold emin; lia)) as Hu.
  change (2 ^ (-4)) with (1 # 16) in Hu.
  destruct (round_val_error a) as [Hlo Hhi].
  destruct (Z.ltb_spec T 0) as [Hneg|Hpos].
  - (* T < 0: the ceiling is the negated floor of 17 n / 20 *)
    set (K := (17 * n / 20)%Z).
    assert (HK : (20 * K <= 17 * n < 20 * K + 20)%Z).
    { unfold K. pose proof (Z.div_mod (17 * n) 20 ltac:(lia)).
      pose proof (Z.mod_pos_bound (17 * n) 20 ltac:(lia)). lia. }
    assert (HTn : inject_Z T == - N).
    { unfold N. rewrite <- inject_Z_opp. f_equiv. lia. }
    assert (HK0 : (0 <= K)%Z) by (unfold K; apply Z.div_pos; lia).
    assert (HKub : (K < 2 ^ 49)%Z) by lia.
    assert (HKq1 : 20 * inject_Z K <= 17 * N).
    { unfold N. change 20 with (inject_Z 20). change 17 with (inject_Z 17).
      rewrite <- !inject_Z_mult, <- Zle_Qle. lia. }
    assert (HKq2 : 17 * N <= 20 * inject_Z K + 19).
    { unfold N. change 20 with (inject_Z 20). change 17 with (inject_Z 17).
      change 19 with (inject_Z 19).
      rewrite <- !inject_Z_mult, <- inject_Z_plus, <- Zle_Qle. lia. }
    replace (Qceiling ((17 # 20) * inject_Z T)) with (- K)%Z.
    2:{ symmetry. apply Qceiling_unique; rewrite HTn, inject_Z_opp.
        - assert (C : (17 * n < 20 * K + 20)%Z) by lia.
          rewrite Zlt_Qlt in C. push_inject_in C. fold N in C.
          change (inject_Z 17) with 17 in C. change (inject_Z 20) with 20 in C.
          clearbody K N. lra.
        - clearbody K N. lra. }
    apply Qceiling_unique; rewrite Hmag, inject_Z_opp.
    + clearbody K N a. lra.
    + (* round_val a >= K *)
      assert (C : (20 * K = 17 * n \/ 20 * K + 1 <= 17 * n)%Z) by lia.
      destruct C as [C|C].
      * assert (Cq : 20 * inject_Z K == 17 * N).
        { unfold N. change 20 with (inject_Z 20). change 17 with (inject_Z 17).
          rewrite <- !inject_Z_mult. f_equiv. exact C. }
        pose proof (ulp_exp_upper a Hapos) as Hup.
        rewrite pow2_add in Hup. change (2 ^ prec) with 9007199254740992 in Hup.
        pose proof (pow2_pos (ulp_exp a)) as Hp.
        assert (Hx : round_val a == inject_Z K).
        { apply round_val_near_int; [exact Hapos | | |].
          - apply ulp_exp_le; [exact Hapos | | unfold emin; lia].
            apply Qlt_trans with (2 ^ 49); [exact Ha49 | apply pow2_lt; unfold prec; lia].
          - set (U := 2 ^ ulp_exp a) in *. clearbody U K N a. lra.
          - set (U := 2 ^ ulp_exp a) in *. clearbody U K N a. lra. }
        rewrite Hx. lra.
      * assert (Cq : 20 * inject_Z K + 1 <= 17 * N).
        { unfold N. change 20 with (inject_Z 20). change 17 with (inject_Z 17).
          change 1 with (inject_Z 1).
          rewrite <- !inject_Z_mult, <- inject_Z_plus, <- Zle_Qle. exact C. }
        assert (Hge : inject_Z K <= a) by (clearbody K N a; lra).
        pose proof (round_val_mono (inject_Z K) a) as Hmono.
        rewrite round_val_inject in Hmono by (unfold prec; lia).
        assert (0 <= inject_Z K) by (change 0 with (inject_Z 0); rewrite <- Zle_Qle; lia).
        specialize (Hmono H Hge). lra.
  - (* T > 0 *)
    assert (HTn : inject_Z T == N) by (unfold N; f_equiv; lia).
    set (c := Qceiling ((17 # 20) * inject_Z T)).
    pose proof (Qceiling_lt ((17 # 20) * inject_Z T)) as Hc1.
    pose proof (Qle_ceiling ((17 # 20) * inject_Z T)) as Hc2.
    fold c in Hc1, Hc2. push_inject_in Hc1. change (inject_Z 1) with 1 in Hc1.
    rewrite HTn in Hc1, Hc2.
    assert (Hc0 : (0 < c)%Z).
    { rewrite Zlt_Qlt. change (inject_Z 0) with 0. clearbody c N a. lra. }
    assert (Hcub : (c <= 2 ^ 49)%Z).
    { assert (C : inject_Z c < inject_Z (2 ^ 49 + 1)).
      { rewrite inject_Z_plus. change (inject_Z (2 ^ 49)) with 562949953421312.
        change (inject_Z 1) with 1. clearbody c N a. lra. }
      rewrite <- Zlt_Qlt in C. lia. }
    (* 17 n is an integer above 20 (c - 1) *)
    assert (Hgap : 20 * (inject_Z c - 1) + 1 <= 17 * N).
    { assert (Hz : (20 * (c - 1) < 17 * n)%Z).
      { rewrite Zlt_Qlt. push_inject. fold N.
        change (inject_Z 20) with 20. change (inject_Z 17) with 17.
        change (inject_Z 1) with 1. clearbody c N a. lra. }
      assert (Hz' : (20 * (c - 1) + 1 <= 17 * n)%Z) by lia.
      rewrite Zle_Qle in Hz'. push_inject_in Hz'. fold N in Hz'.
      change (inject_Z 20) with 20 in Hz'. change (inject_Z 17) with 17 in Hz'.
      change (inject_Z 1) with 1 in Hz'. clearbody c N a. lra. }
    apply Qceiling_unique; rewrite Hmag.
    + clearbody c N a. lra.
    + rewrite <- (round_val_inject c) by (unfold prec; lia).
      apply round_val_mono; clearbody c N a; lra.
Qed.

End ExactResults.

(** ** The calculator *)

Lemma bind_ok_inv {A B : Type} (r : result A) (k : A -> result B) (b : B) :
  bind r k = Ok b -> exists a, r = Ok a /\ k a = Ok b.
Proof.
  destruct r as [a|e]; cbn [bind]; intros H; [|discriminate].
  exists a. split; [reflexivity | exact H].
Qed.

Lemma bind_raise_inv {A B : Type} (r : result A) (k : A -> result B)
    (e : pyexn) :
  bind r k = Raise e ->
  r = Raise e \/ exists a, r = Ok a /\ k a = Raise e.
Proof.
  destruct r as [a|e']; cbn [bind]; intros H.
  - right. exists a. split; [reflexivity | exact H].
  - left. congruence.
Qed.

(** A conversion that is made gives the digits. *)
Lemma py_str_int_inv (z : Z) (s : string) :
  py_str_int z = Ok s -> s = str_int z.
Proof. unfold py_str_int. destruct (_ <? _)%Z; congruence. Qed.

Lemma py_str_num_inv (a : pynum) (s : string) :
  py_str_num a = Ok s -> s = str_num a.
Proof.
  destruct a as [z|x]; cbn [py_str_num str_num];
    [apply py_str_int_inv | congruence].
Qed.

(** The digits of a number below [10^k] are at most [k]. *)
Lemma digits_pos_fuel_length (fuel : nat) :
  forall (n : Z) (acc : string) (k : Z),
    0 <= n < 10 ^ k -> 1 <= k ->
    Z.of_nat (String.length (digits_pos_fuel fuel n acc))
    <= k + Z.of_nat (String.length acc).
Proof.
  induction fuel as [|fuel IH]; intros n acc k Hn Hk; cbn [digits_pos_fuel].
  - lia.
  - destruct (Z.ltb_spec n 10) as [L|G].
    + cbn [String.length]. lia.
    + assert (Hk2 : 2 <= k).
      { destruct (Z.eq_dec k 1) as [->|]; [|lia].
        change (10 ^ 1) with 10 in Hn. lia. }
      specialize (IH (n / 10) (String (digit_char (n mod 10)) acc) (k - 1)).
      cbn [String.length] in IH.
      assert (Hd : 0 <= n / 10 < 10 ^ (k - 1)).
      { split; [apply Z.div_pos; lia|].
        apply Z.div_lt_upper_bound; [lia|].
        rewrite <- Z.pow_succ_r by lia.
        replace (Z.succ (k - 1)) with k by lia. lia. }
      specialize (IH Hd ltac:(lia)). lia.
Qed.

Lemma decimal_digits_le (z k : Z) :
  Z.abs z < 10 ^ k -> 1 <= k -> decimal_digits z <= k.
Proof.
  intros H Hk. unfold decimal_digits, digits_of_nonneg.
  pose proof (digits_pos_fuel_length
                (S (Z.to_nat (Z.log2 (Z.abs z)))) (Z.abs z) "" k
                ltac:(lia) Hk) as L.
  cbn [String.length] in L. lia.
Qed.

(** An [int] of at most [int_max_str_digits] digits is converted. *)
Lemma py_str_int_below (z : Z) :
  Z.abs z < 10 ^ int_max_str_digits -> py_str_int z = Ok (str_int z).
Proof.
  intros H. unfold py_str_int.
  pose proof (decimal_digits_le z int_max_str_digits H
                ltac:(unfold int_max_str_digits; lia)) as L.
  destruct (Z.ltb_spec int_max_str_digits (decimal_digits z));
    [lia | reflexivity].
Qed.

(** A conversion that is refused raises [ValueError], for an [int] of
    more than [int_max_str_digits] digits. *)
Lemma py_str_int_raise (z : Z) (e : pyexn) :
  py_str_int z = Raise e ->
  e = ValueError /\ (10 ^ int_max_str_digits <= Z.abs z)%Z.
Proof.
  intros H.
  destruct (Z.lt_ge_cases (Z.abs z) (10 ^ int_max_str_digits)) as [L|G].
  - rewrite (py_str_int_below z L) in H. discriminate.
  - split; [|exact G]. unfold py_str_int in H.
    destruct (_ <? _); congruence.
Qed.

Lemma py_str_num_raise (a : pynum) (e : pyexn) :
  py_str_num a = Raise e ->
  e = ValueError /\
  exists z, a = PInt z /\ (10 ^ int_max_str_digits <= Z.abs z)%Z.
Proof.
  destruct a as [z|x]; cbn [py_str_num]; intros H; [|discriminate].
  destruct (py_str_int_raise z e H) as [E B].
  split; [exact E | exists z; split; [reflexivity | exact B]].
Qed.

(** The digits of a number from [10^k] on are more than [k]. *)
Lemma digits_pos_fuel_length_ge (fuel : nat) :
  forall (n : Z) (acc : string) (k : Z),
    0 <= k -> 10 ^ k <= n < 2 ^ Z.of_nat fuel ->
    k + 1 + Z.of_nat (String.length acc)
    <= Z.of_nat (String.length (digits_pos_fuel fuel n acc)).
Proof.
  induction fuel as [|fuel IH]; intros n acc k Hk Hn; cbn [digits_pos_fuel].
  - pose proof (Z.pow_pos_nonneg 10 k ltac:(lia) Hk).
    change (2 ^ Z.of_nat 0) with 1 in Hn. lia.
  - assert (P : 0 < 2 ^ Z.of_nat fuel) by (apply Z.pow_pos_nonneg; lia).
    rewrite Nat2Z.inj_succ, Z.pow_succ_r in Hn by lia.
    destruct (Z.ltb_spec n 10) as [L|G].
    + cbn [String.length].
      destruct (Z.eq_dec k 0) as [->|Nk]; [lia|].
      pose proof (Z.pow_le_mono_r 10 1 k ltac:(lia) ltac:(lia)) as M.
      change (10 ^ 1) with 10 in M. lia.
    + assert (Hf : n / 10 < 2 ^ Z.of_nat fuel).
      { apply Z.div_lt_upper_bound; lia. }
      destruct (Z.eq_dec k 0) as [->|Nk].
      * specialize (IH (n / 10) (String (digit_char (n mod 10)) acc) 0
                      ltac:(lia)).
        cbn [String.length] in IH.
        assert (Hd : 10 ^ 0 <= n / 10 < 2 ^ Z.of_nat fuel).
        { split; [|exact Hf]. change (10 ^ 0) with 1.
          apply Z.div_le_lower_bound; lia. }
        specialize (IH Hd). lia.
      * specialize (IH (n / 10) (String (digit_char (n mod 10)) acc) (k - 1)
                      ltac:(lia)).
        cbn [String.length] in IH.
        assert (Hd : 10 ^ (k - 1) <= n / 10 < 2 ^ Z.of_nat fuel).
        { split; [|exact Hf].
          apply Z.div_le_lower_bound; [lia|].
          rewrite <- Z.pow_succ_r by lia.
          replace (Z.succ (k - 1)) with k by lia. lia. }
        specialize (IH Hd). lia.
Qed.

Lemma decimal_digits_gt (z k : Z) :
  0 <= k -> 10 ^ k <= Z.abs z -> k < decimal_digits z.
Proof.
  intros Hk H. unfold decimal_digits, digits_of_nonneg.
  pose proof (Z.pow_pos_nonneg 10 k ltac:(lia) Hk) as P.
  pose proof (Z.log2_spec (Z.abs z) ltac:(lia)) as [_ U].
  pose proof (Z.log2_nonneg (Z.abs z)) as N.
  pose proof (digits_pos_fuel_length_ge
                (S (Z.to_nat (Z.log2 (Z.abs z)))) (Z.abs z) "" k Hk) as L.
  rewrite Nat2Z.inj_succ, Z2Nat.id in L by exact N.
  cbn [String.length] in L. specialize (L (conj H U)). lia.
Qed.

(** An [int] of more than [int_max_str_digits] digits is refused. *)
Lemma py_str_int_above (z : Z) :
  10 ^ int_max_str_digits <= Z.abs z -> py_str_int z = Raise ValueError.
Proof.
  intros H. unfold py_str_int.
  pose proof (decimal_digits_gt z int_max_str_digits
                ltac:(unfold int_max_str_digits; lia) H) as L.
  destruct (Z.ltb_spec int_max_str_digits (decimal_digits z));
    [reflexivity | lia].
Qed.

(** The limit of the conversion, on the number itself. *)
Lemma py_str_int_limit (z : Z) :
  py_str_int z = if Z.abs z <? 10 ^ int_max_str_digits then Ok (str_int z)
                 else Raise ValueError.
Proof.
  destruct (Z.ltb_spec (Z.abs z) (10 ^ int_max_str_digits)) as [L|G];
    [apply py_str_int_below | apply py_str_int_above]; assumption.
Qed.

(** [calculate_parking] as the composition of its steps: the lookup, the
    base requirement, the conversions of the calculation line, the ADA
    and van accessible counts, their conversions and that of the ratio,
    and the record. *)
Lemma calculate_parking_eq (u : string) (g : pynum) (un se em : Z)
    (cr : option pynum) :
  exists info,
    lookup (resolve_use_type u) PARKING_RATIOS = Some info /\
    calculate_parking u g un se em cr =
    (required <- base_requirement (select_branch (ri_unit info))
                   (effective_ratio info cr) g un se ;;
     s_calc <- calculation_strings (select_branch (ri_unit info))
                 (effective_ratio info cr) un se required ;;
     ada <- calculate_ada_spaces required ;;
     van <- calculate_van_accessible ada ;;
     s_ada <- py_str_int ada ;;
     s_van <- py_str_int van ;;
     s_ratio <- py_str_num (effective_ratio info cr) ;;
     Ok {| use_type := resolve_use_type u;
           gross_sf := g;
           units := Some un;
           base_ratio := str_num (effective_ratio info cr) ++ " per "
                           ++ ri_unit info;
           required_spaces := required;
           ada_spaces := ada;
           total_spaces := required;
           notes := notes_of u info
                      (calculation_note (select_branch (ri_unit info))
                         (effective_ratio info cr) (sf_units_of g) un se
                         required)
                      ada van |}).
Proof.
  assert (Hl : exists info,
            lookup (resolve_use_type u) PARKING_RATIOS = Some info).
  { unfold resolve_use_type, in_dict.
    destruct (lookup u PARKING_RATIOS) as [i|] eqn:L;
      [exists i; exact L | eexists; reflexivity]. }
  destruct Hl as [info Hl]. exists info. split; [exact Hl|].
  unfold calculate_parking, notes_of, sf_units_of, ada_note.
  fold (unknown_use_note u).
  unfold resolve_use_type in *.
  destruct (in_dict u PARKING_RATIOS) eqn:E; cbn [negb];
    unfold getitem; rewrite Hl; cbn [bind];
    fold (effective_ratio info cr);
    set (ratio := effective_ratio info cr);
    destruct (select_branch (ri_unit info));
    cbn [base_requirement calculation_note calculation_strings];
    repeat match goal with
      | |- context [bind ?c _] =>
          lazymatch c with
          | context [bind _ _] => fail
          | Ok _ => fail
          | Raise _ => fail
          | _ =>
              let v := fresh "v" in
              let Ev := fresh "Ev" in
              destruct c as [v|] eqn:Ev;
              [ try (apply py_str_num_inv in Ev; subst v);
                try (apply py_str_int_inv in Ev; subst v) | ];
              cbn [bind]
          end
      end;
    reflexivity.
Qed.

Lemma calculate_parking_inv (u : string) (g : pynum) (un se em : Z)
    (cr : option pynum) (r : ParkingRequirement) :
  calculate_parking u g un se em cr = Ok r ->
  exists info ada van,
    lookup (resolve_use_type u) PARKING_RATIOS = Some info /\
    base_requirement (select_branch (ri_unit info)) (effective_ratio info cr)
      g un se = Ok (required_spaces r) /\
    calculate_ada_spaces (required_spaces r) = Ok ada /\
    calculate_van_accessible ada = Ok van /\
    use_type r = resolve_use_type u /\
    gross_sf r = g /\ units r = Some un /\
    ada_spaces r = ada /\ total_spaces r = required_spaces r.
Proof.
  intros H.
  destruct (calculate_parking_eq u g un se em cr) as (info & Hl & E).
  rewrite E in H. clear E.
  apply bind_ok_inv in H. destruct H as (required & Hb & H).
  apply bind_ok_inv in H. destruct H as (s_calc & _ & H).
  apply bind_ok_inv in H. destruct H as (ada & Ha & H).
  apply bind_ok_inv in H. destruct H as (van & Hv & H).
  apply bind_ok_inv in H. destruct H as (s_ada & _ & H).
  apply bind_ok_inv in H. destruct H as (s_van & _ & H).
  apply bind_ok_inv in H. destruct H as (s_ratio & _ & H).
  inversion H; subst r; clear H.
  cbn [use_type gross_sf units required_spaces ada_spaces total_spaces].
  exists info, ada, van. repeat (split; [assumption || reflexivity|]).
  reflexivity.
Qed.


Ltac split_leb :=
  repeat match goal with
    | |- context [?a <=? ?b] => destruct (Z.leb_spec a b); try lia
    | H : context [?a <=? ?b] |- _ => destruct (Z.leb_spec a b); try lia
    end.

Lemma ada_scan_over_1000 (n : Z) :
  1000 < n -> ada_scan ADA_REQUIREMENTS n = None.
Proof. intros H. unfold ADA_REQUIREMENTS, ada_scan. split_leb. reflexivity. Qed.

Lemma ada_scan_upto_1000 (n : Z) :
  n <= 1000 -> exists r, ada_scan ADA_REQUIREMENTS n = Some r /\ 1 <= r <= 9.
Proof.
  intros H. unfold ADA_REQUIREMENTS, ada_scan.
  split_leb; eexists; (split; [reflexivity | lia]).
Qed.

Lemma calculate_ada_spaces_over_1000 (n : Z) :
  1000 < n ->
  calculate_ada_spaces n =
  (q <- py_truediv (PInt (n - 1000)) (PInt 100) ;;
   c <- py_ceil (PFloat q) ;; Ok (20 + c)).
Proof.
  intros H. unfold calculate_ada_spaces.
  rewrite (ada_scan_over_1000 n H).
  destruct (Z.leb_spec n 0); [lia | reflexivity].
Qed.

Lemma truediv_pos_inv (k d : Z) (q : spec_float) :
  0 < k -> 0 < d -> py_truediv (PInt k) (PInt d) = Ok q ->
  is_finite q = true /\
  (SF2Q q == round_val (inject_Z k / inject_Z d))%Q.
Proof.
  intros Hk Hd. unfold py_truediv.
  destruct (Z.eqb_spec d 0); [lia|].
  replace (k <? 0) with false by (symmetry; apply Z.ltb_ge; lia).
  replace (d <? 0) with false by (symmetry; apply Z.ltb_ge; lia).
  replace (Z.abs k) with k by lia. replace (Z.abs d) with d by lia.
  cbn [xorb].
  assert (Ha : (0 <= inject_Z k / inject_Z d)%Q).
  { apply Qle_shift_div_l.
    - change 0%Q with (inject_Z 0). rewrite <- Zlt_Qlt. lia.
    - rewrite Qmult_0_l. change 0%Q with (inject_Z 0). rewrite <- Zle_Qle. lia. }
  pose proof (SFround_sign false (inject_Z k / inject_Z d)) as Hs.
  pose proof (SFround_not_nan false (inject_Z k / inject_Z d)) as Hn.
  pose proof (SFround_mag false (inject_Z k / inject_Z d) Ha) as Hm.
  set (r := SFround false (inject_Z k / inject_Z d)) in *.
  intros H.
  assert (E : q = r /\ is_finite r = true).
  { destruct r; inversion H; try contradiction; auto. }
  destruct E as [-> Hf]. split; [exact Hf|].
  unfold SF2Q. rewrite Hs. apply Hm, Hf.
Qed.

(** What [calculate_ada_spaces] can return. *)
Lemma calculate_ada_spaces_range (n a : Z) :
  calculate_ada_spaces n = Ok a ->
  (n <= 0 -> a = 0) /\ (1 <= n <= 1000 -> 1 <= a <= 9) /\ (1000 < n -> 21 <= a).
Proof.
  intros H.
  destruct (Z.leb_spec n 0) as [H0|H0].
  { unfold calculate_ada_spaces in H.
    destruct (Z.leb_spec n 0); [|lia]. inversion H. (split; [|split]; intros; lia). }
  destruct (Z.leb_spec n 1000) as [H1|H1].
  { unfold calculate_ada_spaces in H.
    destruct (Z.leb_spec n 0); [lia|].
    destruct (ada_scan_upto_1000 n H1) as (r & E & Hr). rewrite E in H.
    inversion H. (split; [|split]; intros; lia). }
  rewrite (calculate_ada_spaces_over_1000 n H1) in H.
  destruct (py_truediv _ _) as [q|] eqn:Eq; [|discriminate]. cbn [bind] in H.
  destruct (py_ceil _) as [c|] eqn:Ec; [|discriminate]. cbn [bind] in H.
  assert (Ea : a = 20 + c) by congruence. subst a. clear H.
  apply truediv_pos_inv in Eq; [|lia|lia]. destruct Eq as [Hf Hv].
  rewrite (py_ceil_finite q Hf) in Ec.
  assert (Ec' : c = Qceiling (SF2Q q)) by congruence. subst c. clear Ec.
  assert (Hc : (0 < Qceiling (SF2Q q))).
  { rewrite Zlt_Qlt. change (inject_Z 0) with 0%Q.
    apply Qlt_le_trans with (SF2Q q); [|apply Qle_ceiling].
    rewrite Hv.
    apply Qlt_le_trans with (round_val (1 # 128)).
    - rewrite (round_val_exact (1 # 128) 1 (-7)); [reflexivity|reflexivity| |];
        [unfold prec; lia | unfold emin; lia].
    - apply round_val_mono; [discriminate|].
      apply Qle_shift_div_l; [reflexivity|].
      change (inject_Z 100) with 100%Q.
      assert (1 <= inject_Z (n - 1000))%Q.
      { change 1%Q with (inject_Z 1). rewrite <- Zle_Qle. lia. }
      lra. }
  split; [|split]; intros; lia.
Qed.

Lemma monotone_to_500 (m n a b : Z) :
  m <= n <= 500 ->
  calculate_ada_spaces m = Ok a -> calculate_ada_spaces n = Ok b -> a <= b.
Proof.
  intros H. unfold calculate_ada_spaces, ADA_REQUIREMENTS, ada_scan.
  split_leb; intros Ha Hb; inversion Ha; inversion Hb; lia.
Qed.

Lemma calculate_ada_spaces_exact (n : Z) :
  1000 < n <= 14073748835533800 ->
  calculate_ada_spaces n = Ok (20 + Qceiling ((n - 1000) # 100)).
Proof.
  intros H. rewrite (calculate_ada_spaces_over_1000 n) by lia.
  pose proof (ceil_truediv_100_exact (n - 1000) ltac:(lia)) as E.
  destruct (py_truediv _ _) as [q|]; [|discriminate]. cbn [bind] in *.
  rewrite E. reflexivity.
Qed.



Lemma sum_required_app (xs ys : list ParkingRequirement) :
  sum_required (xs ++ ys) = sum_required xs + sum_required ys.
Proof.
  unfold sum_required. induction xs as [|x xs IH]; simpl; [reflexivity|].
  rewrite IH. ring.
Qed.

(** The loop returns the accumulated results followed by one result per
    element, and adds their requirements to the running total. *)
Lemma mixed_use_loop_spec (uses : list use_dict) :
  forall (results : list ParkingRequirement) (total_required : Z),
    mixed_use_loop uses results total_required =
    (rs <- calculate_each uses ;;
     Ok ((results ++ rs)%list, total_required + sum_required rs)).
Proof.
  induction uses as [|use rest IH]; intros results total_required; simpl.
  - rewrite app_nil_r, Z.add_0_r. reflexivity.
  - destruct (calculate_use use) as [r|e]; [|reflexivity]. cbn [bind].
    rewrite IH. destruct (calculate_each rest) as [rs|e]; [|reflexivity].
    cbn [bind]. unfold append. rewrite <- app_assoc. simpl.
    f_equal. f_equal. unfold sum_required. simpl. ring.
Qed.

Lemma ceil_mul_085 (T : Z) :
  Z.abs T < 662294062848613 ->
  ceil_mul (PInt T) (PFloat (float_lit 0.85))
  = Ok (Qceiling (0.85 * inject_Z T)).
Proof.
  intros H.
  assert (E : Qceiling (0.85 * inject_Z T) = Qceiling ((17 # 20) * inject_Z T)).
  { apply Qceiling_comp. apply Qmult_comp; reflexivity. }
  rewrite E.
  assert (C : Z.abs T <= 662294062848602 \/
              (662294062848603 <= T <= 662294062848612) \/
              (-662294062848612 <= T <= -662294062848603)) by lia.
  destruct C as [C|[C|C]]; [apply ceil_mul_085_exact, C | |].
  - assert (D : T = 662294062848603 \/ T = 662294062848604 \/
                T = 662294062848605 \/ T = 662294062848606 \/
                T = 662294062848607 \/ T = 662294062848608 \/
                T = 662294062848609 \/ T = 662294062848610 \/
                T = 662294062848611 \/ T = 662294062848612) by lia.
    repeat (destruct D as [->|D]; [vm_compute; reflexivity|]).
    subst T. vm_compute. reflexivity.
  - assert (D : T = -662294062848603 \/ T = -662294062848604 \/
                T = -662294062848605 \/ T = -662294062848606 \/
                T = -662294062848607 \/ T = -662294062848608 \/
                T = -662294062848609 \/ T = -662294062848610 \/
                T = -662294062848611 \/ T = -662294062848612) by lia.
    repeat (destruct D as [->|D]; [vm_compute; reflexivity|]).
    subst T. vm_compute. reflexivity.
Qed.

Lemma calculate_ada_spaces_returns (n : Z) :
  n <= 14073748835533800 -> exists a, calculate_ada_spaces n = Ok a.
Proof.
  intros H. destruct (Z.leb_spec n 1000) as [H1|H1].
  - destruct (ada_scan_upto_1000 n H1) as (r & E & _).
    unfold calculate_ada_spaces. rewrite E.
    destruct (n <=? 0); eexists; reflexivity.
  - eexists. apply calculate_ada_spaces_exact. lia.
Qed.

Lemma lookup_In {V : Type} (k : string) (d : list (string * V)) (v : V) :
  lookup k d = Some v -> In (k, v) d.
Proof.
  induction d as [|[k' v'] rest IH]; simpl; [discriminate|].
  destruct (String.eqb_spec k k') as [->|Hne]; intros H.
  - inversion H. left. reflexivity.
  - right. apply IH, H.
Qed.

Lemma getitem_office_general :
  getitem PARKING_RATIOS "office_general" = Ok office_general_info.
Proof. reflexivity. Qed.

Lemma in_dict_office_general : in_dict "office_general" PARKING_RATIOS = true.
Proof. reflexivity. Qed.

Lemma select_branch_office_general :
  select_branch (ri_unit office_general_info) = ThousandSF.
Proof. reflexivity. Qed.

(** An unknown use type is computed as ["office_general"], with the
    warning as first note. *)
Lemma calculate_parking_unknown (u : string) (g : pynum) (un se em : Z)
    (cr : option pynum) :
  in_dict u PARKING_RATIOS = false ->
  calculate_parking u g un se em cr =
  (r <- calculate_parking "office_general" g un se em cr ;;
   Ok (with_first_note (unknown_use_note u) r)).
Proof.
  intros H. unfold calculate_parking.
  rewrite H, in_dict_office_general. cbn [negb].
  rewrite getitem_office_general. cbn [bind].
  rewrite select_branch_office_general.
  destruct (py_truediv g (PInt 1000)) as [sf|]; [|reflexivity]. cbn [bind].
  destruct (ceil_mul _ _) as [required|]; [|reflexivity]. cbn [bind].
  destruct (py_str_num _) as [s_ratio|]; [|reflexivity]. cbn [bind].
  destruct (py_str_int required) as [s_required|]; [|reflexivity]. cbn [bind].
  destruct (calculate_ada_spaces required) as [ada|]; [|reflexivity]. cbn [bind].
  destruct (calculate_van_accessible ada) as [van|]; [|reflexivity]. cbn [bind].
  destruct (py_str_int ada) as [s_ada|]; [|reflexivity]. cbn [bind].
  destruct (py_str_int van) as [s_van|]; reflexivity.
Qed.

(** The arithmetic never raises [KeyError]. *)
Lemma py_to_float_no_KeyError (a : pynum) : py_to_float a <> Raise KeyError.
Proof.
  destruct a as [z|x]; simpl; [|discriminate].
  unfold py_float_of_int. destruct (of_Z z); discriminate.
Qed.

Lemma bind_no_KeyError {A B : Type} (r : result A) (k : A -> result B) :
  r <> Raise KeyError -> (forall a, k a <> Raise KeyError) ->
  bind r k <> Raise KeyError.
Proof.
  destruct r as [a|e]; simpl; intros H1 H2; [apply H2|].
  intros E. apply H1. congruence.
Qed.

Lemma py_ceil_no_KeyError (a : pynum) : py_ceil a <> Raise KeyError.
Proof. destruct a as [z|[]]; discriminate. Qed.

Lemma py_mul_no_KeyError (a b : pynum) : py_mul a b <> Raise KeyError.
Proof.
  destruct a, b; simpl; try discriminate;
    repeat (apply bind_no_KeyError;
            [first [apply py_to_float_no_KeyError
                   | apply (py_to_float_no_KeyError (PInt _))
                   | discriminate] | intros]);
    discriminate.
Qed.

Lemma ceil_mul_no_KeyError (a b : pynum) : ceil_mul a b <> Raise KeyError.
Proof.
  unfold ceil_mul. apply bind_no_KeyError;
    [apply py_mul_no_KeyError | intros; apply py_ceil_no_KeyError].
Qed.

Lemma py_truediv_no_KeyError (a b : pynum) : py_truediv a b <> Raise KeyError.
Proof.
  destruct a as [x|x], b as [y|y]; simpl.
  - destruct (y =? 0); [discriminate|]. destruct (SFround _ _); discriminate.
  - apply bind_no_KeyError; [apply (py_to_float_no_KeyError (PInt x))|].
    intros a. destruct (is_zero y); discriminate.
  - apply bind_no_KeyError; [apply (py_to_float_no_KeyError (PInt y))|].
    intros a. destruct (is_zero a); discriminate.
  - destruct (is_zero y); discriminate.
Qed.

Lemma calculate_ada_spaces_no_KeyError (n : Z) :
  calculate_ada_spaces n <> Raise KeyError.
Proof.
  unfold calculate_ada_spaces. destruct (n <=? 0); [discriminate|].
  destruct (ada_scan _ _); [discriminate|].
  apply bind_no_KeyError; [apply py_truediv_no_KeyError|]. intros q.
  apply bind_no_KeyError; [apply py_ceil_no_KeyError|]. discriminate.
Qed.

Lemma calculate_van_accessible_no_KeyError (n : Z) :
  calculate_van_accessible n <> Raise KeyError.
Proof.
  unfold calculate_van_accessible.
  apply bind_no_KeyError; [apply py_truediv_no_KeyError|]. intros q.
  apply bind_no_KeyError; [apply py_ceil_no_KeyError|]. discriminate.
Qed.

Lemma in_dict_lookup {V : Type} (k : string) (d : list (string * V)) :
  in_dict k d = true -> exists v, lookup k d = Some v.
Proof.
  unfold in_dict. destruct (lookup k d) as [v|]; [eauto | discriminate].
Qed.

Lemma py_str_int_no_KeyError (z : Z) : py_str_int z <> Raise KeyError.
Proof. unfold py_str_int. destruct (_ <? _); discriminate. Qed.

Lemma py_str_num_no_KeyError (a : pynum) : py_str_num a <> Raise KeyError.
Proof. destruct a; [apply py_str_int_no_KeyError | discriminate]. Qed.

Ltac no_KeyError :=
  lazymatch goal with
  | |- bind _ _ <> Raise KeyError =>
      apply bind_no_KeyError;
      [no_KeyError | let a := fresh "a" in intros a; no_KeyError]
  | |- (let '(_, _) := ?a in _) <> Raise KeyError =>
      destruct a; no_KeyError
  | |- _ =>
      first [ apply ceil_mul_no_KeyError | apply py_truediv_no_KeyError
            | apply py_str_num_no_KeyError | apply py_str_int_no_KeyError
            | apply calculate_ada_spaces_no_KeyError
            | apply calculate_van_accessible_no_KeyError
            | discriminate ]
  end.

(** The lookup after the substitution always succeeds. *)
Lemma calculate_parking_no_KeyError (u : string) (g : pynum) (un se em : Z)
    (cr : option pynum) :
  calculate_parking u g un se em cr <> Raise KeyError.
Proof.
  unfold calculate_parking.
  destruct (in_dict u PARKING_RATIOS) eqn:E; cbn [negb].
  - destruct (in_dict_lookup _ _ E) as [info El]. unfold getitem. rewrite El.
    cbn [bind]. destruct (select_branch (ri_unit info)); no_KeyError.
  - rewrite getitem_office_general. cbn [bind].
    rewrite select_branch_office_general. no_KeyError.
Qed.

Section Returns.
Local Open Scope Q_scope.

Lemma round_val_le_pow2 (a : Q) (k : Z) :
  0 <= a -> a <= 2 ^ k -> (emin <= k)%Z -> round_val a <= 2 ^ k.
Proof.
  intros H0 H1 Hk.
  rewrite <- (round_val_exact (2 ^ k) 1 k); [apply round_val_mono; assumption | | |].
  - change (inject_Z 1) with 1. ring.
  - unfold prec. lia.
  - exact Hk.
Qed.

Lemma Qabs_SF2Q (x : spec_float) : Qabs (SF2Q x) == SFmag x.
Proof.
  pose proof (SFmag_nonneg x). unfold SF2Q. destruct (SFsign x).
  - rewrite Qabs_opp. apply Qabs_pos. assumption.
  - apply Qabs_pos. assumption.
Qed.

(** [g / 1000] returns for every finite [g] of magnitude up to [2^1000]. *)
Lemma truediv_1000_ok (g : pynum) :
  py_finite g = true -> Qabs (py_value g) <= 2 ^ 1000 ->
  exists sf, py_truediv g (PInt 1000) = Ok sf /\ is_finite sf = true /\
             SFmag sf <= 2 ^ 1000.
Proof.
  intros Hf Hb.
  assert (Hgen : forall (s : bool) (a d : Q), d == 1000 ->
            0 <= a -> a <= 2 ^ 1000 ->
            is_finite (SFround s (a / d)) = true /\
            SFmag (SFround s (a / d)) <= 2 ^ 1000).
  { intros s a d Hd Ha0 Ha1.
    assert (Hq0 : 0 <= a / d) by (apply Qle_shift_div_l; lra).
    assert (Hq1 : a / d <= 2 ^ 1000).
    { apply Qle_shift_div_r; [lra|].
      pose proof (pow2_pos 1000). set (P := 2 ^ 1000) in *. clearbody P.
      rewrite Hd. lra. }
    assert (Hfin : is_finite (SFround s (a / d)) = true).
    { apply SFround_finite; [exact Hq0|].
      eapply Qle_lt_trans; [exact Hq1|]. apply pow2_lt. unfold emax. lia. }
    split; [exact Hfin|]. rewrite (SFround_mag s _ Hq0 Hfin).
    apply round_val_le_pow2; [exact Hq0 | exact Hq1 | unfold emin; lia]. }
  destruct g as [z|x].
  - change (Qabs (py_value (PInt z))) with (inject_Z (Z.abs z)) in Hb.
    unfold py_truediv.
    change (1000 =? 0)%Z with false. cbv iota.
    change (inject_Z (Z.abs 1000)) with 1000.
    destruct (Hgen (xorb (z <? 0)%Z (1000 <? 0)%Z) (inject_Z (Z.abs z)) 1000)
      as [F M].
    { reflexivity. }
    { change 0 with (inject_Z 0). rewrite <- Zle_Qle. lia. }
    { exact Hb. }
    set (r := SFround _ _) in *. exists r.
    split; [destruct r; try discriminate; reflexivity|]. split; assumption.
  - change (py_value (PFloat x)) with (SF2Q x) in Hb.
    change (py_finite (PFloat x)) with (is_finite x) in Hf.
    rewrite Qabs_SF2Q in Hb.
    unfold py_truediv. cbn [py_to_float bind].
    change (py_float_of_int 1000)
      with (Ok (S754_finite false 8796093022208000 (-43))).
    cbn [bind is_zero].
    set (y := S754_finite false 8796093022208000 (-43)).
    assert (E : div x y = SFround (xorb (SFsign x) (SFsign y)) (SFmag x / SFmag y)).
    { destruct x; try discriminate; reflexivity. }
    exists (div x y). split; [reflexivity|]. rewrite E.
    assert (Hy : SFmag y == 1000) by reflexivity.
    destruct (Hgen (xorb (SFsign x) (SFsign y)) (SFmag x) (SFmag y) Hy
                (SFmag_nonneg x) Hb) as [F M].
    split; assumption.
Qed.

Lemma Qceiling_le_pow2 (x : Q) (k : Z) :
  (0 <= k)%Z -> x <= 2 ^ k -> (Qceiling x <= 2 ^ k)%Z.
Proof.
  intros Hk H. rewrite <- (Qceiling_Z (2 ^ k)).
  apply Qceiling_resp_le. rewrite <- (pow2_inject k Hk). exact H.
Qed.

Lemma SF2Q_le_SFmag (x : spec_float) : SF2Q x <= SFmag x.
Proof.
  pose proof (SFmag_nonneg x). unfold SF2Q. destruct (SFsign x); lra.
Qed.

(** [math.ceil(r * x)] returns for finite floats whose product stays below
    [2^1002]. *)
Lemma ceil_mul_float_ok (r x : spec_float) :
  is_finite r = true -> is_finite x = true ->
  SFmag r * SFmag x <= 2 ^ 1002 ->
  exists c, ceil_mul (PFloat r) (PFloat x) = Ok c /\ (c <= 2 ^ 1002)%Z.
Proof.
  intros Hr Hx Hb. unfold ceil_mul, py_mul. cbn [py_to_float bind].
  rewrite (mul_finite_eq r x Hr Hx).
  pose proof (SFmag_nonneg r). pose proof (SFmag_nonneg x).
  assert (Hp0 : 0 <= SFmag r * SFmag x) by (apply Qmult_le_0_compat; assumption).
  assert (Hfin : is_finite (SFround (xorb (SFsign r) (SFsign x))
                              (SFmag r * SFmag x)) = true).
  { apply SFround_finite; [exact Hp0|].
    eapply Qle_lt_trans; [exact Hb|]. apply pow2_lt. unfold emax. lia. }
  rewrite (py_ceil_finite _ Hfin). eexists. split; [reflexivity|].
  apply Qceiling_le_pow2; [lia|].
  eapply Qle_trans; [apply SF2Q_le_SFmag|].
  rewrite (SFround_mag _ _ Hp0 Hfin).
  apply round_val_le_pow2; [exact Hp0 | exact Hb | unfold emin; lia].
Qed.

Lemma pow2_Z_le (a b : Z) : (0 <= a <= b)%Z -> (2 ^ a <= 2 ^ b)%Z.
Proof. intros H. apply Z.pow_le_mono_r; lia. Qed.

(** [calculate_ada_spaces] returns for every total up to [2^1002]. *)
Lemma calculate_ada_spaces_total (n : Z) :
  (n <= 2 ^ 1002)%Z ->
  exists a, calculate_ada_spaces n = Ok a /\ (0 <= a <= 2 ^ 1002)%Z.
Proof.
  intros Hn.
  assert (Hbig : (1000 < 2 ^ 1002)%Z).
  { pose proof (pow2_Z_le 10 1002 ltac:(lia)). change (2 ^ 10)%Z with 1024%Z in H. lia. }
  destruct (Z.leb_spec n 1000) as [H1|H1].
  - destruct (ada_scan_upto_1000 n H1) as (r & E & Hr).
    unfold calculate_ada_spaces. rewrite E.
    destruct (n <=? 0)%Z; eexists; (split; [reflexivity | lia]).
  - rewrite (calculate_ada_spaces_over_1000 n H1).
    assert (Hk : inject_Z (n - 1000) / inject_Z 100 <= 2 ^ 996).
    { apply Qle_shift_div_r; [reflexivity|].
      apply Qle_trans with (2 ^ 1002).
      - rewrite (pow2_inject 1002) by lia. rewrite <- Zle_Qle. lia.
      - replace 1002%Z with (996 + 6)%Z by reflexivity. rewrite pow2_add.
        change (2 ^ 6) with 64. change (inject_Z 100) with 100.
        pose proof (pow2_pos 996). set (P := 2 ^ 996) in *. clearbody P. lra. }
    destruct (truediv_int_ok (n - 1000) 100) as (q & E & Hf & Hv); [lia|lia| |].
    { eapply Qle_lt_trans; [exact Hk|]. apply pow2_lt. unfold emax. lia. }
    rewrite E. cbn [bind]. rewrite (py_ceil_finite q Hf). cbn [bind].
    eexists. split; [reflexivity|].
    assert (Hc0 : (0 <= Qceiling (SF2Q q))%Z).
    { rewrite <- (Qceiling_Z 0). apply Qceiling_resp_le. rewrite Hv.
      apply round_val_nonneg. apply Qle_shift_div_l; [reflexivity|].
      rewrite Qmult_0_l. change 0 with (inject_Z 0). rewrite <- Zle_Qle. lia. }
    assert (Hc1 : (Qceiling (SF2Q q) <= 2 ^ 996)%Z).
    { apply Qceiling_le_pow2; [lia|]. rewrite Hv.
      apply round_val_le_pow2; [|exact Hk|unfold emin; lia].
      apply Qle_shift_div_l; [reflexivity|].
      rewrite Qmult_0_l. change 0 with (inject_Z 0). rewrite <- Zle_Qle. lia. }
    assert (Hp : (2 * 2 ^ 996 <= 2 ^ 1002)%Z).
    { replace (2 * 2 ^ 996)%Z with (2 ^ 997)%Z by (rewrite <- Z.pow_succ_r; [reflexivity | lia]).
      apply pow2_Z_le. lia. }
    assert (Hq : (20 <= 2 ^ 996)%Z).
    { pose proof (pow2_Z_le 5 996 ltac:(lia)). change (2 ^ 5)%Z with 32%Z in H. lia. }
    set (c := Qceiling (SF2Q q)) in *. clearbody c.
    set (P := (2 ^ 996)%Z) in *. set (R := (2 ^ 1002)%Z) in *. clearbody P R. lia.
Qed.

(** [calculate_van_accessible] returns for every count up to [2^1002]. *)
Lemma calculate_van_accessible_total (a : Z) :
  (0 <= a <= 2 ^ 1002)%Z -> exists v, calculate_van_accessible a = Ok v.
Proof.
  intros Ha. unfold calculate_van_accessible.
  destruct (truediv_int_ok a 6) as (q & E & Hf & Hv); [lia|lia| |].
  { apply Qle_lt_trans with (2 ^ 1002).
    - apply Qle_shift_div_r; [reflexivity|].
      apply Qle_trans with (inject_Z (2 ^ 1002)).
      + rewrite <- Zle_Qle. lia.
      + rewrite <- (pow2_inject 1002) by lia. change (inject_Z 6) with 6.
        pose proof (pow2_pos 1002). set (P := 2 ^ 1002) in *. clearbody P. lra.
    - apply pow2_lt. unfold emax. lia. }
  rewrite E. cbn [bind]. rewrite (py_ceil_finite q Hf). cbn [bind].
  eexists. reflexivity.
Qed.
End Returns.

(** ** Conversions to text *)

Section TextLimit.
Local Open Scope Q_scope.

Lemma Qlog2_floor_pow2 (k : Z) : Qlog2_floor (2 ^ k) = k.
Proof.
  apply Qlog2_floor_unique; [apply Qle_refl | apply pow2_lt; lia].
Qed.

(** A magnitude of [2^emax] or more rounds to an infinity. *)
Lemma SFround_overflow (s : bool) (a : Q) :
  2 ^ emax <= a -> is_finite (SFround s a) = false.
Proof.
  intros Ha. pose proof (pow2_pos emax) as Hp.
  assert (H0 : 0 < a) by lra.
  assert (Hl : (emax <= Qlog2_floor a)%Z).
  { rewrite <- (Qlog2_floor_pow2 emax) at 1.
    apply Qlog2_floor_mono; [exact Hp | exact Ha]. }
  assert (He : (emax - prec < ulp_exp a)%Z) by (unfold ulp_exp, prec, emax, emin in *; lia).
  assert (He' : (emin < ulp_exp a)%Z) by (unfold emin, emax, prec in *; lia).
  pose proof (mantissa_lower a H0 He') as Hm.
  unfold SFround, round_mag.
  set (e := ulp_exp a) in *. set (m := Qrne (a / 2 ^ e)) in *. clearbody m e.
  assert (P : (0 < 2 ^ (prec - 1))%Z) by (apply Z.pow_pos_nonneg; unfold prec; lia).
  destruct (m =? 2 ^ prec)%Z.
  - destruct (2 ^ (prec - 1))%Z eqn:E; try lia.
    destruct (Z.leb_spec (e + 1) (emax - prec)); [lia | reflexivity].
  - destruct m; try lia.
    destruct (Z.leb_spec e (emax - prec)); [lia | reflexivity].
Qed.

(** A finite result of a rounding has magnitude at most [2^emax]. *)
Lemma SFround_finite_le (s : bool) (a : Q) :
  0 <= a -> is_finite (SFround s a) = true -> SFmag (SFround s a) <= 2 ^ emax.
Proof.
  intros H0 Hf. rewrite (SFround_mag s a H0 Hf).
  apply round_val_le_pow2; [exact H0 | | unfold emin, emax; lia].
  destruct (Qlt_le_dec a (2 ^ emax)) as [L|G]; [apply Qlt_le_weak; exact L|].
  rewrite (SFround_overflow s a G) in Hf. discriminate.
Qed.

Lemma Qceiling_abs_le_pow2 (x : Q) (k : Z) :
  (0 <= k)%Z -> - 2 ^ k <= x -> x <= 2 ^ k -> (Z.abs (Qceiling x) <= 2 ^ k)%Z.
Proof.
  intros Hk H1 H2.
  assert (A : (Qceiling x <= 2 ^ k)%Z) by (apply Qceiling_le_pow2; assumption).
  assert (B : (- 2 ^ k <= Qceiling x)%Z).
  { rewrite <- (Qceiling_Z (- 2 ^ k)). apply Qceiling_resp_le.
    rewrite inject_Z_opp, <- (pow2_inject k Hk). exact H1. }
  lia.
Qed.

(** [math.ceil] of a finite result of a rounding. *)
Lemma ceil_SFround_bound (s : bool) (a : Q) :
  0 <= a -> is_finite (SFround s a) = true ->
  (Z.abs (Qceiling (SF2Q (SFround s a))) <= 2 ^ emax)%Z.
Proof.
  intros H0 Hf. pose proof (SFround_finite_le s a H0 Hf) as Hb.
  pose proof (SFmag_nonneg (SFround s a)) as Hn.
  apply Qceiling_abs_le_pow2; [unfold emax; lia | |];
    unfold SF2Q; destruct (SFsign _); set (M := SFmag _) in *;
    pose proof (pow2_pos emax); set (P := 2 ^ emax) in *; clearbody M P; lra.
Qed.

(** An [int] that converts to a float has magnitude below [2^emax]. *)
Lemma py_float_of_int_bound (z : Z) (x : spec_float) :
  py_float_of_int z = Ok x -> (Z.abs z < 2 ^ emax)%Z.
Proof.
  intros H.
  assert (Hf : is_finite (of_Z z) = true).
  { unfold py_float_of_int in H.
    pose proof (SFround_not_nan (z <? 0)%Z (inject_Z (Z.abs z))) as N.
    fold (of_Z z) in N. destruct (of_Z z); try discriminate; try reflexivity.
    congruence. }
  destruct (Z.lt_ge_cases (Z.abs z) (2 ^ emax)) as [L|G]; [exact L|].
  unfold of_Z in Hf. rewrite SFround_overflow in Hf; [discriminate|].
  rewrite (pow2_inject emax) by (unfold emax; lia). rewrite <- Zle_Qle. exact G.
Qed.

(** The quotient of two [int]s is a zero or a finite number whenever the
    division returns, of magnitude at most [2^emax]. *)
Lemma py_truediv_int_finite (k d : Z) (q : spec_float) :
  py_truediv (PInt k) (PInt d) = Ok q ->
  is_finite q = true /\ SFmag q <= 2 ^ emax.
Proof.
  cbn [py_truediv]. destruct (Z.eqb_spec d 0) as [|Hd]; [discriminate|].
  set (s := xorb (k <? 0)%Z (d <? 0)%Z).
  set (a := inject_Z (Z.abs k) / inject_Z (Z.abs d)).
  assert (H0 : 0 <= a).
  { apply Qle_shift_div_l.
    - change 0 with (inject_Z 0). rewrite <- Zlt_Qlt. lia.
    - rewrite Qmult_0_l. change 0 with (inject_Z 0). rewrite <- Zle_Qle. lia. }
  pose proof (SFround_not_nan s a) as N.
  pose proof (SFround_finite_le s a H0) as B.
  destruct (SFround s a) eqn:E; intros H; inversion H; subst;
    try congruence; (split; [reflexivity | apply B; reflexivity]).
Qed.

(** [math.ceil(a * b)] through a float product has magnitude at most
    [2^emax]. *)
Lemma ceil_mul_bound (a b : pynum) (c : Z) :
  (forall r u, a = PInt r -> b = PInt u -> False) ->
  ceil_mul a b = Ok c -> (Z.abs c <= 2 ^ emax)%Z.
Proof.
  intros N H.
  assert (G : forall x y, py_ceil (PFloat (mul x y)) = Ok c ->
                          (Z.abs c <= 2 ^ emax)%Z).
  { intros x y Hc. apply py_ceil_float_inv in Hc. destruct Hc as [Hf ->].
    destruct (SF2Q_mul x y Hf) as (Fx & Fy & _).
    rewrite (mul_finite_eq x y Fx Fy) in Hf |- *.
    apply ceil_SFround_bound; [|exact Hf].
    apply Qmult_le_0_compat; apply SFmag_nonneg. }
  unfold ceil_mul, py_mul in H.
  destruct a as [r|x], b as [u|y]; [exfalso; eapply N; reflexivity | | |];
    cbn [py_to_float bind] in H.
  - destruct (py_float_of_int r) as [x|]; [|discriminate]. cbn [bind] in H.
    exact (G x y H).
  - destruct (py_float_of_int u) as [y|]; [|discriminate]. cbn [bind] in H.
    exact (G x y H).
  - exact (G x y H).
Qed.

Lemma limit_above_binary64 : (2 ^ (emax + 1) <= 10 ^ int_max_str_digits)%Z.
Proof. vm_compute. discriminate. Qed.

(** An [int] within the binary64 range is converted to its digits. *)
Lemma py_str_int_ok (z : Z) :
  (Z.abs z < 2 ^ (emax + 1))%Z -> py_str_int z = Ok (str_int z).
Proof.
  intros H. apply py_str_int_below. pose proof limit_above_binary64 as L.
  set (X := (10 ^ int_max_str_digits)%Z) in *.
  set (Y := (2 ^ (emax + 1))%Z) in *. clearbody X Y. lia.
Qed.

Lemma pow2_emax_lt : (2 ^ emax < 2 ^ (emax + 1))%Z.
Proof. apply Z.pow_lt_mono_r; unfold emax; lia. Qed.

(** The counts that the ADA step and the van accessible step return are
    within the binary64 range. *)
Lemma calculate_ada_spaces_bound (n a : Z) :
  calculate_ada_spaces n = Ok a -> (Z.abs a < 2 ^ (emax + 1))%Z.
Proof.
  intros H. pose proof pow2_emax_lt as L.
  assert (B : (30 < 2 ^ emax)%Z).
  { pose proof (pow2_Z_le 5 emax ltac:(unfold emax; lia)) as P.
    change (2 ^ 5)%Z with 32%Z in P. lia. }
  assert (D : (2 ^ (emax + 1) = 2 * 2 ^ emax)%Z).
  { replace (emax + 1)%Z with (Z.succ emax) by lia.
    rewrite Z.pow_succ_r; [reflexivity | unfold emax; lia]. }
  destruct (Z.leb_spec n 1000) as [C|C].
  - assert (0 <= a <= 9)%Z.
    { unfold calculate_ada_spaces in H.
      destruct (ada_scan_upto_1000 n C) as (r & E & Hr). rewrite E in H.
      destruct (n <=? 0)%Z; inversion H; lia. }
    lia.
  - rewrite (calculate_ada_spaces_over_1000 n C) in H.
    destruct (py_truediv _ _) as [q|] eqn:Eq; [|discriminate]. cbn [bind] in H.
    destruct (py_ceil _) as [c|] eqn:Ec; [|discriminate]. cbn [bind] in H.
    assert (a = 20 + c)%Z by congruence. subst a.
    apply py_ceil_float_inv in Ec. destruct Ec as [Fq ->].
    cbn [py_truediv] in Eq. destruct (100 =? 0)%Z; [discriminate|].
    set (s := xorb _ _) in Eq. set (x := _ / _) in Eq.
    assert (H0 : 0 <= x).
    { unfold x. apply Qle_shift_div_l; [reflexivity|].
      rewrite Qmult_0_l. change 0 with (inject_Z 0). rewrite <- Zle_Qle. lia. }
    assert (q = SFround s x) by (destruct (SFround s x); congruence).
    subst q. pose proof (ceil_SFround_bound s x H0 Fq).
    set (c := Qceiling _) in *. set (P := (2 ^ emax)%Z) in *.
    set (P' := (2 ^ (emax + 1))%Z) in *. clearbody c P P'. lia.
Qed.

Lemma calculate_van_accessible_bound (n v : Z) :
  calculate_van_accessible n = Ok v -> (Z.abs v < 2 ^ (emax + 1))%Z.
Proof.
  unfold calculate_van_accessible. intros H. pose proof pow2_emax_lt as L.
  assert (B : (1 < 2 ^ emax)%Z).
  { pose proof (pow2_Z_le 5 emax ltac:(unfold emax; lia)) as P.
    change (2 ^ 5)%Z with 32%Z in P. lia. }
  destruct (py_truediv _ _) as [q|] eqn:Eq; [|discriminate]. cbn [bind] in H.
  destruct (py_ceil _) as [c|] eqn:Ec; [|discriminate]. cbn [bind] in H.
  assert (v = Z.max 1 c)%Z by congruence. subst v.
  apply py_ceil_float_inv in Ec. destruct Ec as [Fq ->].
  cbn [py_truediv] in Eq. destruct (6 =? 0)%Z; [discriminate|].
  set (s := xorb _ _) in Eq. set (x := _ / _) in Eq.
  assert (H0 : 0 <= x).
  { unfold x. apply Qle_shift_div_l; [reflexivity|].
    rewrite Qmult_0_l. change 0 with (inject_Z 0). rewrite <- Zle_Qle. lia. }
  assert (q = SFround s x) by (destruct (SFround s x); congruence).
  subst q. pose proof (ceil_SFround_bound s x H0 Fq).
  set (c := Qceiling _) in *. set (P := (2 ^ emax)%Z) in *.
  set (P' := (2 ^ (emax + 1))%Z) in *. clearbody c P P'. lia.
Qed.

End TextLimit.

Section OfficeReturns.
Local Open Scope Q_scope.

(** The ["office_general"] computation with the table ratio returns for
    every finite [gross_sf] of magnitude up to [2^1000]. *)
Lemma calculate_parking_office_returns (g : pynum) (un se em : Z) :
  py_finite g = true -> Qabs (py_value g) <= 2 ^ 1000 ->
  exists r, calculate_parking "office_general" g un se em None = Ok r.
Proof.
  intros Hf Hb. unfold calculate_parking.
  rewrite in_dict_office_general. cbn [negb].
  rewrite getitem_office_general. cbn [bind].
  rewrite select_branch_office_general.
  destruct (truediv_1000_ok g Hf Hb) as (sf & E & Fsf & Msf).
  rewrite E. cbn [bind ri_ratio office_general_info].
  destruct (ceil_mul_float_ok (float_lit 3.0) sf eq_refl Fsf) as (c & Ec & Hc).
  { assert (H3 : SFmag (float_lit 3.0) == 3) by reflexivity.
    rewrite H3. replace 1002%Z with (1000 + 2)%Z by reflexivity.
    rewrite pow2_add. change (2 ^ 2) with 4.
    pose proof (SFmag_nonneg sf). set (P := 2 ^ 1000) in *. clearbody P. lra. }
  rewrite Ec. cbn [bind py_str_num].
  assert (Bc : (Z.abs c < 2 ^ (emax + 1))%Z).
  { assert (N : forall r u, PFloat (float_lit 3.0) = PInt r ->
                            PFloat sf = PInt u -> False)
      by (intros; discriminate).
    pose proof (ceil_mul_bound _ _ c N Ec). pose proof pow2_emax_lt. lia. }
  rewrite (py_str_int_ok c Bc). cbn [bind].
  destruct (calculate_ada_spaces_total c Hc) as (a & Ea & Ha).
  rewrite Ea. cbn [bind].
  destruct (calculate_van_accessible_total a Ha) as (v & Ev).
  rewrite Ev. cbn [bind].
  rewrite (py_str_int_ok a (calculate_ada_spaces_bound c a Ea)).
  rewrite (py_str_int_ok v (calculate_van_accessible_bound a v Ev)).
  cbn [bind]. eexists. reflexivity.
Qed.

End OfficeReturns.

(** ** Monotonicity of the base requirement *)

Lemma base_requirement_mono_gross (branch : unit_branch) (ratio g1 g2 : pynum)
    (un se c1 c2 : Z) :
  py_le (PInt 0) ratio = true -> py_le g1 g2 = true ->
  base_requirement branch ratio g1 un se = Ok c1 ->
  base_requirement branch ratio g2 un se = Ok c2 ->
  c1 <= c2.
Proof.
  intros Hr Hg H1 H2.
  assert (Hsf : forall c1 c2,
            (sf <- py_truediv g1 (PInt 1000) ;; ceil_mul ratio (PFloat sf)) = Ok c1 ->
            (sf <- py_truediv g2 (PInt 1000) ;; ceil_mul ratio (PFloat sf)) = Ok c2 ->
            c1 <= c2).
  { clear H1 H2 c1 c2. intros c1 c2 H1 H2.
    destruct (py_truediv g1 _) as [s1|] eqn:E1; [|discriminate].
    destruct (py_truediv g2 _) as [s2|] eqn:E2; [|discriminate].
    cbn [bind] in H1, H2.
    assert (F1 : py_finite (PFloat s1) = true).
    { apply (ceil_mul_float_inv ratio (PFloat s1) c1); [|exact H1].
      intros; discriminate. }
    assert (F2 : py_finite (PFloat s2) = true).
    { apply (ceil_mul_float_inv ratio (PFloat s2) c2); [|exact H2].
      intros; discriminate. }
    cbn [py_finite] in F1, F2.
    destruct (truediv_1000_inv g1 s1 E1 F1) as [G1 V1].
    destruct (truediv_1000_inv g2 s2 E2 F2) as [G2 V2].
    apply (ceil_mul_mono_float ratio s1 s2 c1 c2 Hr); [|exact H1|exact H2].
    rewrite V1, V2. apply RN_mono.
    apply Qmult_le_compat_r; [|apply Qlt_le_weak; reflexivity].
    apply py_le_value; assumption. }
  destruct branch; cbn [base_requirement] in H1, H2;
    solve [congruence | eapply Hsf; eassumption
          | assert (E : Ok c1 = Ok c2) by (rewrite <- H1, <- H2; reflexivity);
            inversion E; lia].
Qed.

Lemma base_requirement_mono_units (branch : unit_branch) (ratio g : pynum)
    (un1 un2 se c1 c2 : Z) :
  py_le (PInt 0) ratio = true -> un1 <= un2 ->
  base_requirement branch ratio g un1 se = Ok c1 ->
  base_requirement branch ratio g un2 se = Ok c2 ->
  c1 <= c2.
Proof.
  intros Hr Hu H1 H2.
  destruct branch; cbn [base_requirement] in H1, H2;
    solve [eapply ceil_mul_mono_int; eassumption
          | assert (E : Ok c1 = Ok c2) by (rewrite <- H1, <- H2; reflexivity);
            inversion E; lia].
Qed.

Lemma base_requirement_mono_seats (branch : unit_branch) (ratio g : pynum)
    (un se1 se2 c1 c2 : Z) :
  py_le (PInt 0) ratio = true -> se1 <= se2 ->
  base_requirement branch ratio g un se1 = Ok c1 ->
  base_requirement branch ratio g un se2 = Ok c2 ->
  c1 <= c2.
Proof.
  intros Hr Hu H1 H2.
  destruct branch; cbn [base_requirement] in H1, H2;
    solve [eapply ceil_mul_mono_int; eassumption
          | assert (E : Ok c1 = Ok c2) by (rewrite <- H1, <- H2; reflexivity);
            inversion E; lia].
Qed.

(** Every ratio of the table is positive. *)
Lemma table_ratios_positive (k : string) (info : ratio_info) :
  lookup k PARKING_RATIOS = Some info ->
  py_le (PInt 0) (PFloat (ri_ratio info)) = true.
Proof.
  intros H. apply lookup_In in H.
  assert (A : forallb (fun e => py_le (PInt 0) (PFloat (ri_ratio (snd e))))
                PARKING_RATIOS = true) by (vm_compute; reflexivity).
  rewrite forallb_forall in A. apply (A (k, info) H).
Qed.

Lemma effective_ratio_not_negative (k : string) (info : ratio_info)
    (cr : option pynum) :
  lookup k PARKING_RATIOS = Some info -> ratio_not_negative cr = true ->
  py_le (PInt 0) (effective_ratio info cr) = true.
Proof.
  intros Hl Hr. pose proof (table_ratios_positive k info Hl) as Ht.
  unfold effective_ratio, ratio_not_negative in *.
  destruct cr as [c|]; [|exact Ht]. destruct (py_bool c); assumption.
Qed.

Lemma table_branches (k : string) (info : ratio_info) :
  lookup k PARKING_RATIOS = Some info -> entry_branch_ok (k, info) = true.
Proof.
  intros H. apply lookup_In in H.
  assert (A : forallb entry_branch_ok PARKING_RATIOS = true)
    by (vm_compute; reflexivity).
  rewrite forallb_forall in A. apply (A (k, info) H).
Qed.

Lemma calculate_mixed_use_eq (uses : list use_dict) :
  calculate_mixed_use uses =
  (rs <- calculate_each uses ;;
   shared <- ceil_mul (PInt (sum_required rs)) (PFloat (float_lit 0.85)) ;;
   ada <- calculate_ada_spaces shared ;;
   Ok {| individual_calculations := rs;
         total_without_sharing := sum_required rs;
         shared_parking_potential := shared;
         potential_reduction := sum_required rs - shared;
         ada_total := ada;
         mixed_notes := mixed_use_notes |}).
Proof.
  unfold calculate_mixed_use. rewrite mixed_use_loop_spec.
  destruct (calculate_each uses) as [rs|e]; reflexivity.
Qed.

(** * The claims *)

(** C1 (defect of the code).  The ADA step function is not monotone: the
    table row [(1000, 2)] makes it drop from 9 accessible spaces at 500
    total spaces to 2 at 501. *)
Theorem ada_step_drops_after_500 :
  calculate_ada_spaces 500 = Ok 9 /\ calculate_ada_spaces 501 = Ok 2 /\
  ~ (forall m n a b, 0 <= m <= n ->
       calculate_ada_spaces m = Ok a -> calculate_ada_spaces n = Ok b -> a <= b).
Proof.
  split; [reflexivity|]. split; [reflexivity|].
  intros H. specialize (H 500 501 9 2 ltac:(lia) eq_refl eq_refl). lia.
Qed.




(** C3 (amended).  Whenever [calculate_mixed_use] returns, its results are
    those of one [calculate_parking] call per element in input order,
    [total_without_sharing] is the sum of their [required_spaces],
    [potential_reduction] is the total less the shared potential,
    [ada_total] is the ADA step of the shared potential, and the shared
    potential, which is [math.ceil(total * 0.85)] in binary64, is the exact
    [ceiling(total * 0.85)] when the total has magnitude below
    662294062848613; it does return when every call does and the total is
    in that range.  The empty sequence gives zeros and no
    results; the retail/office/restaurant example gives 40, 60, 30, total
    130, shared 111, reduction 19, ADA 5. *)
Theorem calculate_mixed_use_spec :
  (forall uses res,
     calculate_mixed_use uses = Ok res ->
     calculate_each uses = Ok (individual_calculations res) /\
     total_without_sharing res = sum_required (individual_calculations res) /\
     potential_reduction res
       = total_without_sharing res - shared_parking_potential res /\
     calculate_ada_spaces (shared_parking_potential res) = Ok (ada_total res) /\
     ceil_mul (PInt (total_without_sharing res)) (PFloat (float_lit 0.85))
       = Ok (shared_parking_potential res) /\
     (Z.abs (total_without_sharing res) < 662294062848613 ->
      shared_parking_potential res
        = Qceiling (0.85 * inject_Z (total_without_sharing res)))) /\
  (forall uses rs,
     calculate_each uses = Ok rs ->
     Z.abs (sum_required rs) < 662294062848613 ->
     exists res, calculate_mixed_use uses = Ok res) /\
  calculate_mixed_use [] =
    Ok {| individual_calculations := [];
          total_without_sharing := 0;
          shared_parking_potential := 0;
          potential_reduction := 0;
          ada_total := 0;
          mixed_notes := mixed_use_notes |} /\
  (exists res,
     calculate_mixed_use retail_office_restaurant = Ok res /\
     map required_spaces (individual_calculations res) = [40; 60; 30] /\
     total_without_sharing res = 130 /\
     shared_parking_potential res = 111 /\
     potential_reduction res = 19 /\
     ada_total res = 5).
Proof.
  split; [|split; [|split]].
  - intros uses res H. rewrite calculate_mixed_use_eq in H.
    destruct (calculate_each uses) as [rs|] eqn:Ers; [|discriminate].
    cbn [bind] in H.
    destruct (ceil_mul _ _) as [shared|] eqn:Es; [|discriminate].
    cbn [bind] in H.
    destruct (calculate_ada_spaces shared) as [ada|] eqn:Ea; [|discriminate].
    cbn [bind] in H.
    assert (E : res = {| individual_calculations := rs;
         total_without_sharing := sum_required rs;
         shared_parking_potential := shared;
         potential_reduction := sum_required rs - shared;
         ada_total := ada;
         mixed_notes := mixed_use_notes |}) by congruence.
    subst res. cbn [individual_calculations total_without_sharing
      shared_parking_potential potential_reduction ada_total].
    repeat (split; [reflexivity || assumption|]).
    intros HT. rewrite (ceil_mul_085 _ HT) in Es. congruence.
  - intros uses rs Hrs HT. rewrite calculate_mixed_use_eq, Hrs. cbn [bind].
    rewrite (ceil_mul_085 _ HT). cbn [bind].
    destruct (calculate_ada_spaces_returns (Qceiling (0.85 * inject_Z (sum_required rs))))
      as [a Ea].
    { assert (inject_Z (Qceiling (0.85 * inject_Z (sum_required rs)))
              < inject_Z (14073748835533800))%Q; [|rewrite <- Zlt_Qlt in H; lia].
      eapply Qlt_le_trans.
      - apply (Qlt_le_trans _ (0.85 * inject_Z (sum_required rs) + 1)).
        + pose proof (Qceiling_lt (0.85 * inject_Z (sum_required rs))) as Hc.
          unfold Z.sub in Hc. rewrite inject_Z_plus, inject_Z_opp in Hc.
          change (inject_Z 1) with 1%Q in Hc.
          set (c := inject_Z (Qceiling _)) in *. clearbody c. lra.
        + apply Qle_refl.
      - assert (inject_Z (sum_required rs) < inject_Z 662294062848613)%Q.
        { rewrite <- Zlt_Qlt. lia. }
        change (inject_Z 662294062848613) with 662294062848613%Q in H.
        change (inject_Z 14073748835533800) with 14073748835533800%Q.
        set (t := inject_Z (sum_required rs)) in *. clearbody t. lra. }
    rewrite Ea. cbn [bind]. eexists. reflexivity.
  - vm_compute. reflexivity.
  - eexists. split; [vm_compute; reflexivity|]. vm_compute. repeat split; reflexivity.
Qed.


Lemma calculate_mixed_use_spec_witness :
  exists res,
    calculate_mixed_use retail_office_restaurant = Ok res /\
    Z.abs (total_without_sharing res) < 662294062848613 /\
    shared_parking_potential res
      = Qceiling (0.85 * inject_Z (total_without_sharing res)).
Proof.
  eexists. split; [vm_compute; reflexivity|].
  split; [vm_compute; reflexivity|].
  apply (proj1 calculate_mixed_use_spec retail_office_restaurant).
  - vm_compute. reflexivity.
  - vm_compute. reflexivity.
Defined.

(** C3, as stated, fails.  For a total of 662294062848613 the product
    with 0.85 is [562949953421321.05]; binary64 numbers near [2^49] are
    [2^-3] apart, so the product rounds to [562949953421321] and the
    shared potential is one less than the exact ceiling.  An infinite
    [gross_sf] makes the call raise instead of returning. *)
Lemma calculate_mixed_use_rounds_down :
  (exists res,
     calculate_mixed_use
       [{| d_use_type := Some "hotel"; d_gross_sf := None;
           d_units := Some 662294062848613; d_seats := None |}] = Ok res /\
     total_without_sharing res = 662294062848613 /\
     shared_parking_potential res = 562949953421321 /\
     Qceiling (0.85 * inject_Z (total_without_sharing res)) = 562949953421322) /\
  calculate_mixed_use
    [{| d_use_type := None; d_gross_sf := Some (PFloat (S754_infinity false));
        d_units := None; d_seats := None |}] = Raise OverflowError.
Proof.
  split.
  - eexists. split; [vm_compute; reflexivity|]. vm_compute. repeat split; reflexivity.
  - vm_compute. reflexivity.
Qed.

(** C4.  Every returned [ParkingRequirement] has [total_spaces] equal to
    [required_spaces]. *)
Theorem total_spaces_is_required_spaces (use_type : string) (gross_sf : pynum)
    (units seats employees : Z) (custom_ratio : option pynum)
    (r : ParkingRequirement) :
  calculate_parking use_type gross_sf units seats employees custom_ratio = Ok r ->
  total_spaces r = required_spaces r.
Proof.
  intros H. apply calculate_parking_inv in H.
  destruct H as (info & ada & van & H). apply H.
Qed.

Lemma total_spaces_is_required_spaces_witness :
  exists r,
    calculate_parking "multi_family" (PInt 0) 50 0 0 None = Ok r /\
    required_spaces r = 75 /\ total_spaces r = required_spaces r.
Proof.
  eexists. split; [vm_compute; reflexivity|].
  split; [reflexivity|].
  apply (total_spaces_is_required_spaces "multi_family" (PInt 0) 50 0 0 None).
  vm_compute. reflexivity.
Defined.

(** C5.  In every returned [ParkingRequirement], [ada_spaces] is 0 when
    [required_spaces] is 0 (or negative), at least 1 when
    [required_spaces] lies in [1, 1000], and at least 21 above 1000: the
    unrestricted form [required_spaces >= 1 -> ada_spaces >= 1] holds. *)
Theorem ada_spaces_positive_iff_required (use_type : string) (gross_sf : pynum)
    (units seats employees : Z) (custom_ratio : option pynum)
    (r : ParkingRequirement) :
  calculate_parking use_type gross_sf units seats employees custom_ratio = Ok r ->
  (1 <= required_spaces r <= 1000 -> 1 <= ada_spaces r <= 9) /\
  (required_spaces r = 0 -> ada_spaces r = 0) /\
  (required_spaces r <= 0 -> ada_spaces r = 0) /\
  (1000 < required_spaces r -> 21 <= ada_spaces r) /\
  (1 <= required_spaces r -> 1 <= ada_spaces r).
Proof.
  intros H. apply calculate_parking_inv in H.
  destruct H as (info & ada & van & _ & _ & Hada & _ & _ & _ & _ & Ea & _).
  rewrite Ea. clear Ea.
  destruct (calculate_ada_spaces_range _ _ Hada) as (H0 & H1 & H2).
  split; [|split; [|split; [|split]]]; intros H.
  - apply H1, H.
  - apply H0. lia.
  - apply H0, H.
  - apply H2, H.
  - destruct (Z.leb_spec (required_spaces r) 1000) as [C|C].
    + apply H1. lia.
    + specialize (H2 C). lia.
Qed.

Lemma ada_spaces_positive_iff_required_witness :
  exists r,
    calculate_parking "hotel" (PInt 0) 120000 0 0 None = Ok r /\
    required_spaces r = 120000 /\ 21 <= ada_spaces r.
Proof.
  eexists. split; [vm_compute; reflexivity|]. split; [reflexivity|].
  apply (ada_spaces_positive_iff_required "hotel" (PInt 0) 120000 0 0 None).
  - vm_compute. reflexivity.
  - vm_compute. reflexivity.
Defined.

(** C6 (amended).  A use type that the table does not have is no cause
    of failure: the call is the ["office_general"] call on the same
    numbers with the warning as first note, so it raises exactly where
    that call raises and never raises [KeyError]; with the table ratio it
    returns for every finite [gross_sf] of magnitude up to [2^1000];
    [calculate_parking("nonexistent_use", gross_sf=5000)] requires 15
    spaces and carries the note. *)
Theorem unknown_use_type_falls_back :
  (forall u, in_dict u PARKING_RATIOS = false ->
     (forall g un se em cr,
        calculate_parking u g un se em cr =
        (r <- calculate_parking "office_general" g un se em cr ;;
         Ok (with_first_note (unknown_use_note u) r))) /\
     (forall g un se em cr,
        calculate_parking u g un se em cr <> Raise KeyError) /\
     (forall g un se em,
        py_finite g = true -> (Qabs (py_value g) <= 2 ^ 1000)%Q ->
        exists r, calculate_parking u g un se em None = Ok r /\
                  hd_error (notes r) = Some (unknown_use_note u))) /\
  (exists r,
     calculate_parking "nonexistent_use" (PInt 5000) 0 0 0 None = Ok r /\
     required_spaces r = 15 /\
     base_ratio r = "3.0 per 1,000 SF" /\
     notes r = [unknown_use_note "nonexistent_use";
                "3 spaces per 1,000 SF";
                "Calculation: 3.0 × 5.00 (1,000 SF) = 15 spaces";
                "ADA: 1 accessible spaces (1 van accessible)"]).
Proof.
  split.
  - intros u Hu. split; [|split].
    + intros. apply calculate_parking_unknown, Hu.
    + intros. apply calculate_parking_no_KeyError.
    + intros g un se em Hf Hb.
      rewrite (calculate_parking_unknown u g un se em None Hu).
      destruct (calculate_parking_office_returns g un se em Hf Hb) as [r0 E].
      rewrite E. cbn [bind]. eexists. split; reflexivity.
  - eexists. split; [vm_compute; reflexivity|].
    repeat split; vm_compute; reflexivity.
Qed.

Lemma unknown_use_type_falls_back_witness :
  in_dict "nonexistent_use" PARKING_RATIOS = false /\
  exists r,
    calculate_parking "nonexistent_use" (PInt 5000) 0 0 0 None = Ok r /\
    hd_error (notes r) = Some (unknown_use_note "nonexistent_use").
Proof.
  assert (Hu : in_dict "nonexistent_use" PARKING_RATIOS = false)
    by (vm_compute; reflexivity).
  split; [exact Hu|].
  apply (proj2 (proj2 (proj1 unknown_use_type_falls_back "nonexistent_use" Hu))).
  - reflexivity.
  - vm_compute. discriminate.
Defined.

(** C6, as stated, fails: a call for a use type that the table does not
    have does fail when the ["office_general"] computation does, with
    [ValueError] for a [gross_sf] that is NaN and with [OverflowError] for
    an infinite one. *)
Lemma unknown_use_type_can_raise :
  in_dict "nonexistent_use" PARKING_RATIOS = false /\
  calculate_parking "nonexistent_use" (PFloat S754_nan) 0 0 0 None
    = Raise ValueError /\
  calculate_parking "nonexistent_use" (PFloat (S754_infinity false)) 0 0 0 None
    = Raise OverflowError.
Proof. split; [|split]; vm_compute; reflexivity. Qed.

(** C7 (amended).  Every table entry other than ["daycare"] has a unit
    string matched by one of the tests of the chain (dwelling unit,
    1,000 SF, seat, room), and a call of [calculate_parking] for it that
    returns has computed [required_spaces] with the formula of that basis
    and carries the calculation line of that basis as its second note.
    The unit of ["daycare"] matches no test, and a call for it that
    returns has taken the fallback: the thousand-square-feet formula, with
    the note ["Default calculation based on SF"]. *)
Theorem table_entries_select_branch (k : string) (info : ratio_info) :
  lookup k PARKING_RATIOS = Some info ->
  ((k = "daycare" -> select_branch (ri_unit info) = DefaultSF) /\
   (k <> "daycare" ->
    select_branch (ri_unit info) = DwellingUnit \/
    select_branch (ri_unit info) = ThousandSF \/
    select_branch (ri_unit info) = Seat \/
    select_branch (ri_unit info) = Room)) /\
  (forall (g : pynum) (un se em : Z) (cr : option pynum)
          (r : ParkingRequirement),
     calculate_parking k g un se em cr = Ok r ->
     let ratio := effective_ratio info cr in
     (k = "daycare" ->
      (sf_units <- py_truediv g (PInt 1000) ;;
       ceil_mul ratio (PFloat sf_units)) = Ok (required_spaces r) /\
      nth_error (notes r) 1 = Some "Default calculation based on SF") /\
     (k <> "daycare" ->
      (select_branch (ri_unit info) = DwellingUnit /\
       ceil_mul ratio (PInt un) = Ok (required_spaces r) /\
       nth_error (notes r) 1
         = Some ("Calculation: " ++ str_num ratio ++ " × " ++ str_int un
                   ++ " units = " ++ str_int (required_spaces r)
                   ++ " spaces"))
      \/
      (select_branch (ri_unit info) = ThousandSF /\
       exists sf_units,
         py_truediv g (PInt 1000) = Ok sf_units /\
         ceil_mul ratio (PFloat sf_units) = Ok (required_spaces r) /\
         nth_error (notes r) 1
           = Some ("Calculation: " ++ str_num ratio ++ " × "
                     ++ format_2f sf_units ++ " (1,000 SF) = "
                     ++ str_int (required_spaces r) ++ " spaces"))
      \/
      (select_branch (ri_unit info) = Seat /\
       ceil_mul ratio (PInt se) = Ok (required_spaces r) /\
       nth_error (notes r) 1
         = Some ("Calculation: " ++ str_num ratio ++ " × " ++ str_int se
                   ++ " seats = " ++ str_int (required_spaces r)
                   ++ " spaces"))
      \/
      (select_branch (ri_unit info) = Room /\
       ceil_mul ratio (PInt un) = Ok (required_spaces r) /\
       nth_error (notes r) 1
         = Some ("Calculation: " ++ str_num ratio ++ " × " ++ str_int un
                   ++ " rooms = " ++ str_int (required_spaces r)
                   ++ " spaces")))).
Proof.
  intros Hl.
  pose proof (table_branches k info Hl) as B.
  unfold entry_branch_ok in B. cbn [fst snd] in B.
  split.
  { destruct (String.eqb_spec k "daycare") as [E|E];
      destruct (select_branch (ri_unit info)); cbn [negb] in B;
      try discriminate; split; intros; try contradiction; auto. }
  intros g un se em cr r H ratio.
  assert (Hin : in_dict k PARKING_RATIOS = true).
  { unfold in_dict. rewrite Hl. reflexivity. }
  destruct (calculate_parking_eq k g un se em cr) as (info' & Hl' & E).
  unfold resolve_use_type in Hl'. rewrite Hin in Hl'.
  assert (info' = info) by congruence. subst info'.
  rewrite E in H. clear E. fold ratio in H.
  apply bind_ok_inv in H. destruct H as (required & Hb & H).
  apply bind_ok_inv in H. destruct H as (s_calc & _ & H).
  apply bind_ok_inv in H. destruct H as (ada & _ & H).
  apply bind_ok_inv in H. destruct H as (van & _ & H).
  apply bind_ok_inv in H. destruct H as (s_ada & _ & H).
  apply bind_ok_inv in H. destruct H as (s_van & _ & H).
  apply bind_ok_inv in H. destruct H as (s_ratio & _ & H).
  inversion H; subst r; clear H.
  cbn [required_spaces notes]. unfold notes_of. rewrite Hin.
  cbn [List.app nth_error].
  assert (Hsf : select_branch (ri_unit info) = ThousandSF \/
                select_branch (ri_unit info) = DefaultSF ->
                py_truediv g (PInt 1000) = Ok (sf_units_of g)).
  { intros [Hs|Hs]; rewrite Hs in Hb; cbn [base_requirement] in Hb;
      unfold sf_units_of;
      destruct (py_truediv g (PInt 1000)); try reflexivity; discriminate. }
  destruct (String.eqb_spec k "daycare") as [Ek|Ek];
    destruct (select_branch (ri_unit info)) eqn:Es; cbn [negb] in B;
    try discriminate B; cbn [base_requirement calculation_note] in *;
    (split; [intros Hk | intros Hk]; try contradiction).
  - split; [exact Hb | reflexivity].
  - left. split; [reflexivity|]. split; [exact Hb | reflexivity].
  - right. left. split; [reflexivity|]. exists (sf_units_of g).
    rewrite (Hsf (or_introl eq_refl)) in Hb. cbn [bind] in Hb.
    split; [apply Hsf; left; reflexivity|]. split; [exact Hb | reflexivity].
  - right. right. left. split; [reflexivity|]. split; [exact Hb | reflexivity].
  - right. right. right. split; [reflexivity|].
    split; [exact Hb | reflexivity].
Qed.

Lemma table_entries_select_branch_witness :
  exists r,
    calculate_parking "hotel" (PInt 0) 120 0 0 None = Ok r /\
    required_spaces r = 120 /\
    nth_error (notes r) 1
      = Some "Calculation: 1.0 × 120 rooms = 120 spaces".
Proof.
  assert (L : lookup "hotel" PARKING_RATIOS
              = Some {| ri_ratio := float_lit 1.0; ri_unit := "room";
                        ri_notes := "1 space per room + employee parking" |})
    by (vm_compute; reflexivity).
  assert (N : "hotel" <> "daycare") by discriminate.
  assert (H : exists r,
            calculate_parking "hotel" (PInt 0) 120 0 0 None = Ok r /\
            required_spaces r = 120).
  { eexists. split; vm_compute; reflexivity. }
  destruct H as (r & H & R). exists r. split; [exact H|]. split; [exact R|].
  destruct (proj2 (proj2 (table_entries_select_branch "hotel" _ L)
                     (PInt 0) 120 0 0 None r H) N)
    as [(S & _)|[(S & _)|[(S & _)|(_ & _ & Hn)]]];
    try (vm_compute in S; discriminate S).
  rewrite Hn, R. vm_compute. reflexivity.
Defined.

(** C7, as stated, fails: the unit of ["daycare"] is
    ["employee + 1 per 10 children"], which none of the five tests
    matches, and the call takes the fallback branch. *)
Lemma daycare_takes_default_branch :
  lookup "daycare" PARKING_RATIOS
    = Some {| ri_ratio := float_lit 1.0;
              ri_unit := "employee + 1 per 10 children";
              ri_notes := "Drop-off lane required" |} /\
  select_branch "employee + 1 per 10 children" = DefaultSF /\
  exists r,
    calculate_parking "daycare" (PInt 2000) 0 0 0 None = Ok r /\
    required_spaces r = 2 /\
    notes r = ["Drop-off lane required";
               "Default calculation based on SF";
               "ADA: 1 accessible spaces (1 van accessible)"].
Proof.
  split; [vm_compute; reflexivity|]. split; [vm_compute; reflexivity|].
  eexists. split; [vm_compute; reflexivity|]. split; reflexivity.
Qed.

(** C8 (amended).  For a fixed use type and a fixed effective ratio that
    is not negative, whenever both calls return, increasing [gross_sf],
    [units] or [seats] alone does not decrease [required_spaces]. *)
Theorem required_spaces_monotone (u : string) (cr : option pynum) :
  ratio_not_negative cr = true ->
  (forall g1 g2 un se em r1 r2,
     py_le g1 g2 = true ->
     calculate_parking u g1 un se em cr = Ok r1 ->
     calculate_parking u g2 un se em cr = Ok r2 ->
     required_spaces r1 <= required_spaces r2) /\
  (forall g un1 un2 se em r1 r2,
     un1 <= un2 ->
     calculate_parking u g un1 se em cr = Ok r1 ->
     calculate_parking u g un2 se em cr = Ok r2 ->
     required_spaces r1 <= required_spaces r2) /\
  (forall g un se1 se2 em r1 r2,
     se1 <= se2 ->
     calculate_parking u g un se1 em cr = Ok r1 ->
     calculate_parking u g un se2 em cr = Ok r2 ->
     required_spaces r1 <= required_spaces r2).
Proof.
  intros Hr.
  split; [|split]; intros * Hle H1 H2;
    apply calculate_parking_inv in H1; apply calculate_parking_inv in H2;
    destruct H1 as (i1 & a1 & v1 & L1 & B1 & _);
    destruct H2 as (i2 & a2 & v2 & L2 & B2 & _);
    rewrite L1 in L2; injection L2 as <-;
    pose proof (effective_ratio_not_negative _ _ cr L1 Hr) as Hpos.
  - exact (base_requirement_mono_gross _ _ _ _ _ _ _ _ Hpos Hle B1 B2).
  - exact (base_requirement_mono_units _ _ _ _ _ _ _ _ Hpos Hle B1 B2).
  - exact (base_requirement_mono_seats _ _ _ _ _ _ _ _ Hpos Hle B1 B2).
Qed.

Lemma required_spaces_monotone_witness :
  ratio_not_negative (Some (PFloat (float_lit 4.5))) = true /\
  py_le (PInt 10000) (PFloat (float_lit 10000.5)) = true /\
  exists r1 r2,
    calculate_parking "retail" (PInt 10000) 0 0 0
      (Some (PFloat (float_lit 4.5))) = Ok r1 /\
    calculate_parking "retail" (PFloat (float_lit 10000.5)) 0 0 0
      (Some (PFloat (float_lit 4.5))) = Ok r2 /\
    required_spaces r1 = 45 /\ required_spaces r2 = 46 /\
    required_spaces r1 <= required_spaces r2.
Proof.
  assert (Hr : ratio_not_negative (Some (PFloat (float_lit 4.5))) = true)
    by (vm_compute; reflexivity).
  assert (Hg : py_le (PInt 10000) (PFloat (float_lit 10000.5)) = true)
    by (vm_compute; reflexivity).
  split; [exact Hr|]. split; [exact Hg|].
  eexists. eexists.
  split; [vm_compute; reflexivity|]. split; [vm_compute; reflexivity|].
  split; [reflexivity|]. split; [reflexivity|].
  apply (proj1 (required_spaces_monotone "retail" _ Hr)
           (PInt 10000) (PFloat (float_lit 10000.5)) 0 0 0 _ _ Hg).
  - vm_compute. reflexivity.
  - vm_compute. reflexivity.
Defined.

(** C8, as stated, fails: a negative [custom_ratio] is a fixed effective
    ratio under which more floor area requires fewer spaces. *)
Lemma negative_ratio_reverses_order :
  exists r1 r2,
    calculate_parking "retail" (PInt 1000) 0 0 0
      (Some (PFloat (float_lit (-1.0)))) = Ok r1 /\
    calculate_parking "retail" (PInt 2000) 0 0 0
      (Some (PFloat (float_lit (-1.0)))) = Ok r2 /\
    required_spaces r1 = -1 /\ required_spaces r2 = -2.
Proof.
  eexists. eexists.
  split; [vm_compute; reflexivity|]. split; [vm_compute; reflexivity|].
  split; reflexivity.
Qed.

(** C9.  [employees] has no effect: two calls that differ only in it give
    the same outcome, notes included. *)
Theorem employees_is_ignored (use_type : string) (gross_sf : pynum)
    (units seats employees employees' : Z) (custom_ratio : option pynum) :
  calculate_parking use_type gross_sf units seats employees custom_ratio =
  calculate_parking use_type gross_sf units seats employees' custom_ratio.
Proof. reflexivity. Qed.

(** C10.  For a use type that the table does not have, the returned
    [use_type] is ["office_general"]; the record is the one of the
    ["office_general"] call, which does not see the caller's identifier,
    with the warning that quotes the identifier as first note. *)
Theorem unknown_use_type_is_replaced (u : string) (g : pynum)
    (un se em : Z) (cr : option pynum) (r : ParkingRequirement) :
  in_dict u PARKING_RATIOS = false ->
  calculate_parking u g un se em cr = Ok r ->
  use_type r = "office_general" /\
  exists r0,
    calculate_parking "office_general" g un se em cr = Ok r0 /\
    r = with_first_note (unknown_use_note u) r0 /\
    notes r = unknown_use_note u :: notes r0 /\
    use_type r0 = "office_general".
Proof.
  intros Hu H. rewrite (calculate_parking_unknown u g un se em cr Hu) in H.
  destruct (calculate_parking "office_general" g un se em cr) as [r0|] eqn:E;
    [|discriminate].
  cbn [bind] in H. assert (Er : r = with_first_note (unknown_use_note u) r0)
    by congruence.
  pose proof (calculate_parking_inv _ _ _ _ _ _ _ E)
    as (_ & _ & _ & _ & _ & _ & _ & Hut & _).
  change (resolve_use_type "office_general") with "office_general" in Hut.
  subst r. split; [exact Hut|].
  exists r0. repeat split; auto.
Qed.

Lemma unknown_use_type_is_replaced_witness :
  in_dict "nonexistent_use" PARKING_RATIOS = false /\
  exists r,
    calculate_parking "nonexistent_use" (PInt 5000) 0 0 0 None = Ok r /\
    use_type r = "office_general".
Proof.
  assert (Hu : in_dict "nonexistent_use" PARKING_RATIOS = false)
    by (vm_compute; reflexivity).
  split; [exact Hu|].
  eexists. split; [vm_compute; reflexivity|].
  apply (unknown_use_type_is_replaced "nonexistent_use" (PInt 5000) 0 0 0 None
           _ Hu).
  vm_compute. reflexivity.
Defined.

(** * Further properties of the calculator *)

Ltac distribute_inject_in H :=
  unfold Z.sub in H;
  repeat (rewrite inject_Z_plus in H || rewrite inject_Z_mult in H
          || rewrite inject_Z_opp in H).

Ltac distribute_inject :=
  unfold Z.sub;
  repeat (rewrite inject_Z_plus || rewrite inject_Z_mult
          || rewrite inject_Z_opp).

(** ** Van accessible spaces *)

Section VanAccessible.
Local Open Scope Q_scope.

(** [math.ceil(k / 6)] is the exact ceiling while the quotient stays at or
    below [2^51]. *)
Lemma ceil_truediv_6_exact (k : Z) :
  (0 < k <= 6 * 2 ^ 51)%Z ->
  (q <- py_truediv (PInt k) (PInt 6) ;; py_ceil (PFloat q))
  = Ok (Qceiling (k # 6)).
Proof.
  intros Hk.
  assert (Hkq : 0 < inject_Z k)
    by (change 0 with (inject_Z 0); rewrite <- Zlt_Qlt; lia).
  assert (Hk2 : inject_Z k <= 6 * 2 ^ 51).
  { change (6 * 2 ^ 51) with (inject_Z (6 * 2 ^ 51)). rewrite <- Zle_Qle. lia. }
  set (a := inject_Z k / inject_Z 6).
  assert (Ea : a == k # 6) by (unfold a; symmetry; apply Qmake_Qdiv).
  assert (Ha6 : a * 6 == inject_Z k)
    by (unfold a; change (inject_Z 6) with 6; field).
  assert (Hapos : 0 < a) by lra.
  destruct (truediv_int_ok k 6) as (q & E & Hf & Hv); [lia|lia| |].
  { fold a. apply Qle_lt_trans with (2 ^ 51); [lra|].
    apply pow2_lt. unfold emax. lia. }
  fold a in Hv. rewrite E. cbn [bind].
  rewrite (py_ceil_finite q Hf). f_equal.
  set (c := Qceiling (k # 6)).
  pose proof (Qceiling_lt (k # 6)) as Hc1. pose proof (Qle_ceiling (k # 6)) as Hc2.
  fold c in Hc1, Hc2. unfold Z.sub in Hc1.
  rewrite inject_Z_plus, inject_Z_opp in Hc1. change (inject_Z 1) with 1 in Hc1.
  rewrite <- Ea in Hc1, Hc2. clearbody c a.
  assert (Hc0 : (0 < c)%Z).
  { rewrite Zlt_Qlt. change (inject_Z 0) with 0. lra. }
  assert (Hcub : (c <= 2 ^ 51)%Z).
  { assert (C : inject_Z c < inject_Z (2 ^ 51 + 1)).
    { rewrite inject_Z_plus. change (inject_Z (2 ^ 51)) with (2 ^ 51).
      change (inject_Z 1) with 1. lra. }
    rewrite <- Zlt_Qlt in C. lia. }
  assert (Hgap : inject_Z c - 1 + (1 # 6) <= a).
  { assert (Hz : (6 * (c - 1) < k)%Z).
    { rewrite Zlt_Qlt. unfold Z.sub.
      rewrite inject_Z_mult, inject_Z_plus, inject_Z_opp.
      change (inject_Z 6) with 6. change (inject_Z 1) with 1. lra. }
    assert (Hz' : (6 * (c - 1) + 1 <= k)%Z) by lia.
    rewrite Zle_Qle in Hz'. unfold Z.sub in Hz'.
    rewrite inject_Z_plus, inject_Z_mult, inject_Z_plus, inject_Z_opp in Hz'.
    change (inject_Z 6) with 6 in Hz'. change (inject_Z 1) with 1 in Hz'.
    lra. }
  apply Qceiling_unique; rewrite Hv.
  - destruct (Qlt_le_dec a (2 ^ 51)) as [Hlt|Hge].
    + destruct (round_val_error a) as [He _].
      pose proof (pow2_ulp_le a (-2) Hapos Hlt ltac:(unfold emin; lia)) as Hu.
      change (2 ^ (-2)) with (1 # 4) in Hu. lra.
    + assert (Hx : round_val a == a).
      { apply (round_val_exact a 1 51); [|unfold prec; lia|unfold emin; lia].
        change (inject_Z 1) with 1. lra. }
      lra.
  - rewrite <- (round_val_inject c) by (unfold prec; lia).
    apply round_val_mono; lra.
Qed.

End VanAccessible.

Lemma Qceiling_sixth (n : Z) : Qceiling (n # 6) = (n + 5) / 6.
Proof.
  unfold Qceiling, Qfloor. cbn [Qopp Qnum Qden].
  Z.div_mod_to_equations. lia.
Qed.

(** X1.  For [0 <= ada_spaces <= 6 * 2^51], [calculate_van_accessible]
    returns [max(1, ceiling(ada_spaces / 6))], the ceiling taken exactly:
    at least one space, at least one for every six accessible spaces and
    no more than that takes, and, once there is an accessible space at
    all, no more than the accessible spaces. *)
Theorem van_accessible_is_one_in_six (ada_spaces : Z) :
  0 <= ada_spaces <= 13510798882111488 ->
  exists van,
    calculate_van_accessible ada_spaces = Ok van /\
    van = Z.max 1 ((ada_spaces + 5) / 6) /\
    1 <= van /\
    ada_spaces <= 6 * van /\
    (6 < ada_spaces -> 6 * van < ada_spaces + 6) /\
    (1 <= ada_spaces -> van <= ada_spaces).
Proof.
  intros H. unfold calculate_van_accessible.
  destruct (Z.eq_dec ada_spaces 0) as [->|Hnz].
  - exists 1. split; [vm_compute; reflexivity|].
    split; [vm_compute; reflexivity|]. lia.
  - pose proof (ceil_truediv_6_exact ada_spaces ltac:(lia)) as E.
    destruct (py_truediv _ _) as [q|]; [|discriminate]. cbn [bind] in *.
    rewrite E. cbn [bind]. rewrite Qceiling_sixth.
    eexists. split; [reflexivity|]. split; [reflexivity|].
    Z.div_mod_to_equations. lia.
Qed.

Lemma van_accessible_is_one_in_six_witness :
  exists van, calculate_van_accessible 7 = Ok van /\ van = 2.
Proof.
  destruct (van_accessible_is_one_in_six 7 ltac:(lia)) as (van & E & V & _).
  exists van. split; [exact E|]. rewrite V. reflexivity.
Defined.

(** Beyond that range the quotient is rounded to a whole number and the
    count falls one short. *)
Lemma van_accessible_rounds_down :
  calculate_van_accessible 13510798882111489 = Ok 2251799813685248 /\
  (13510798882111489 + 5) / 6 = 2251799813685249.
Proof. split; vm_compute; reflexivity. Qed.

(** ** Accessible spaces within the total *)

Section AdaBounds.
Local Open Scope Q_scope.

(** A rounded magnitude is at most twice the magnitude. *)
Lemma round_val_le_double (a : Q) :
  2 ^ emin <= a -> round_val a <= 2 * a.
Proof.
  intros Ha. pose proof (pow2_pos emin) as Hp.
  assert (Hpos : 0 < a) by lra.
  destruct (Qlog2_floor_spec a Hpos) as [H1 H2].
  assert (Hl : (emin <= Qlog2_floor a)%Z).
  { assert (emin < Qlog2_floor a + 1)%Z by (apply pow2_lt_inv; lra). lia. }
  apply Qle_trans with (2 ^ (Qlog2_floor a + 1)).
  - apply round_val_le_pow2; [lra | lra | lia].
  - rewrite pow2_succ. lra.
Qed.

End AdaBounds.

(** The accessible spaces are part of the total. *)
Lemma calculate_ada_spaces_bounds (total_spaces ada : Z) :
  calculate_ada_spaces total_spaces = Ok ada ->
  0 <= ada /\ (total_spaces <= 0 -> ada = 0) /\ (1 <= total_spaces -> ada <= total_spaces).
Proof.
  intros H.
  destruct (calculate_ada_spaces_range _ _ H) as (H0 & H1 & H2).
  destruct (Z.leb_spec total_spaces 0) as [C0|C0].
  { specialize (H0 C0). lia. }
  destruct (Z.leb_spec total_spaces 1000) as [C1|C1].
  { unfold calculate_ada_spaces, ADA_REQUIREMENTS, ada_scan in H.
    split_leb; inversion H; lia. }
  specialize (H2 C1). split; [lia|]. split; [lia|]. intros _.
  rewrite (calculate_ada_spaces_over_1000 _ C1) in H.
  destruct (py_truediv _ _) as [q|] eqn:Eq; [|discriminate]. cbn [bind] in H.
  destruct (py_ceil _) as [c|] eqn:Ec; [|discriminate]. cbn [bind] in H.
  assert (Ea : ada = 20 + c) by congruence. subst ada. clear H.
  apply truediv_pos_inv in Eq; [|lia|lia]. destruct Eq as [Hf Hv].
  rewrite (py_ceil_finite q Hf) in Ec.
  assert (Ec' : c = Qceiling (SF2Q q)) by congruence. subst c. clear Ec.
  set (k := total_spaces - 1000) in *.
  assert (Hk : (1 <= inject_Z k)%Q).
  { change 1%Q with (inject_Z 1). rewrite <- Zle_Qle. unfold k. lia. }
  assert (Hc : Qceiling (SF2Q q) <= k).
  { rewrite <- (Qceiling_Z k). apply Qceiling_resp_le. rewrite Hv.
    eapply Qle_trans; [apply round_val_le_double|].
    - apply Qle_trans with (1 # 100)%Q.
      + apply Qlt_le_weak. apply Qlt_le_trans with (2 ^ (-7))%Q;
          [apply pow2_lt; unfold emin; lia | discriminate].
      + apply Qle_shift_div_l; [reflexivity|].
        change (inject_Z 100) with 100%Q. lra.
    - assert (E : (inject_Z k / inject_Z 100 * 100 == inject_Z k)%Q)
        by (change (inject_Z 100) with 100%Q; field).
      set (x := (inject_Z k / inject_Z 100)%Q) in *. clearbody x. lra. }
  unfold k in *. lia.
Qed.

(** X2.  Whenever [calculate_ada_spaces] returns, the count is not
    negative, is 0 for a total that is not positive, and never exceeds a
    positive total: the accessible spaces fit in the total that they are
    part of. *)
Theorem ada_spaces_within_total (total_spaces ada : Z) :
  calculate_ada_spaces total_spaces = Ok ada ->
  0 <= ada /\ (total_spaces <= 0 -> ada = 0) /\ (1 <= total_spaces -> ada <= total_spaces).
Proof. apply calculate_ada_spaces_bounds. Qed.

Lemma ada_spaces_within_total_witness :
  calculate_ada_spaces 120000 = Ok 1210 /\ 1210 <= 120000.
Proof.
  assert (H : calculate_ada_spaces 120000 = Ok 1210) by (vm_compute; reflexivity).
  split; [exact H|].
  apply (proj2 (proj2 (ada_spaces_within_total 120000 1210 H))). lia.
Defined.

(** X3.  The step from 500 to 501 is the only place where more spaces
    require fewer accessible ones: for [m <= n] on the same side of it
    ([n <= 500] or [501 <= m]), [calculate_ada_spaces] gives [m] no more
    than it gives [n] whenever both calls return, the binary64 division
    above 1000 included. *)
Theorem ada_spaces_monotone_apart_from_500 (m n a b : Z) :
  m <= n -> n <= 500 \/ 501 <= m ->
  calculate_ada_spaces m = Ok a -> calculate_ada_spaces n = Ok b ->
  a <= b.
Proof.
  intros Hmn Hside Ha Hb.
  destruct Hside as [Hs|Hs].
  { apply (monotone_to_500 m n a b); [lia | assumption | assumption]. }
  destruct (Z.leb_spec n 1000) as [Cn|Cn].
  { unfold calculate_ada_spaces, ADA_REQUIREMENTS, ada_scan in Ha, Hb.
    split_leb; inversion Ha; inversion Hb; lia. }
  destruct (Z.leb_spec m 1000) as [Cm|Cm].
  { destruct (calculate_ada_spaces_range _ _ Hb) as (_ & _ & H2).
    specialize (H2 Cn).
    unfold calculate_ada_spaces, ADA_REQUIREMENTS, ada_scan in Ha.
    split_leb; inversion Ha; lia. }
  rewrite (calculate_ada_spaces_over_1000 _ Cm) in Ha.
  rewrite (calculate_ada_spaces_over_1000 _ Cn) in Hb.
  destruct (py_truediv (PInt (m - 1000)) _) as [qm|] eqn:Em; [|discriminate].
  destruct (py_truediv (PInt (n - 1000)) _) as [qn|] eqn:En; [|discriminate].
  cbn [bind] in Ha, Hb.
  destruct (py_ceil (PFloat qm)) as [cm|] eqn:Ecm; [|discriminate].
  destruct (py_ceil (PFloat qn)) as [cn|] eqn:Ecn; [|discriminate].
  cbn [bind] in Ha, Hb.
  assert (a = 20 + cm) by congruence. assert (b = 20 + cn) by congruence.
  subst a b.
  apply truediv_pos_inv in Em; [|lia|lia]. destruct Em as [Fm Vm].
  apply truediv_pos_inv in En; [|lia|lia]. destruct En as [Fn Vn].
  rewrite (py_ceil_finite _ Fm) in Ecm. rewrite (py_ceil_finite _ Fn) in Ecn.
  assert (cm = Qceiling (SF2Q qm)) by congruence.
  assert (cn = Qceiling (SF2Q qn)) by congruence. subst cm cn.
  assert (Qceiling (SF2Q qm) <= Qceiling (SF2Q qn)); [|lia].
  apply Qceiling_resp_le. rewrite Vm, Vn. apply round_val_mono.
  - apply Qle_shift_div_l; [reflexivity|]. rewrite Qmult_0_l.
    change 0%Q with (inject_Z 0). rewrite <- Zle_Qle. lia.
  - apply Qmult_le_compat_r; [|apply Qlt_le_weak; reflexivity].
    rewrite <- Zle_Qle. lia.
Qed.

Lemma ada_spaces_monotone_apart_from_500_witness :
  calculate_ada_spaces 501 = Ok 2 /\ calculate_ada_spaces 1300 = Ok 23 /\ 2 <= 23.
Proof.
  assert (Ha : calculate_ada_spaces 501 = Ok 2) by (vm_compute; reflexivity).
  assert (Hb : calculate_ada_spaces 1300 = Ok 23) by (vm_compute; reflexivity).
  split; [exact Ha|]. split; [exact Hb|].
  apply (ada_spaces_monotone_apart_from_500 501 1300 2 23); [lia | right; lia | exact Ha | exact Hb].
Defined.

(** ** Which exceptions can be raised *)

Lemma py_float_of_int_raise (z : Z) (e : pyexn) :
  py_float_of_int z = Raise e -> e = OverflowError.
Proof. unfold py_float_of_int. destruct (of_Z z); congruence. Qed.

Lemma py_to_float_raise (a : pynum) (e : pyexn) :
  py_to_float a = Raise e -> e = OverflowError.
Proof.
  destruct a as [z|x]; cbn [py_to_float]; [apply py_float_of_int_raise|].
  discriminate.
Qed.

Lemma py_mul_raise (a b : pynum) (e : pyexn) :
  py_mul a b = Raise e -> e = OverflowError.
Proof.
  intros H.
  assert (G : (x <- py_to_float a ;; y <- py_to_float b ;;
               Ok (PFloat (mul x y))) = Raise e -> e = OverflowError).
  { intros G. apply bind_raise_inv in G.
    destruct G as [G|(x & _ & G)]; [exact (py_to_float_raise _ _ G)|].
    apply bind_raise_inv in G.
    destruct G as [G|(y & _ & G)]; [exact (py_to_float_raise _ _ G)|].
    discriminate. }
  destruct a, b; try exact (G H). discriminate.
Qed.

Lemma py_ceil_raise (a : pynum) (e : pyexn) :
  py_ceil a = Raise e ->
  (e = OverflowError /\ a <> PFloat S754_nan) \/
  (e = ValueError /\ a = PFloat S754_nan).
Proof.
  destruct a as [z|[s|s| |s m ex]]; cbn [py_ceil]; intros H;
    try discriminate.
  - left. split; congruence.
  - right. split; congruence.
Qed.

Lemma py_truediv_int_raise (k d : Z) (e : pyexn) :
  d <> 0 -> py_truediv (PInt k) (PInt d) = Raise e -> e = OverflowError.
Proof.
  intros Hd. cbn [py_truediv]. destruct (Z.eqb_spec d 0); [contradiction|].
  destruct (SFround _ _); congruence.
Qed.

Lemma py_float_1000 :
  py_float_of_int 1000 = Ok (S754_finite false 8796093022208000 (-43)).
Proof. reflexivity. Qed.

Lemma py_truediv_1000_raise (g : pynum) (e : pyexn) :
  py_truediv g (PInt 1000) = Raise e -> e = OverflowError.
Proof.
  destruct g as [z|x].
  - apply py_truediv_int_raise. discriminate.
  - cbn [py_truediv py_to_float bind]. rewrite py_float_1000.
    cbn [bind is_zero]. discriminate.
Qed.

(** [x / 1000] is NaN for a NaN [x] only. *)
Lemma py_truediv_1000_not_nan (g : pynum) (sf : spec_float) :
  g <> PFloat S754_nan -> py_truediv g (PInt 1000) = Ok sf -> sf <> S754_nan.
Proof.
  intros Hg H. destruct g as [z|x].
  - apply py_truediv_int_finite in H. destruct H as [H _]. intros ->.
    discriminate.
  - cbn [py_truediv py_to_float bind] in H. rewrite py_float_1000 in H.
    cbn [bind is_zero] in H. inversion H; subst. clear H.
    destruct x as [s|s| |s m ex]; cbn [div]; try discriminate;
      try apply SFround_not_nan.
    congruence.
Qed.

Lemma calculate_ada_spaces_raise (n : Z) (e : pyexn) :
  calculate_ada_spaces n = Raise e -> e = OverflowError.
Proof.
  unfold calculate_ada_spaces. destruct (n <=? 0); [discriminate|].
  destruct (ada_scan _ _); [discriminate|]. intros H.
  apply bind_raise_inv in H.
  destruct H as [H|(q & Eq & H)];
    [apply (py_truediv_int_raise (n - 1000) 100 e); [discriminate | exact H]|].
  apply py_truediv_int_finite in Eq. destruct Eq as [Eq _].
  rewrite (py_ceil_finite q Eq) in H.
  discriminate.
Qed.

Lemma calculate_van_accessible_raise (n : Z) (e : pyexn) :
  calculate_van_accessible n = Raise e -> e = OverflowError.
Proof.
  unfold calculate_van_accessible. intros H.
  apply bind_raise_inv in H.
  destruct H as [H|(q & Eq & H)];
    [apply (py_truediv_int_raise n 6 e); [discriminate | exact H]|].
  apply py_truediv_int_finite in Eq. destruct Eq as [Eq _].
  rewrite (py_ceil_finite q Eq) in H.
  discriminate.
Qed.

Section NonZero.
Local Open Scope Q_scope.

(** A magnitude of at least 1 does not round to zero. *)
Lemma SFround_not_zero (s : bool) (a : Q) :
  1 <= a -> is_zero (SFround s a) = false.
Proof.
  intros Ha. assert (H0 : 0 < a) by lra.
  assert (Hl : (0 <= Qlog2_floor a)%Z).
  { replace 0%Z with (Qlog2_floor 1) by reflexivity.
    apply Qlog2_floor_mono; [reflexivity | exact Ha]. }
  assert (He : (emin < ulp_exp a)%Z) by (unfold ulp_exp, prec, emin; lia).
  pose proof (mantissa_lower a H0 He) as Hm.
  unfold SFround, round_mag.
  set (m := Qrne (a / 2 ^ ulp_exp a)) in *. clearbody m.
  assert (P : (0 < 2 ^ (prec - 1))%Z) by (apply Z.pow_pos_nonneg; unfold prec; lia).
  destruct (m =? 2 ^ prec)%Z.
  - destruct (2 ^ (prec - 1))%Z eqn:E; try lia.
    destruct (_ <=? _)%Z; reflexivity.
  - destruct m; try lia. destruct (_ <=? _)%Z; reflexivity.
Qed.

Lemma of_Z_not_zero (z : Z) : z <> 0%Z -> is_zero (of_Z z) = false.
Proof.
  intros Hz. unfold of_Z. apply SFround_not_zero.
  change 1 with (inject_Z 1). rewrite <- Zle_Qle. lia.
Qed.

End NonZero.


Lemma mul_not_nan (x y : spec_float) :
  is_finite x = true -> is_zero x = false -> y <> S754_nan ->
  mul x y <> S754_nan.
Proof.
  intros Fx Zx Ny.
  destruct x as [s|s| |s m ex]; try discriminate.
  destruct y as [t|t| |t n ey]; cbn [mul]; try discriminate;
    try apply SFround_not_nan.
  congruence.
Qed.

(** [math.ceil(ratio * b)] raises [ValueError] only when a NaN comes in or
    the ratio is a zero or an infinity. *)
Lemma ceil_mul_raise (ratio b : pynum) (e : pyexn) :
  ceil_mul ratio b = Raise e ->
  (e = OverflowError \/ e = ValueError) /\
  (finite_nonzero ratio -> b <> PFloat S754_nan -> e = OverflowError).
Proof.
  unfold ceil_mul. intros H. apply bind_raise_inv in H.
  destruct H as [H|(p & Ep & H)].
  { apply py_mul_raise in H. subst e. split; [left; reflexivity | reflexivity]. }
  apply py_ceil_raise in H. destruct H as [[He Hp]|[He Hp]].
  { subst e. split; [left; reflexivity | reflexivity]. }
  subst e p. split; [right; reflexivity|]. intros Hr Hb. exfalso.
  assert (G : (x <- py_to_float ratio ;; y <- py_to_float b ;;
               Ok (PFloat (mul x y))) = Ok (PFloat S754_nan) -> False).
  { intros G. destruct (py_to_float ratio) as [x|] eqn:Ex; [|discriminate].
    cbn [bind] in G. destruct (py_to_float b) as [y|] eqn:Ey; [|discriminate].
    cbn [bind] in G. destruct (Hr x Ex) as [Fx Zx].
    assert (Ny : y <> S754_nan).
    { destruct b as [z|y']; cbn [py_to_float] in Ey.
      - unfold py_float_of_int in Ey.
        pose proof (SFround_not_nan (z <? 0) (inject_Z (Z.abs z))) as N.
        fold (of_Z z) in N. destruct (of_Z z); congruence.
      - congruence. }
    apply (mul_not_nan x y Fx Zx Ny). congruence. }
  destruct ratio, b; try exact (G Ep). discriminate.
Qed.

(** The ratio that a call multiplies by is a finite non-zero number unless
    [custom_ratio] is an infinity or NaN. *)
Lemma effective_ratio_finite_nonzero (k : string) (info : ratio_info)
    (cr : option pynum) :
  lookup k PARKING_RATIOS = Some info ->
  (forall c, cr = Some c -> py_finite c = true) ->
  finite_nonzero (effective_ratio info cr).
Proof.
  intros Hl Hc.
  assert (Ht : finite_nonzero (PFloat (ri_ratio info))).
  { apply lookup_In in Hl.
    assert (A : forallb (fun e => is_finite (ri_ratio (snd e))
                                  && negb (is_zero (ri_ratio (snd e))))
                  PARKING_RATIOS = true) by (vm_compute; reflexivity).
    rewrite forallb_forall in A. specialize (A (k, info) Hl). cbn [snd] in A.
    apply andb_true_iff in A. destruct A as [A1 A2].
    intros x Hx. cbn [py_to_float] in Hx. inversion Hx; subst.
    split; [exact A1|]. destruct (is_zero (ri_ratio info)); [discriminate | reflexivity]. }
  unfold effective_ratio. destruct cr as [c|]; [|exact Ht].
  destruct (py_bool c) eqn:Eb; [|exact Ht].
  specialize (Hc c eq_refl). intros x Hx. destruct c as [z|y].
  - cbn [py_to_float] in Hx. cbn [py_bool] in Eb.
    assert (Hz : z <> 0) by (intros ->; discriminate).
    pose proof (of_Z_not_zero z Hz) as Nz.
    pose proof (SFround_not_nan (z <? 0) (inject_Z (Z.abs z))) as N.
    fold (of_Z z) in N.
    unfold py_float_of_int in Hx. destruct (of_Z z); inversion Hx; subst;
      split; try reflexivity; try discriminate; congruence.
  - cbn [py_to_float] in Hx. inversion Hx; subst. cbn [py_finite] in Hc.
    cbn [py_bool] in Eb. split; [exact Hc|].
    destruct (is_zero x); [discriminate | reflexivity].
Qed.

Lemma base_requirement_raise (branch : unit_branch) (ratio g : pynum)
    (un se : Z) (e : pyexn) :
  base_requirement branch ratio g un se = Raise e ->
  (e = OverflowError \/ e = ValueError) /\
  (finite_nonzero ratio -> g <> PFloat S754_nan -> e = OverflowError).
Proof.
  intros H.
  assert (Hint : forall n, ceil_mul ratio (PInt n) = Raise e ->
            (e = OverflowError \/ e = ValueError) /\
            (finite_nonzero ratio -> g <> PFloat S754_nan -> e = OverflowError)).
  { intros n Hn. destruct (ceil_mul_raise _ _ _ Hn) as [A B].
    split; [exact A|]. intros Hr _. apply B; [exact Hr | discriminate]. }
  assert (Hsf : (sf <- py_truediv g (PInt 1000) ;; ceil_mul ratio (PFloat sf))
                  = Raise e ->
            (e = OverflowError \/ e = ValueError) /\
            (finite_nonzero ratio -> g <> PFloat S754_nan -> e = OverflowError)).
  { intros Hs. apply bind_raise_inv in Hs. destruct Hs as [Hs|(sf & Es & Hs)].
    - apply py_truediv_1000_raise in Hs. subst e.
      split; [left; reflexivity | reflexivity].
    - destruct (ceil_mul_raise _ _ _ Hs) as [A B].
      split; [exact A|]. intros Hr Hg. apply B; [exact Hr|].
      pose proof (py_truediv_1000_not_nan g sf Hg Es). congruence. }
  destruct branch; cbn [base_requirement] in H;
    first [exact (Hint _ H) | exact (Hsf H)].
Qed.


Lemma py_is_nan_false (a : pynum) : py_is_nan a = false -> a <> PFloat S754_nan.
Proof. intros H ->. discriminate. Qed.

(** An [int] ratio is a [custom_ratio], and is not zero. *)
Lemma effective_ratio_int (info : ratio_info) (cr : option pynum) (z : Z) :
  effective_ratio info cr = PInt z -> cr = Some (PInt z) /\ z <> 0.
Proof.
  unfold effective_ratio. destruct cr as [c|]; [|discriminate].
  destruct (py_bool c) eqn:E; [|discriminate]. intros ->.
  split; [reflexivity|]. intros ->. discriminate.
Qed.

(** With a float ratio every conversion of the calculation line is made:
    the [int]s that are formatted went through a float. *)
Lemma calculation_strings_float (branch : unit_branch) (x : spec_float)
    (g : pynum) (un se c : Z) :
  base_requirement branch (PFloat x) g un se = Ok c ->
  calculation_strings branch (PFloat x) un se c = Ok tt.
Proof.
  intros H. pose proof pow2_emax_lt as P.
  assert (Bc : Z.abs c < 2 ^ (emax + 1)).
  { assert (Z.abs c <= 2 ^ emax); [|lia].
    destruct branch; cbn [base_requirement] in H;
      try match type of H with
          | bind (py_truediv _ _) _ = _ =>
              apply bind_ok_inv in H; destruct H as (sf & _ & H)
          end;
      apply (ceil_mul_bound _ _ c) in H; try exact H; intros; discriminate. }
  assert (Bi : forall n, ceil_mul (PFloat x) (PInt n) = Ok c ->
                         Z.abs n < 2 ^ (emax + 1)).
  { intros n Hn. unfold ceil_mul, py_mul in Hn. cbn [py_to_float bind] in Hn.
    destruct (py_float_of_int n) as [y|] eqn:E; [|discriminate].
    pose proof (py_float_of_int_bound n y E). lia. }
  destruct branch;
    cbn [base_requirement calculation_strings py_str_num bind] in *;
    try rewrite (py_str_int_ok un (Bi un H));
    try rewrite (py_str_int_ok se (Bi se H));
    rewrite ?(py_str_int_ok c Bc); reflexivity.
Qed.

(** The calculation line fails to be written only for an [int] ratio, on an
    [int] of more than 4300 digits. *)
Lemma calculation_strings_raise (branch : unit_branch) (ratio g : pynum)
    (un se c : Z) (e : pyexn) :
  base_requirement branch ratio g un se = Ok c ->
  calculation_strings branch ratio un se c = Raise e ->
  e = ValueError /\
  exists z, ratio = PInt z /\
    (10 ^ int_max_str_digits <= Z.abs z \/
     10 ^ int_max_str_digits <= Z.abs un \/
     10 ^ int_max_str_digits <= Z.abs se \/
     10 ^ int_max_str_digits <= Z.abs (z * un) \/
     10 ^ int_max_str_digits <= Z.abs (z * se)).
Proof.
  intros Hb H. destruct ratio as [z|x].
  2:{ rewrite (calculation_strings_float _ _ _ _ _ _ Hb) in H. discriminate. }
  assert (Hc : forall n, ceil_mul (PInt z) (PInt n) = Ok c -> c = z * n).
  { intros n Hn. unfold ceil_mul in Hn. cbn [py_mul bind py_ceil] in Hn.
    congruence. }
  assert (Hf : forall sf, ceil_mul (PInt z) (PFloat sf) = Ok c ->
                          py_str_int c = Raise e -> False).
  { intros sf Hn Hr. pose proof pow2_emax_lt as P.
    assert (B : Z.abs c <= 2 ^ emax).
    { apply (ceil_mul_bound _ _ c) in Hn; [exact Hn|]. intros; discriminate. }
    rewrite py_str_int_ok in Hr; [discriminate | lia]. }
  assert (Hz : py_str_num (PInt z) = Raise e ->
               e = ValueError /\ 10 ^ int_max_str_digits <= Z.abs z).
  { cbn [py_str_num]. apply py_str_int_raise. }
  destruct branch; cbn [base_requirement calculation_strings] in *;
    try discriminate H;
    try match type of Hb with
        | bind (py_truediv _ _) _ = _ =>
            apply bind_ok_inv in Hb; destruct Hb as (sf & _ & Hb)
        end;
    (apply bind_raise_inv in H; destruct H as [H|(? & _ & H)];
     [destruct (Hz H) as [-> D]; split; [reflexivity|]; exists z;
      split; [reflexivity|]; left; exact D|]);
    try (apply bind_raise_inv in H; destruct H as [H|(? & _ & H)];
         [apply py_str_int_raise in H; destruct H as [-> D];
          split; [reflexivity|]; exists z; split; [reflexivity|];
          first [right; left; exact D | right; right; left; exact D]|]);
    (apply bind_raise_inv in H; destruct H as [H|(? & _ & H)];
     [|discriminate H]);
    try (exfalso; exact (Hf _ Hb H));
    rewrite (Hc _ Hb) in H; apply py_str_int_raise in H;
    destruct H as [-> D]; (split; [reflexivity|]); exists z;
    (split; [reflexivity|]);
    first [right; right; right; left; exact D
          | right; right; right; right; exact D].
Qed.

(** Which exceptions [calculate_parking] raises, and where a [ValueError]
    comes from. *)
Lemma calculate_parking_raise_inv (use_type : string) (gross_sf : pynum)
    (units seats employees : Z) (custom_ratio : option pynum) (e : pyexn) :
  calculate_parking use_type gross_sf units seats employees custom_ratio
    = Raise e ->
  (e = OverflowError \/ e = ValueError) /\
  (e = ValueError ->
   py_is_nan gross_sf = true \/
   (exists c, custom_ratio = Some c /\ py_finite c = false) \/
   (exists z, custom_ratio = Some (PInt z) /\
      (10 ^ int_max_str_digits <= Z.abs z \/
       10 ^ int_max_str_digits <= Z.abs (z * units) \/
       10 ^ int_max_str_digits <= Z.abs (z * seats)))).
Proof.
  intros H.
  destruct (calculate_parking_eq use_type gross_sf units seats employees
              custom_ratio) as (info & Hl & E).
  rewrite E in H. clear E.
  assert (Hov : e = OverflowError ->
            (e = OverflowError \/ e = ValueError) /\
            (e = ValueError ->
             py_is_nan gross_sf = true \/
             (exists c, custom_ratio = Some c /\ py_finite c = false) \/
             (exists z, custom_ratio = Some (PInt z) /\
                (10 ^ int_max_str_digits <= Z.abs z \/
                 10 ^ int_max_str_digits <= Z.abs (z * units) \/
                 10 ^ int_max_str_digits <= Z.abs (z * seats))))).
  { intros ->. split; [left; reflexivity | discriminate]. }
  assert (Hdigits : forall z,
            effective_ratio info custom_ratio = PInt z ->
            10 ^ int_max_str_digits <= Z.abs z \/
            10 ^ int_max_str_digits <= Z.abs units \/
            10 ^ int_max_str_digits <= Z.abs seats \/
            10 ^ int_max_str_digits <= Z.abs (z * units) \/
            10 ^ int_max_str_digits <= Z.abs (z * seats) ->
            exists z, custom_ratio = Some (PInt z) /\
              (10 ^ int_max_str_digits <= Z.abs z \/
               10 ^ int_max_str_digits <= Z.abs (z * units) \/
               10 ^ int_max_str_digits <= Z.abs (z * seats))).
  { intros z Ez D. destruct (effective_ratio_int _ _ _ Ez) as [Ec Hz].
    exists z. split; [exact Ec|].
    rewrite !Z.abs_mul. set (L := 10 ^ int_max_str_digits) in *. clearbody L.
    assert (1 <= Z.abs z) by lia.
    destruct D as [D|[D|[D|[D|D]]]]; rewrite ?Z.abs_mul in D;
      [left; exact D | right; left; nia | right; right; nia
      | right; left; exact D | right; right; exact D]. }
  apply bind_raise_inv in H. destruct H as [H|(required & Hb & H)].
  - destruct (base_requirement_raise _ _ _ _ _ _ H) as [A B].
    split; [exact A|]. intros He.
    destruct (py_is_nan gross_sf) eqn:Eg; [left; reflexivity|]. right. left.
    destruct custom_ratio as [c|].
    + destruct (py_finite c) eqn:Ec; [|exists c; split; [reflexivity | exact Ec]].
      exfalso.
      assert (e = OverflowError); [|congruence].
      apply B; [|apply py_is_nan_false; exact Eg].
      apply (effective_ratio_finite_nonzero _ _ _ Hl).
      intros c' Hc'. inversion Hc'; subst. exact Ec.
    + exfalso.
      assert (e = OverflowError); [|congruence].
      apply B; [|apply py_is_nan_false; exact Eg].
      apply (effective_ratio_finite_nonzero _ _ _ Hl). intros c' Hc'. discriminate.
  - apply bind_raise_inv in H. destruct H as [H|(s_calc & _ & H)].
    { destruct (calculation_strings_raise _ _ _ _ _ _ _ Hb H)
        as (-> & z & Ez & D).
      split; [right; reflexivity|]. intros _. right. right.
      exact (Hdigits z Ez D). }
    apply bind_raise_inv in H. destruct H as [H|(ada & Ha & H)].
    { apply Hov. exact (calculate_ada_spaces_raise _ _ H). }
    apply bind_raise_inv in H. destruct H as [H|(van & Hv & H)].
    { apply Hov. exact (calculate_van_accessible_raise _ _ H). }
    apply bind_raise_inv in H. destruct H as [H|(s_ada & _ & H)].
    { rewrite (py_str_int_ok ada (calculate_ada_spaces_bound _ _ Ha)) in H.
      discriminate. }
    apply bind_raise_inv in H. destruct H as [H|(s_van & _ & H)].
    { rewrite (py_str_int_ok van (calculate_van_accessible_bound _ _ Hv)) in H.
      discriminate. }
    apply bind_raise_inv in H. destruct H as [H|(s_ratio & _ & H)];
      [|discriminate].
    destruct (py_str_num_raise _ _ H) as (-> & z & Ez & D).
    split; [right; reflexivity|]. intros _. right. right.
    apply (Hdigits z Ez). left. exact D.
Qed.

(** X4.  [calculate_parking] raises nothing but [OverflowError] and
    [ValueError] (no [KeyError], no [ZeroDivisionError]), and a
    [ValueError] only for a [gross_sf] that is NaN, for a [custom_ratio]
    that is an infinity or NaN, or for an [int] [custom_ratio] where the
    ratio itself, or its product with [units] or with [seats], has more than
    4300 decimal digits, the most that an [int] may have when it is turned
    into text. *)
Theorem calculate_parking_raises (use_type : string) (gross_sf : pynum)
    (units seats employees : Z) (custom_ratio : option pynum) (e : pyexn) :
  calculate_parking use_type gross_sf units seats employees custom_ratio
    = Raise e ->
  (e = OverflowError \/ e = ValueError) /\
  (e = ValueError ->
   py_is_nan gross_sf = true \/
   (exists c, custom_ratio = Some c /\ py_finite c = false) \/
   (exists z, custom_ratio = Some (PInt z) /\
      (10 ^ int_max_str_digits <= Z.abs z \/
       10 ^ int_max_str_digits <= Z.abs (z * units) \/
       10 ^ int_max_str_digits <= Z.abs (z * seats)))).
Proof. apply calculate_parking_raise_inv. Qed.

Lemma calculate_parking_raises_witness :
  calculate_parking "retail" (PFloat S754_nan) 0 0 0 None = Raise ValueError /\
  py_is_nan (PFloat S754_nan) = true.
Proof.
  assert (H : calculate_parking "retail" (PFloat S754_nan) 0 0 0 None
              = Raise ValueError) by (vm_compute; reflexivity).
  split; [exact H|].
  destruct (proj2 (calculate_parking_raises _ _ _ _ _ _ _ H) eq_refl)
    as [G|[(c & Hc & _)|(z & Hc & _)]]; [exact G | discriminate | discriminate].
Defined.

(** With an [int] ratio no float is involved, and a count of more than
    4300 digits is a [ValueError], raised when the calculation line is
    written. *)
Lemma int_ratio_long_count (un : Z) :
  10 ^ int_max_str_digits <= Z.abs un ->
  calculate_parking "hotel" (PInt 0) un 0 0 (Some (PInt 1)) = Raise ValueError.
Proof.
  intros H.
  destruct (calculate_parking_eq "hotel" (PInt 0) un 0 0 (Some (PInt 1)))
    as (info & Hl & E).
  rewrite E. clear E.
  assert (Eb : select_branch (ri_unit info) = Room).
  { vm_compute in Hl. inversion Hl; subst info. vm_compute. reflexivity. }
  assert (Er : effective_ratio info (Some (PInt 1)) = PInt 1) by reflexivity.
  rewrite Eb, Er. cbn [base_requirement].
  change (ceil_mul (PInt 1) (PInt un)) with (Ok (1 * un)).
  cbn [bind calculation_strings py_str_num].
  replace (py_str_int 1) with (Ok (str_int 1)) by (vm_compute; reflexivity).
  cbn [bind]. rewrite (py_str_int_above un H). reflexivity.
Qed.

(** Each cause in turn: an [int] too large for a float, an infinite ratio,
    an infinite floor area, and an [int] ratio with a count of 5001
    digits. *)
Lemma calculate_parking_raise_examples :
  calculate_parking "hotel" (PInt 0) (10 ^ 400) 0 0 None = Raise OverflowError /\
  calculate_parking "hotel" (PInt 0) 0 0 0 (Some (PFloat (S754_infinity false)))
    = Raise ValueError /\
  calculate_parking "retail" (PFloat (S754_infinity false)) 0 0 0 None
    = Raise OverflowError /\
  calculate_parking "hotel" (PInt 0) (10 ^ 5000) 0 0 (Some (PInt 1))
    = Raise ValueError.
Proof.
  split; [vm_compute; reflexivity|].
  split; [vm_compute; reflexivity|].
  split; [vm_compute; reflexivity|].
  apply int_ratio_long_count.
  rewrite Z.abs_eq by (apply Z.pow_nonneg; lia).
  apply Z.pow_le_mono_r; [lia | unfold int_max_str_digits; lia].
Qed.

(** ** The ratio override and the returned record *)

(** X5.  A [custom_ratio] that is zero ([0], [0.0] or [-0.0]) is falsy,
    so the call is the one without [custom_ratio]: the table's ratio is
    used, not a ratio of zero. *)
Theorem zero_custom_ratio_is_ignored (use_type : string) (gross_sf : pynum)
    (units seats employees : Z) (c : pynum) :
  py_bool c = false ->
  calculate_parking use_type gross_sf units seats employees (Some c) =
  calculate_parking use_type gross_sf units seats employees None.
Proof.
  intros H. unfold calculate_parking. rewrite H. reflexivity.
Qed.

Lemma zero_custom_ratio_is_ignored_witness :
  py_bool (PFloat (S754_zero true)) = false /\
  calculate_parking "retail" (PInt 10000) 0 0 0 (Some (PFloat (S754_zero true))) =
  calculate_parking "retail" (PInt 10000) 0 0 0 None.
Proof.
  split; [reflexivity|].
  apply (zero_custom_ratio_is_ignored "retail" (PInt 10000) 0 0 0
           (PFloat (S754_zero true))).
  reflexivity.
Defined.

(** X6.  The record that [calculate_parking] returns names the looked-up
    use type, echoes [gross_sf] and [units], gives [base_ratio] as the
    ratio's text, [" per "] and the unit, and holds the notes in this
    order: the warning (only for a use type that the table does not have),
    the entry's note, the calculation line, which quotes [required_spaces],
    and the ADA line, which quotes [ada_spaces] and the van accessible
    count of [ada_spaces]; three notes, or four. *)
Theorem returned_record_shape (use_type0 : string) (gross_sf0 : pynum)
    (units0 seats employees : Z) (custom_ratio : option pynum)
    (r : ParkingRequirement) :
  calculate_parking use_type0 gross_sf0 units0 seats employees custom_ratio
    = Ok r ->
  exists info van sf_units,
    lookup (resolve_use_type use_type0) PARKING_RATIOS = Some info /\
    calculate_van_accessible (ada_spaces r) = Ok van /\
    (select_branch (ri_unit info) = ThousandSF ->
     py_truediv gross_sf0 (PInt 1000) = Ok sf_units) /\
    use_type r = resolve_use_type use_type0 /\
    gross_sf r = gross_sf0 /\
    units r = Some units0 /\
    base_ratio r
      = str_num (effective_ratio info custom_ratio) ++ " per " ++ ri_unit info /\
    notes r
      = ((if in_dict use_type0 PARKING_RATIOS then []
          else [unknown_use_note use_type0])
           ++ [ri_notes info;
               calculation_note (select_branch (ri_unit info))
                 (effective_ratio info custom_ratio) sf_units units0 seats
                 (required_spaces r);
               ada_note (ada_spaces r) van])%list /\
    (List.length (notes r)
     = if in_dict use_type0 PARKING_RATIOS then 3%nat else 4%nat).
Proof.
  intros H.
  destruct (calculate_parking_eq use_type0 gross_sf0 units0 seats employees
              custom_ratio) as (info & Hl & E).
  rewrite E in H. clear E.
  apply bind_ok_inv in H. destruct H as (required & Hb & H).
  apply bind_ok_inv in H. destruct H as (s_calc & _ & H).
  apply bind_ok_inv in H. destruct H as (ada & Ha & H).
  apply bind_ok_inv in H. destruct H as (van & Hv & H).
  apply bind_ok_inv in H. destruct H as (s_ada & _ & H).
  apply bind_ok_inv in H. destruct H as (s_van & _ & H).
  apply bind_ok_inv in H. destruct H as (s_ratio & _ & H).
  inversion H; subst r; clear H. cbn [use_type gross_sf units base_ratio
    required_spaces ada_spaces total_spaces notes].
  exists info, van, (sf_units_of gross_sf0).
  split; [exact Hl|]. split; [exact Hv|]. split.
  { intros Hs. rewrite Hs in Hb. cbn [base_requirement] in Hb.
    unfold sf_units_of.
    destruct (py_truediv gross_sf0 (PInt 1000)); [reflexivity | discriminate]. }
  repeat (split; [reflexivity|]).
  unfold notes_of. destruct (in_dict use_type0 PARKING_RATIOS); reflexivity.
Qed.

Lemma returned_record_shape_witness :
  exists r,
    calculate_parking "retail" (PInt 2500) 0 0 0 None = Ok r /\
    notes r = ["4 spaces per 1,000 SF";
               "Calculation: 4.0 × 2.50 (1,000 SF) = 10 spaces";
               "ADA: 1 accessible spaces (1 van accessible)"] /\
    List.length (notes r) = 3%nat.
Proof.
  assert (H : exists r, calculate_parking "retail" (PInt 2500) 0 0 0 None = Ok r /\
    notes r = ["4 spaces per 1,000 SF";
               "Calculation: 4.0 × 2.50 (1,000 SF) = 10 spaces";
               "ADA: 1 accessible spaces (1 van accessible)"]).
  { eexists. split; vm_compute; reflexivity. }
  destruct H as (r & H & N). exists r. split; [exact H|]. split; [exact N|].
  destruct (returned_record_shape _ _ _ _ _ _ _ H)
    as (info & van & sf & _ & _ & _ & _ & _ & _ & _ & _ & L).
  rewrite L. reflexivity.
Defined.

(** ** Signs *)

Section NonNegative.
Local Open Scope Q_scope.

Lemma RN_0_le (q : Q) : 0 <= q -> 0 <= RN q.
Proof. intros H. rewrite (RN_nonneg q H). apply round_val_nonneg. exact H. Qed.

Lemma to_float_value_nonneg (a : pynum) :
  py_finite a = true -> py_le (PInt 0) a = true -> 0 <= to_float_value a.
Proof.
  intros Fa Ha.
  pose proof (py_le_value (PInt 0) a eq_refl Fa Ha) as Hv.
  destruct a as [z|x]; cbn [to_float_value py_value] in *; [|exact Hv].
  apply RN_0_le. exact Hv.
Qed.

(** [math.ceil(a * b)] is not negative when neither factor is. *)
Lemma ceil_mul_nonneg (a b : pynum) (c : Z) :
  py_le (PInt 0) a = true -> py_le (PInt 0) b = true ->
  ceil_mul a b = Ok c -> (0 <= c)%Z.
Proof.
  intros Ha Hb H.
  assert (G : (forall r u, a = PInt r -> b = PInt u -> False) -> (0 <= c)%Z).
  { intros N. apply ceil_mul_float_inv in H; [|exact N].
    destruct H as (Fa & Fb & ->).
    rewrite <- (Qceiling_Z 0). apply Qceiling_resp_le. apply RN_0_le.
    apply Qmult_le_0_compat; apply to_float_value_nonneg; assumption. }
  destruct a as [r|x], b as [u|y]; try (apply G; intros; discriminate).
  cbn [py_le py_value] in Ha, Hb.
  apply Qle_bool_iff in Ha. apply Qle_bool_iff in Hb.
  change 0 with (inject_Z 0) in Ha, Hb. rewrite <- Zle_Qle in Ha, Hb.
  unfold ceil_mul in H. cbn [py_mul bind py_ceil] in H.
  inversion H. nia.
Qed.

Lemma py_le_0_int (z : Z) : (0 <= z)%Z -> py_le (PInt 0) (PInt z) = true.
Proof.
  intros H. cbn [py_le py_value]. apply Qle_bool_iff.
  change 0 with (inject_Z 0). rewrite <- Zle_Qle. exact H.
Qed.

Lemma truediv_1000_nonneg (g : pynum) (sf : spec_float) :
  py_le (PInt 0) g = true -> py_truediv g (PInt 1000) = Ok sf ->
  is_finite sf = true -> py_le (PInt 0) (PFloat sf) = true.
Proof.
  intros Hg H Hf.
  destruct (truediv_1000_inv g sf H Hf) as [Fg Hv].
  pose proof (py_le_value (PInt 0) g eq_refl Fg Hg) as Hg0.
  cbn [py_value] in Hg0. change (inject_Z 0) with 0%Q in Hg0.
  assert (Hs : 0 <= SF2Q sf).
  { rewrite Hv. apply RN_0_le. apply Qle_shift_div_l; [reflexivity|]. lra. }
  destruct sf as [s|s| |s m e]; try discriminate;
    cbn [py_le py_value]; apply Qle_bool_iff; exact Hs.
Qed.

End NonNegative.

Lemma base_requirement_nonneg (branch : unit_branch) (ratio g : pynum)
    (un se c : Z) :
  py_le (PInt 0) ratio = true -> py_le (PInt 0) g = true ->
  0 <= un -> 0 <= se ->
  base_requirement branch ratio g un se = Ok c -> 0 <= c.
Proof.
  intros Hr Hg Hu Hs H.
  assert (Hsf : (sf <- py_truediv g (PInt 1000) ;; ceil_mul ratio (PFloat sf))
                  = Ok c -> 0 <= c).
  { intros G. destruct (py_truediv g (PInt 1000)) as [sf|] eqn:E; [|discriminate].
    cbn [bind] in G.
    assert (F : py_finite (PFloat sf) = true).
    { apply (ceil_mul_float_inv ratio (PFloat sf) c); [|exact G].
      intros r u _ Hd. discriminate Hd. }
    apply (ceil_mul_nonneg ratio (PFloat sf) c Hr); [|exact G].
    apply (truediv_1000_nonneg g sf Hg E F). }
  destruct branch; cbn [base_requirement] in H;
    first [ exact (Hsf H)
          | exact (ceil_mul_nonneg ratio (PInt un) c Hr (py_le_0_int un Hu) H)
          | exact (ceil_mul_nonneg ratio (PInt se) c Hr (py_le_0_int se Hs) H) ].
Qed.

(** X7.  When the effective ratio, [gross_sf], [units] and [seats] are
    not negative, every returned record has [0 <= required_spaces] and
    [0 <= ada_spaces <= required_spaces]; the accessible spaces are within
    [total_spaces]. *)
Theorem spaces_not_negative (use_type : string) (gross_sf : pynum)
    (units seats employees : Z) (custom_ratio : option pynum)
    (r : ParkingRequirement) :
  ratio_not_negative custom_ratio = true ->
  py_le (PInt 0) gross_sf = true -> 0 <= units -> 0 <= seats ->
  calculate_parking use_type gross_sf units seats employees custom_ratio
    = Ok r ->
  0 <= required_spaces r /\
  0 <= ada_spaces r <= required_spaces r /\
  ada_spaces r <= total_spaces r.
Proof.
  intros Hr Hg Hu Hs H.
  destruct (calculate_parking_inv _ _ _ _ _ _ _ H)
    as (info & ada & van & Hl & Hb & Ha & _ & _ & _ & _ & Hada & Ht).
  pose proof (effective_ratio_not_negative _ info custom_ratio Hl Hr) as Hp.
  pose proof (base_requirement_nonneg _ _ _ _ _ _ Hp Hg Hu Hs Hb) as H0.
  destruct (calculate_ada_spaces_bounds _ _ Ha) as (A0 & A1 & A2).
  rewrite Hada, Ht. split; [exact H0|].
  destruct (Z.eq_dec (required_spaces r) 0) as [E|E].
  - rewrite A1 by lia. lia.
  - assert (ada <= required_spaces r) by (apply A2; lia). lia.
Qed.

Lemma spaces_not_negative_witness :
  exists r,
    calculate_parking "church" (PInt 0) 0 250 0 None = Ok r /\
    required_spaces r = 83 /\
    0 <= ada_spaces r <= required_spaces r.
Proof.
  assert (H : exists r, calculate_parking "church" (PInt 0) 0 250 0 None = Ok r /\
                        required_spaces r = 83).
  { eexists. split; vm_compute; reflexivity. }
  destruct H as (r & H & R). exists r. split; [exact H|]. split; [exact R|].
  apply (proj1 (proj2 (spaces_not_negative "church" (PInt 0) 0 250 0 None r
                         eq_refl eq_refl ltac:(lia) ltac:(lia) H))).
Defined.

(** A negative ratio gives a negative requirement, for which no accessible
    space is counted. *)
Lemma negative_requirement_example :
  exists r,
    calculate_parking "retail" (PInt 2000) 0 0 0
      (Some (PFloat (float_lit (-1.0)))) = Ok r /\
    required_spaces r = -2 /\ ada_spaces r = 0.
Proof.
  eexists. split; [vm_compute; reflexivity|]. split; vm_compute; reflexivity.
Qed.

(** ** Calls that return *)

(** With the table's ratio, a call returns once its base requirement is
    computed and is not astronomically large: the conversions to text are
    of [int]s that came out of a float. *)
Lemma calculate_parking_of_requirement (u : string) (info : ratio_info)
    (g : pynum) (un se em : Z) (c : Z) :
  lookup (resolve_use_type u) PARKING_RATIOS = Some info ->
  base_requirement (select_branch (ri_unit info)) (PFloat (ri_ratio info))
    g un se = Ok c ->
  c <= 2 ^ 1002 ->
  exists r, calculate_parking u g un se em None = Ok r /\ required_spaces r = c.
Proof.
  intros Hl Hb Hc.
  destruct (calculate_parking_eq u g un se em None) as (info' & Hl' & E).
  assert (info' = info) by congruence. subst info'.
  cbn [effective_ratio] in E. rewrite E, Hb. cbn [bind].
  rewrite (calculation_strings_float _ _ _ _ _ _ Hb). cbn [bind].
  destruct (calculate_ada_spaces_total c Hc) as (a & Ea & Ha).
  rewrite Ea. cbn [bind].
  destruct (calculate_van_accessible_total a Ha) as (v & Ev).
  rewrite Ev. cbn [bind].
  rewrite (py_str_int_ok a (calculate_ada_spaces_bound _ _ Ea)).
  rewrite (py_str_int_ok v (calculate_van_accessible_bound _ _ Ev)).
  cbn [bind py_str_num]. eexists. split; reflexivity.
Qed.

Section AlwaysReturns.
Local Open Scope Q_scope.

(** [g / 1000] returns, and is no larger than [g], for every finite [g] of
    magnitude up to [2^k]. *)
Lemma truediv_1000_bound (g : pynum) (k : Z) :
  (emin <= k < emax - 1)%Z ->
  py_finite g = true -> Qabs (py_value g) <= 2 ^ k ->
  exists sf, py_truediv g (PInt 1000) = Ok sf /\ is_finite sf = true /\
             SFmag sf <= 2 ^ k.
Proof.
  intros Hk Hf Hb.
  assert (Hgen : forall (s : bool) (a d : Q), d == 1000 ->
            0 <= a -> a <= 2 ^ k ->
            is_finite (SFround s (a / d)) = true /\
            SFmag (SFround s (a / d)) <= 2 ^ k).
  { intros s a d Hd Ha0 Ha1.
    assert (Hq0 : 0 <= a / d) by (apply Qle_shift_div_l; lra).
    assert (Hq1 : a / d <= 2 ^ k).
    { apply Qle_shift_div_r; [lra|].
      pose proof (pow2_pos k). set (P := 2 ^ k) in *. clearbody P.
      rewrite Hd. lra. }
    assert (Hfin : is_finite (SFround s (a / d)) = true).
    { apply SFround_finite; [exact Hq0|].
      eapply Qle_lt_trans; [exact Hq1|]. apply pow2_lt. lia. }
    split; [exact Hfin|]. rewrite (SFround_mag s _ Hq0 Hfin).
    apply round_val_le_pow2; [exact Hq0 | exact Hq1 | lia]. }
  destruct g as [z|x].
  - change (Qabs (py_value (PInt z))) with (inject_Z (Z.abs z)) in Hb.
    unfold py_truediv.
    change (1000 =? 0)%Z with false. cbv iota.
    change (inject_Z (Z.abs 1000)) with 1000.
    destruct (Hgen (xorb (z <? 0)%Z (1000 <? 0)%Z) (inject_Z (Z.abs z)) 1000)
      as [F M].
    { reflexivity. }
    { change 0 with (inject_Z 0). rewrite <- Zle_Qle. lia. }
    { exact Hb. }
    set (r := SFround _ _) in *. exists r.
    split; [destruct r; try discriminate; reflexivity|]. split; assumption.
  - change (py_value (PFloat x)) with (SF2Q x) in Hb.
    change (py_finite (PFloat x)) with (is_finite x) in Hf.
    rewrite Qabs_SF2Q in Hb.
    unfold py_truediv. cbn [py_to_float bind].
    rewrite py_float_1000.
    cbn [bind is_zero].
    set (y := S754_finite false 8796093022208000 (-43)).
    assert (E : div x y = SFround (xorb (SFsign x) (SFsign y)) (SFmag x / SFmag y)).
    { destruct x; try discriminate; reflexivity. }
    exists (div x y). split; [reflexivity|]. rewrite E.
    assert (Hy : SFmag y == 1000) by reflexivity.
    destruct (Hgen (xorb (SFsign x) (SFsign y)) (SFmag x) (SFmag y) Hy
                (SFmag_nonneg x) Hb) as [F M].
    split; assumption.
Qed.

(** [float(z)] for an [int] of magnitude up to [2^k]. *)
Lemma of_Z_bound (z k : Z) :
  (0 <= k < emax - 1)%Z -> (Z.abs z <= 2 ^ k)%Z ->
  py_float_of_int z = Ok (of_Z z) /\ is_finite (of_Z z) = true /\
  SFmag (of_Z z) <= 2 ^ k.
Proof.
  intros Hk Hz.
  assert (Hlt : (Z.abs z < 2 ^ (emax - 1))%Z).
  { eapply Z.le_lt_trans; [exact Hz|]. apply Z.pow_lt_mono_r; lia. }
  destruct (of_Z_finite z Hlt) as [E F].
  split; [exact E|]. split; [exact F|].
  assert (H0 : 0 <= inject_Z (Z.abs z)).
  { change 0 with (inject_Z 0). rewrite <- Zle_Qle. lia. }
  unfold of_Z in *. rewrite (SFround_mag _ _ H0 F).
  apply round_val_le_pow2; [exact H0 | | unfold emin; lia].
  rewrite (pow2_inject k) by lia. rewrite <- Zle_Qle. exact Hz.
Qed.

(** Every ratio of the table is a finite number of magnitude at most 16. *)
Lemma table_ratios_bounded (k : string) (info : ratio_info) :
  lookup k PARKING_RATIOS = Some info ->
  is_finite (ri_ratio info) = true /\ SFmag (ri_ratio info) <= 16.
Proof.
  intros H. apply lookup_In in H.
  assert (A : forallb (fun e => is_finite (ri_ratio (snd e))
                                && Qle_bool (SFmag (ri_ratio (snd e))) 16)
                PARKING_RATIOS = true) by (vm_compute; reflexivity).
  rewrite forallb_forall in A. specialize (A (k, info) H). cbn [snd] in A.
  apply andb_true_iff in A. destruct A as [A1 A2].
  split; [exact A1 | apply Qle_bool_iff; exact A2].
Qed.

Lemma product_bound (r x : Q) :
  0 <= r -> 0 <= x -> r <= 16 -> x <= 2 ^ 990 -> r * x <= 2 ^ 1002.
Proof.
  intros Hr Hx Hr1 Hx1.
  apply Qle_trans with (16 * 2 ^ 990).
  - apply Qle_trans with (16 * x).
    + apply Qmult_le_compat_r; assumption.
    + rewrite !(Qmult_comm 16). apply Qmult_le_compat_r; [exact Hx1 | discriminate].
  - replace 1002%Z with (990 + 12)%Z by reflexivity. rewrite pow2_add.
    change (2 ^ 12) with 4096.
    pose proof (pow2_pos 990). set (P := 2 ^ 990) in *. clearbody P. lra.
Qed.

Lemma base_requirement_returns (k : string) (info : ratio_info)
    (branch : unit_branch) (g : pynum) (un se : Z) :
  lookup k PARKING_RATIOS = Some info ->
  py_finite g = true -> Qabs (py_value g) <= 2 ^ 990 ->
  (Z.abs un <= 2 ^ 990)%Z -> (Z.abs se <= 2 ^ 990)%Z ->
  exists c, base_requirement branch (PFloat (ri_ratio info)) g un se = Ok c /\
            (c <= 2 ^ 1002)%Z.
Proof.
  intros Hl Fg Hg Hu Hs.
  destruct (table_ratios_bounded k info Hl) as [Fr Br].
  pose proof (SFmag_nonneg (ri_ratio info)) as Pr.
  assert (Hint : forall n, (Z.abs n <= 2 ^ 990)%Z ->
            exists c, ceil_mul (PFloat (ri_ratio info)) (PInt n) = Ok c /\
                      (c <= 2 ^ 1002)%Z).
  { intros n Hn.
    destruct (of_Z_bound n 990) as (E & F & B); [unfold emax; lia | exact Hn|].
    destruct (ceil_mul_float_ok (ri_ratio info) (of_Z n) Fr F) as (c & Ec & Hc).
    { apply product_bound; [exact Pr | apply SFmag_nonneg | exact Br | exact B]. }
    exists c. split; [|exact Hc].
    unfold ceil_mul, py_mul in *. cbn [py_to_float bind] in *.
    rewrite E. cbn [bind]. exact Ec. }
  assert (Hsf : exists c,
            (sf <- py_truediv g (PInt 1000) ;;
             ceil_mul (PFloat (ri_ratio info)) (PFloat sf)) = Ok c /\
            (c <= 2 ^ 1002)%Z).
  { destruct (truediv_1000_bound g 990) as (sf & E & F & B);
      [unfold emin, emax; lia | exact Fg | exact Hg|].
    rewrite E. cbn [bind].
    apply (ceil_mul_float_ok (ri_ratio info) sf Fr F).
    apply product_bound; [exact Pr | apply SFmag_nonneg | exact Br | exact B]. }
  destruct branch; cbn [base_requirement];
    first [exact Hsf | exact (Hint un Hu) | exact (Hint se Hs)].
Qed.

End AlwaysReturns.

(** X8.  With the table's ratio, [calculate_parking] returns for every
    use type, known or not, whenever [gross_sf] is finite and [gross_sf],
    [units] and [seats] have magnitude at most [2^990]. *)
Theorem calculate_parking_returns (use_type : string) (gross_sf : pynum)
    (units seats employees : Z) :
  py_finite gross_sf = true ->
  (Qabs (py_value gross_sf) <= 2 ^ 990)%Q ->
  Z.abs units <= 2 ^ 990 -> Z.abs seats <= 2 ^ 990 ->
  exists r,
    calculate_parking use_type gross_sf units seats employees None = Ok r.
Proof.
  intros Fg Hg Hu Hs.
  destruct (calculate_parking_eq use_type gross_sf units seats employees None)
    as (info & Hl & _).
  destruct (base_requirement_returns _ info (select_branch (ri_unit info))
              gross_sf units seats Hl Fg Hg Hu Hs) as (c & Ec & Hc).
  destruct (calculate_parking_of_requirement use_type info gross_sf units
              seats employees c Hl Ec Hc) as (r & H & _).
  exists r. exact H.
Qed.

Lemma calculate_parking_returns_witness :
  exists r, calculate_parking "hotel" (PFloat (float_lit 1250.5)) (-3) 0 7 None = Ok r.
Proof.
  apply (calculate_parking_returns "hotel" (PFloat (float_lit 1250.5)) (-3) 0 7).
  - reflexivity.
  - vm_compute. discriminate.
  - vm_compute. discriminate.
  - vm_compute. discriminate.
Defined.

(** ** Substring tests *)

Lemma prefix_app (n post : string) : String.prefix n (n ++ post) = true.
Proof.
  induction n as [|c n IH]; cbn; [destruct post; reflexivity|].
  destruct (ascii_dec c c) as [_|N]; [exact IH | contradiction].
Qed.

Lemma prefix_inv (n h : string) :
  String.prefix n h = true -> exists post, h = n ++ post.
Proof.
  revert h. induction n as [|c n IH]; intros h H.
  - exists h. reflexivity.
  - destruct h as [|d h]; cbn in H; [discriminate|].
    destruct (ascii_dec c d) as [->|N]; [|discriminate].
    destruct (IH h H) as [post ->]. exists post. reflexivity.
Qed.

Lemma string_app_assoc (a b c : string) : (a ++ b) ++ c = a ++ b ++ c.
Proof. induction a as [|x a IH]; cbn; [reflexivity | rewrite IH; reflexivity]. Qed.

Lemma contains_step (n : string) (c : ascii) (h : string) :
  contains n (String c h)
  = if String.prefix n (String c h) then true else contains n h.
Proof. reflexivity. Qed.

Lemma contains_prefix (n h : string) :
  String.prefix n h = true -> contains n h = true.
Proof. intros H. destruct h; cbn [contains]; rewrite H; reflexivity. Qed.

(** [needle in hay] holds exactly when [hay] is [pre ++ needle ++ post]. *)
Lemma contains_intro (n pre post : string) :
  contains n (pre ++ n ++ post) = true.
Proof.
  induction pre as [|c pre IH].
  - change ("" ++ n ++ post) with (n ++ post).
    apply contains_prefix. apply prefix_app.
  - change (String c pre ++ n ++ post) with (String c (pre ++ n ++ post)).
    rewrite contains_step. rewrite IH. destruct (String.prefix _ _); reflexivity.
Qed.

Lemma contains_inv (n h : string) :
  contains n h = true -> exists pre post, h = pre ++ n ++ post.
Proof.
  induction h as [|c h IH]; intros H.
  - cbn [contains] in H. destruct (String.prefix n "") eqn:E; [|discriminate].
    destruct (prefix_inv _ _ E) as [post Hp]. exists "", post. exact Hp.
  - rewrite contains_step in H.
    destruct (String.prefix n (String c h)) eqn:E.
    + destruct (prefix_inv _ _ E) as [post Hp]. exists "", post. exact Hp.
    + destruct (IH H) as (pre & post & ->).
      exists (String c pre), post. reflexivity.
Qed.

(** A string that contains [a ++ b] contains [b]. *)
Lemma contains_suffix_of_needle (a b h : string) :
  contains (a ++ b) h = true -> contains b h = true.
Proof.
  intros H. destruct (contains_inv _ _ H) as (pre & post & ->).
  rewrite (string_app_assoc a b post), <- (string_app_assoc pre a).
  apply contains_intro.
Qed.

(** X9.  No unit string selects the [elif "classroom" in unit_type]
    branch: a string that contains ["classroom"] contains ["room"], so one
    of the four tests before it has matched. *)
Theorem classroom_branch_is_unreachable (unit_type : string) :
  select_branch unit_type <> Classroom /\
  (contains "classroom" unit_type = true ->
   select_branch unit_type = DwellingUnit \/
   select_branch unit_type = ThousandSF \/
   select_branch unit_type = Seat \/
   select_branch unit_type = Room).
Proof.
  assert (R : contains "classroom" unit_type = true ->
              contains "room" unit_type = true).
  { apply (contains_suffix_of_needle "class" "room"). }
  unfold select_branch.
  destruct (contains "dwelling unit" unit_type);
    [split; [discriminate | intros _; left; reflexivity]|].
  destruct (contains "1,000 SF" unit_type);
    [split; [discriminate | intros _; right; left; reflexivity]|].
  destruct (contains "seat" unit_type);
    [split; [discriminate | intros _; right; right; left; reflexivity]|].
  destruct (contains "room" unit_type);
    [split; [discriminate | intros _; right; right; right; reflexivity]|].
  destruct (contains "classroom" unit_type).
  - specialize (R eq_refl). discriminate.
  - split; [discriminate | intros H; discriminate].
Qed.

Lemma classroom_branch_is_unreachable_witness :
  contains "classroom" "classroom" = true /\
  select_branch "classroom" = Room.
Proof.
  split; [reflexivity|].
  destruct (proj2 (classroom_branch_is_unreachable "classroom") eq_refl)
    as [H|[H|[H|H]]]; try discriminate H. exact H.
Defined.

(** ** The mixed-use loop *)

Lemma calculate_each_cons_inv (use : use_dict) (rest : list use_dict)
    (rs : list ParkingRequirement) :
  calculate_each (use :: rest) = Ok rs ->
  exists r rs', calculate_use use = Ok r /\ calculate_each rest = Ok rs' /\
                rs = r :: rs'.
Proof.
  cbn [calculate_each]. intros H.
  apply bind_ok_inv in H. destruct H as (r & Hr & H).
  apply bind_ok_inv in H. destruct H as (rs' & Hrs & H).
  exists r, rs'. split; [exact Hr|]. split; [exact Hrs|]. congruence.
Qed.

Lemma calculate_each_cons (use : use_dict) (rest : list use_dict)
    (r : ParkingRequirement) (rs : list ParkingRequirement) :
  calculate_use use = Ok r -> calculate_each rest = Ok rs ->
  calculate_each (use :: rest) = Ok (r :: rs).
Proof. intros H1 H2. cbn [calculate_each]. rewrite H1, H2. reflexivity. Qed.

Lemma calculate_each_perm (uses uses' : list use_dict) :
  Permutation uses uses' ->
  forall rs, calculate_each uses = Ok rs ->
  exists rs', calculate_each uses' = Ok rs' /\ Permutation rs rs'.
Proof.
  induction 1 as [|x l l' _ IH|x y l|l l' l'' _ IH1 _ IH2]; intros rs H.
  - exists rs. split; [exact H | apply Permutation_refl].
  - apply calculate_each_cons_inv in H. destruct H as (r & rs0 & Hr & H0 & ->).
    destruct (IH rs0 H0) as (rs0' & E & P).
    exists (r :: rs0'). split; [apply calculate_each_cons; assumption|].
    apply perm_skip. exact P.
  - apply calculate_each_cons_inv in H. destruct H as (ry & rs0 & Hy & H0 & ->).
    apply calculate_each_cons_inv in H0. destruct H0 as (rx & rs1 & Hx & H1 & ->).
    exists (rx :: ry :: rs1).
    split; [repeat apply calculate_each_cons; assumption | apply perm_swap].
  - destruct (IH1 rs H) as (rs1 & E1 & P1).
    destruct (IH2 rs1 E1) as (rs2 & E2 & P2).
    exists rs2. split; [exact E2 | exact (Permutation_trans P1 P2)].
Qed.

Lemma sum_required_perm (rs rs' : list ParkingRequirement) :
  Permutation rs rs' -> sum_required rs = sum_required rs'.
Proof.
  unfold sum_required.
  induction 1 as [|x l l' _ IH|x y l|l l' l'' _ IH1 _ IH2]; cbn [fold_right].
  - reflexivity.
  - rewrite IH. reflexivity.
  - lia.
  - congruence.
Qed.

(** X10.  Reordering [uses] permutes the individual results and changes
    nothing else: the reordered call returns whenever the original does,
    with the same total, shared potential, reduction, ADA total and
    notes. *)
Theorem mixed_use_order_is_irrelevant (uses uses' : list use_dict)
    (res : MixedUseResult) :
  Permutation uses uses' ->
  calculate_mixed_use uses = Ok res ->
  exists res',
    calculate_mixed_use uses' = Ok res' /\
    Permutation (individual_calculations res) (individual_calculations res') /\
    total_without_sharing res' = total_without_sharing res /\
    shared_parking_potential res' = shared_parking_potential res /\
    potential_reduction res' = potential_reduction res /\
    ada_total res' = ada_total res /\
    mixed_notes res' = mixed_notes res.
Proof.
  intros P H. rewrite calculate_mixed_use_eq in H |- *.
  apply bind_ok_inv in H. destruct H as (rs & Hrs & H).
  apply bind_ok_inv in H. destruct H as (shared & Hs & H).
  apply bind_ok_inv in H. destruct H as (ada & Ha & H).
  inversion H; subst res; clear H.
  destruct (calculate_each_perm uses uses' P rs Hrs) as (rs' & E & P').
  rewrite E. cbn [bind]. rewrite <- (sum_required_perm rs rs' P').
  rewrite Hs. cbn [bind]. rewrite Ha. cbn [bind].
  eexists. split; [reflexivity|].
  cbn [individual_calculations total_without_sharing shared_parking_potential
       potential_reduction ada_total mixed_notes].
  split; [exact P'|]. repeat (split; [reflexivity|]). reflexivity.
Qed.

Lemma mixed_use_order_is_irrelevant_witness :
  exists res res',
    calculate_mixed_use retail_office_restaurant = Ok res /\
    calculate_mixed_use (rev retail_office_restaurant) = Ok res' /\
    total_without_sharing res' = total_without_sharing res /\
    ada_total res' = ada_total res.
Proof.
  assert (H : exists res, calculate_mixed_use retail_office_restaurant = Ok res).
  { eexists. vm_compute. reflexivity. }
  destruct H as (res & H).
  destruct (mixed_use_order_is_irrelevant retail_office_restaurant
              (rev retail_office_restaurant) res
              (Permutation_rev retail_office_restaurant) H)
    as (res' & H' & _ & T & _ & _ & A & _).
  exists res, res'. split; [exact H|]. split; [exact H'|]. split; assumption.
Defined.

Lemma calculate_each_app (xs ys : list use_dict) :
  calculate_each (xs ++ ys) =
  (rx <- calculate_each xs ;; ry <- calculate_each ys ;; Ok (rx ++ ry)%list).
Proof.
  induction xs as [|x xs IH].
  - cbn [calculate_each List.app bind].
    destruct (calculate_each ys); reflexivity.
  - cbn [calculate_each List.app]. rewrite IH.
    destruct (calculate_use x) as [r|]; [|reflexivity]. cbn [bind].
    destruct (calculate_each xs) as [rx|]; [|reflexivity]. cbn [bind].
    destruct (calculate_each ys) as [ry|]; reflexivity.
Qed.

(** Where a failing loop fails. *)
Lemma calculate_each_raise_inv (uses : list use_dict) (e : pyexn) :
  calculate_each uses = Raise e ->
  exists pre use post rs,
    uses = (pre ++ use :: post)%list /\
    calculate_each pre = Ok rs /\ calculate_use use = Raise e.
Proof.
  induction uses as [|u uses IH]; [discriminate|].
  cbn [calculate_each]. intros H.
  destruct (calculate_use u) as [r|e'] eqn:Eu.
  - cbn [bind] in H.
    destruct (calculate_each uses) as [rs|e''] eqn:Er; [discriminate|].
    cbn [bind] in H. assert (e'' = e) by congruence. subst e''.
    destruct (IH eq_refl) as (pre & use & post & rs & -> & Hp & Hu).
    exists (u :: pre), use, post, (r :: rs).
    split; [reflexivity|]. split; [|exact Hu].
    apply calculate_each_cons; assumption.
  - cbn [bind] in H. assert (e' = e) by congruence. subst e'.
    exists [], u, uses, []. split; [reflexivity|]. split; [reflexivity | exact Eu].
Qed.

Lemma Qceiling_085 (T : Z) :
  Qceiling (0.85 * inject_Z T) = - (- (85 * T) / 100).
Proof.
  unfold Qceiling, Qfloor. cbn [Qopp Qmult inject_Z Qnum Qden]. reflexivity.
Qed.

(** Why a mixed-use call fails: an element's call raises, or the total is
    too large. *)
Lemma calculate_mixed_use_raise_inv (uses : list use_dict) (e : pyexn) :
  calculate_mixed_use uses = Raise e ->
  (exists pre use post rs,
     uses = (pre ++ use :: post)%list /\
     calculate_each pre = Ok rs /\ calculate_use use = Raise e) \/
  (e = OverflowError /\
   exists rs, calculate_each uses = Ok rs /\
              662294062848613 <= Z.abs (sum_required rs)).
Proof.
  intros H. rewrite calculate_mixed_use_eq in H.
  apply bind_raise_inv in H. destruct H as [H|(rs & Hrs & H)].
  { left. apply calculate_each_raise_inv. exact H. }
  right.
  destruct (Z.ltb_spec (Z.abs (sum_required rs)) 662294062848613) as [Hlt|Hge].
  + exfalso. rewrite (ceil_mul_085 _ Hlt) in H. cbn [bind] in H.
    rewrite Qceiling_085 in H.
    destruct (calculate_ada_spaces_returns (- (- (85 * sum_required rs) / 100)))
      as (a & Ea).
    { set (T := sum_required rs) in *. clearbody T.
      Z.div_mod_to_equations. lia. }
    rewrite Ea in H. discriminate.
  + split; [|exists rs; split; [exact Hrs | exact Hge]].
    apply bind_raise_inv in H. destruct H as [H|(shared & _ & H)].
    * destruct (ceil_mul_raise _ _ _ H) as [_ B]. rewrite float_lit_085 in *.
      apply B; [|discriminate].
      intros x Hx. cbn [py_to_float] in Hx.
      pose proof (of_Z_not_zero (sum_required rs)) as Nz.
      assert (Hz : sum_required rs <> 0) by lia. specialize (Nz Hz).
      pose proof (SFround_not_nan (sum_required rs <? 0)
                    (inject_Z (Z.abs (sum_required rs)))) as N.
      fold (of_Z (sum_required rs)) in N.
      unfold py_float_of_int in Hx.
      destruct (of_Z (sum_required rs)); inversion Hx; subst;
        split; try reflexivity; try discriminate; congruence.
    * apply bind_raise_inv in H. destruct H as [H|(ada & _ & H)];
        [exact (calculate_ada_spaces_raise _ _ H) | discriminate].
Qed.

(** X11.  [calculate_mixed_use] raises what the [calculate_parking] call
    of the first failing element raises; and it fails only so, or, when
    every call returns, with [OverflowError] for a total of magnitude at
    least 662294062848613. *)
Theorem mixed_use_failure (uses : list use_dict) (e : pyexn) :
  (forall pre use post rs,
     uses = (pre ++ use :: post)%list ->
     calculate_each pre = Ok rs -> calculate_use use = Raise e ->
     calculate_mixed_use uses = Raise e) /\
  (calculate_mixed_use uses = Raise e ->
   (exists pre use post rs,
      uses = (pre ++ use :: post)%list /\
      calculate_each pre = Ok rs /\ calculate_use use = Raise e) \/
   (e = OverflowError /\
    exists rs, calculate_each uses = Ok rs /\
               662294062848613 <= Z.abs (sum_required rs))).
Proof.
  split.
  - intros pre use post rs -> Hp Hu.
    rewrite calculate_mixed_use_eq, calculate_each_app, Hp.
    cbn [bind calculate_each]. rewrite Hu. reflexivity.
  - apply calculate_mixed_use_raise_inv.
Qed.

Lemma mixed_use_failure_witness :
  calculate_mixed_use nan_in_the_middle = Raise ValueError.
Proof.
  assert (Hp : exists rs,
            calculate_each
              [{| d_use_type := Some "retail"; d_gross_sf := Some (PInt 10000);
                  d_units := None; d_seats := None |}] = Ok rs).
  { eexists. vm_compute. reflexivity. }
  destruct Hp as [rs Hp].
  apply (proj1 (mixed_use_failure nan_in_the_middle ValueError)
           [{| d_use_type := Some "retail"; d_gross_sf := Some (PInt 10000);
               d_units := None; d_seats := None |}]
           {| d_use_type := Some "bank"; d_gross_sf := Some (PFloat S754_nan);
              d_units := None; d_seats := None |}
           [{| d_use_type := Some "hotel"; d_gross_sf := None;
               d_units := Some (10 ^ 400); d_seats := None |}]
           rs).
  - reflexivity.
  - exact Hp.
  - vm_compute. reflexivity.
Defined.

Lemma calculate_use_raise (use : use_dict) (e : pyexn) :
  calculate_use use = Raise e ->
  (e = OverflowError \/ e = ValueError) /\
  (e = ValueError -> d_gross_sf use = Some (PFloat S754_nan)).
Proof.
  unfold calculate_use. intros H.
  destruct (calculate_parking_raise_inv _ _ _ _ _ _ _ H) as [A B].
  split; [exact A|]. intros He.
  destruct (B He) as [N|[(c & Hc & _)|(z & Hc & _)]]; try discriminate.
  destruct (d_gross_sf use) as [g|]; cbn [get] in N; [|discriminate].
  destruct g as [z|[s|s| |s m ex]]; try discriminate. reflexivity.
Qed.

(** X12.  [calculate_mixed_use] raises nothing but [OverflowError] and
    [ValueError], and a [ValueError] only when the [gross_sf] of some
    element is NaN. *)
Theorem calculate_mixed_use_raises (uses : list use_dict) (e : pyexn) :
  calculate_mixed_use uses = Raise e ->
  (e = OverflowError \/ e = ValueError) /\
  (e = ValueError ->
   exists use, In use uses /\ d_gross_sf use = Some (PFloat S754_nan)).
Proof.
  intros H.
  destruct (calculate_mixed_use_raise_inv uses e H)
    as [(pre & use & post & rs & -> & _ & Hu)|[-> _]].
  - destruct (calculate_use_raise use e Hu) as [A B].
    split; [exact A|]. intros He. exists use.
    split; [apply in_or_app; right; left; reflexivity | exact (B He)].
  - split; [left; reflexivity | discriminate].
Qed.

Lemma calculate_mixed_use_raises_witness :
  calculate_mixed_use nan_in_the_middle = Raise ValueError /\
  exists use, In use nan_in_the_middle /\
              d_gross_sf use = Some (PFloat S754_nan).
Proof.
  assert (H : calculate_mixed_use nan_in_the_middle = Raise ValueError)
    by (vm_compute; reflexivity).
  split; [exact H|].
  exact (proj2 (calculate_mixed_use_raises nan_in_the_middle ValueError H) eq_refl).
Defined.

(** X13.  For a total [T] of magnitude below 662294062848613 the shared
    potential is [floor((17 T + 19) / 20)] and the potential reduction is
    [floor(3 T / 20)]; for [T >= 0] the shared potential lies in [0, T],
    the reduction is not negative and at most 15% of [T], and the ADA
    total lies between 0 and the shared potential. *)
Theorem shared_parking_reduction (uses : list use_dict) (res : MixedUseResult) :
  calculate_mixed_use uses = Ok res ->
  Z.abs (total_without_sharing res) < 662294062848613 ->
  shared_parking_potential res = (17 * total_without_sharing res + 19) / 20 /\
  potential_reduction res = 3 * total_without_sharing res / 20 /\
  (0 <= total_without_sharing res ->
   0 <= shared_parking_potential res <= total_without_sharing res /\
   0 <= potential_reduction res /\
   100 * potential_reduction res <= 15 * total_without_sharing res /\
   0 <= ada_total res <= shared_parking_potential res).
Proof.
  intros H HT. rewrite calculate_mixed_use_eq in H.
  apply bind_ok_inv in H. destruct H as (rs & Hrs & H).
  apply bind_ok_inv in H. destruct H as (shared & Hs & H).
  apply bind_ok_inv in H. destruct H as (ada & Ha & H).
  inversion H; subst res; clear H.
  cbn [total_without_sharing shared_parking_potential potential_reduction
       ada_total] in *.
  rewrite (ceil_mul_085 _ HT), Qceiling_085 in Hs.
  assert (Es : shared = - (- (85 * sum_required rs) / 100)) by congruence.
  clear Hs.
  destruct (calculate_ada_spaces_bounds _ _ Ha) as (A0 & A1 & A2).
  set (T := sum_required rs) in *. clearbody T.
  assert (E1 : shared = (17 * T + 19) / 20).
  { subst shared. Z.div_mod_to_equations. lia. }
  split; [exact E1|]. split.
  { rewrite E1. Z.div_mod_to_equations. lia. }
  intros HT0.
  assert (S0 : 0 <= shared <= T).
  { rewrite E1. Z.div_mod_to_equations. lia. }
  split; [exact S0|]. split; [lia|]. split.
  { rewrite E1. Z.div_mod_to_equations. lia. }
  destruct (Z.eq_dec shared 0) as [E0|E0].
  - rewrite A1 by lia. lia.
  - assert (ada <= shared) by (apply A2; lia). lia.
Qed.

Lemma shared_parking_reduction_witness :
  exists res,
    calculate_mixed_use retail_office_restaurant = Ok res /\
    total_without_sharing res = 130 /\
    shared_parking_potential res = 111 /\
    potential_reduction res = 19.
Proof.
  assert (H : exists res, calculate_mixed_use retail_office_restaurant = Ok res /\
                          total_without_sharing res = 130).
  { eexists. split; vm_compute; reflexivity. }
  destruct H as (res & H & T). exists res.
  assert (HT : Z.abs (total_without_sharing res) < 662294062848613)
    by (rewrite T; reflexivity).
  destruct (shared_parking_reduction retail_office_restaurant res H HT)
    as (S & R & _).
  split; [exact H|]. split; [exact T|]. rewrite S, R, T. split; reflexivity.
Defined.

(** ** Requirements that binary64 does not disturb *)

Section ExactCounts.
Local Open Scope Q_scope.

Lemma Qceiling_half (n : Z) : Qceiling (n # 2) = ((n + 1) / 2)%Z.
Proof.
  unfold Qceiling, Qfloor. cbn [Qopp Qnum Qden].
  Z.div_mod_to_equations. lia.
Qed.

Lemma Qceiling_hundredth (n : Z) : Qceiling (n # 100) = ((n + 99) / 100)%Z.
Proof.
  unfold Qceiling, Qfloor. cbn [Qopp Qnum Qden].
  Z.div_mod_to_equations. lia.
Qed.

(** [math.ceil(ratio * u)] for a positive ratio that is [k] halves: the
    product is a binary64 number, so nothing is rounded. *)
Lemma ceil_mul_halves_exact (r : spec_float) (k u : Z) :
  is_finite r = true -> SFsign r = false ->
  2 * SFmag r == inject_Z k -> (0 <= k <= 16)%Z ->
  (Z.abs u < 2 ^ 49)%Z ->
  ceil_mul (PFloat r) (PInt u) = Ok ((k * u + 1) / 2)%Z.
Proof.
  intros Fr Sr Hr Hk Hu.
  unfold ceil_mul, py_mul. cbn [py_to_float bind].
  destruct (of_Z_finite u) as [E Fu].
  { unfold emax. assert (2 ^ 49 < 2 ^ (1024 - 1))%Z by (apply Z.pow_lt_mono_r; lia). lia. }
  rewrite E. cbn [bind].
  rewrite (mul_finite_eq r (of_Z u) Fr Fu).
  unfold of_Z at 1. rewrite SFround_sign, Sr. cbn [xorb].
  pose proof (of_Z_mag_exact u) as Hm.
  assert (Hu53 : (Z.abs u < 2 ^ prec)%Z).
  { unfold prec. assert (2 ^ 49 < 2 ^ 53)%Z by (apply Z.pow_lt_mono_r; lia). lia. }
  specialize (Hm Hu53).
  set (n := Z.abs u) in *.
  set (a := SFmag r * SFmag (of_Z u)).
  assert (Ea : a == inject_Z (k * n) * 2 ^ (-1)).
  { unfold a. rewrite Hm, inject_Z_mult, <- Hr. change (2 ^ (-1)) with (1 # 2).
    ring. }
  assert (HM : (0 <= k * n < 2 ^ prec)%Z).
  { unfold prec. change (2 ^ 53)%Z with (16 * 2 ^ 49)%Z. nia. }
  assert (Ha0 : 0 <= a).
  { rewrite Ea. apply Qmult_le_0_compat; [|discriminate].
    change 0 with (inject_Z 0). rewrite <- Zle_Qle. lia. }
  assert (Hx : round_val a == a).
  { apply (round_val_exact a (k * n) (-1) Ea HM). unfold emin. lia. }
  assert (Hfin : is_finite (SFround (u <? 0)%Z a) = true).
  { apply SFround_finite; [exact Ha0|].
    apply Qlt_trans with (2 ^ 53).
    - rewrite Ea. change (2 ^ (-1)) with (1 # 2).
      assert (inject_Z (k * n) < 2 ^ 53).
      { rewrite (pow2_inject 53) by lia. rewrite <- Zlt_Qlt. exact (proj2 HM). }
      set (P := 2 ^ 53) in *. pose proof (pow2_pos 53). fold P in H0.
      set (X := inject_Z (k * n)) in *. clearbody P X. lra.
    - apply pow2_lt. unfold emax. lia. }
  rewrite (py_ceil_finite _ Hfin). f_equal.
  rewrite <- Qceiling_half.
  apply Qceiling_comp.
  unfold SF2Q. rewrite SFround_sign.
  pose proof (SFround_mag (u <? 0)%Z a Ha0 Hfin) as Hmag.
  rewrite (Qmake_Qdiv (k * u) 2). change (inject_Z (Z.pos 2)) with 2.
  change (2 ^ (-1)) with (1 # 2) in Ea.
  destruct (Z.ltb_spec u 0) as [Hneg|Hpos]; rewrite Hmag, Hx, Ea.
  - replace (k * u)%Z with (- (k * n))%Z by (unfold n; nia).
    rewrite inject_Z_opp. field.
  - replace (k * u)%Z with (k * n)%Z by (unfold n; nia). field.
Qed.

Lemma float_lit_033 :
  float_lit 0.33 = S754_finite false 5944751508129055 (-54).
Proof. vm_compute. reflexivity. Qed.

(** [math.ceil(0.33 * s)] is the exact ceiling of [33 s / 100] for
    [0 <= s <= 2^48], although the binary64 number nearest to 0.33 lies
    above it. *)
Lemma ceil_mul_033_exact (s : Z) :
  (0 <= s <= 2 ^ 48)%Z ->
  ceil_mul (PFloat (float_lit 0.33)) (PInt s) = Ok ((33 * s + 99) / 100)%Z.
Proof.
  intros Hs. rewrite float_lit_033.
  destruct (Z.eq_dec s 0) as [->|Hnz]; [vm_compute; reflexivity|].
  set (f := S754_finite false 5944751508129055 (-54)).
  unfold ceil_mul, py_mul. cbn [py_to_float bind].
  destruct (of_Z_finite s) as [E Fu].
  { unfold emax. assert (2 ^ 48 < 2 ^ (1024 - 1))%Z by (apply Z.pow_lt_mono_r; lia). lia. }
  rewrite E. cbn [bind].
  rewrite (mul_finite_eq f (of_Z s) eq_refl Fu).
  unfold of_Z at 1. rewrite SFround_sign. cbn [SFsign f xorb].
  replace (s <? 0)%Z with false by (symmetry; apply Z.ltb_ge; lia).
  pose proof (of_Z_mag_exact s) as Hm.
  assert (Hs53 : (Z.abs s < 2 ^ prec)%Z).
  { unfold prec. assert (2 ^ 48 < 2 ^ 53)%Z by (apply Z.pow_lt_mono_r; lia). lia. }
  specialize (Hm Hs53). replace (Z.abs s) with s in Hm by lia.
  assert (Hd : SFmag f == 5944751508129055 # 18014398509481984) by reflexivity.
  set (a := SFmag f * SFmag (of_Z s)).
  set (N := inject_Z s) in *.
  assert (HN : 1 <= N).
  { unfold N. change 1 with (inject_Z 1). rewrite <- Zle_Qle. lia. }
  assert (HN2 : N <= 281474976710656).
  { unfold N. change 281474976710656 with (inject_Z (2 ^ 48)).
    rewrite <- Zle_Qle. lia. }
  assert (Ea : a == (33 # 100) * N + N * (7 # 450359962737049600)).
  { unfold a. rewrite Hm, Hd. field. }
  assert (Hapos : 0 < a) by lra.
  assert (Ha47 : a < 2 ^ 47).
  { change (2 ^ 47) with 140737488355328. lra. }
  assert (Hfin : is_finite (SFround false a) = true).
  { apply SFround_finite; [lra|].
    apply Qlt_trans with (2 ^ 47); [exact Ha47 | apply pow2_lt; unfold emax; lia]. }
  rewrite (py_ceil_finite _ Hfin). f_equal.
  pose proof (SFround_mag false a ltac:(lra) Hfin) as Hmag.
  unfold SF2Q. rewrite SFround_sign.
  pose proof (pow2_ulp_le a (-6) Hapos Ha47 ltac:(unfold emin; lia)) as Hu.
  change (2 ^ (-6)) with (1 # 64) in Hu.
  destruct (round_val_error a) as [Hlo Hhi].
  set (c := ((33 * s + 99) / 100)%Z).
  assert (Hc : (100 * (c - 1) + 1 <= 33 * s <= 100 * c)%Z).
  { unfold c. Z.div_mod_to_equations. lia. }
  assert (Hc0 : (0 < c)%Z) by lia.
  assert (Hcub : (c < 2 ^ prec)%Z).
  { unfold prec. assert (2 ^ 48 < 2 ^ 53)%Z by (apply Z.pow_lt_mono_r; lia). lia. }
  assert (Hq1 : 100 * (inject_Z c - 1) + 1 <= 33 * N).
  { destruct Hc as [Hc _]. rewrite Zle_Qle in Hc. distribute_inject_in Hc.
    exact Hc. }
  assert (Hq2 : 33 * N <= 100 * inject_Z c).
  { destruct Hc as [_ Hc]. rewrite Zle_Qle in Hc. distribute_inject_in Hc.
    exact Hc. }
  clearbody c.
  apply Qceiling_unique; rewrite Hmag.
  - clearbody N a. lra.
  - assert (C : (33 * s = 100 * c \/ 33 * s + 1 <= 100 * c)%Z) by lia.
    destruct C as [C|C].
    + assert (Cq : 33 * N == 100 * inject_Z c).
      { unfold N. change 33 with (inject_Z 33). change 100 with (inject_Z 100).
        rewrite <- !inject_Z_mult. f_equiv. exact C. }
      pose proof (ulp_exp_upper a Hapos) as Hup.
      rewrite pow2_add in Hup. change (2 ^ prec) with 9007199254740992 in Hup.
      pose proof (pow2_pos (ulp_exp a)) as Hp.
      assert (Hx : round_val a == inject_Z c).
      { apply round_val_near_int; [exact Hapos | | |].
        - apply ulp_exp_le; [exact Hapos | | unfold emin; lia].
          apply Qlt_trans with (2 ^ 47); [exact Ha47 | apply pow2_lt; unfold prec; lia].
        - set (U := 2 ^ ulp_exp a) in *. clearbody U N a. lra.
        - set (U := 2 ^ ulp_exp a) in *. clearbody U N a. lra. }
      rewrite Hx. lra.
    + assert (Cq : 33 * N + 1 <= 100 * inject_Z c).
      { rewrite Zle_Qle in C. distribute_inject_in C. exact C. }
      rewrite <- (round_val_inject c) by lia.
      apply round_val_mono; clearbody N a; lra.
Qed.

End ExactCounts.

Lemma resolve_known (u : string) (info : ratio_info) :
  lookup u PARKING_RATIOS = Some info -> resolve_use_type u = u.
Proof.
  intros H. unfold resolve_use_type, in_dict. rewrite H. reflexivity.
Qed.

Lemma small_le_pow2_1002 (c : Z) : c <= 2 ^ 53 -> c <= 2 ^ 1002.
Proof.
  intros H. pose proof (pow2_Z_le 53 1002 ltac:(lia)). lia.
Qed.

Lemma count_entry_exact (u : string) (info : ratio_info) (k : Z)
    (g : pynum) (un se em : Z) :
  lookup u PARKING_RATIOS = Some info ->
  select_branch (ri_unit info) = DwellingUnit \/
  select_branch (ri_unit info) = Room ->
  is_finite (ri_ratio info) = true -> SFsign (ri_ratio info) = false ->
  (2 * SFmag (ri_ratio info) == inject_Z k)%Q -> 0 <= k <= 16 ->
  Z.abs un < 2 ^ 49 ->
  exists info' r,
    lookup u PARKING_RATIOS = Some info' /\
    (2 * SF2Q (ri_ratio info') == inject_Z k)%Q /\
    calculate_parking u g un se em None = Ok r /\
    required_spaces r = (k * un + 1) / 2.
Proof.
  intros Hl Hb Fr Sr Hr Hk Hu. exists info.
  assert (G : exists r, calculate_parking u g un se em None = Ok r /\
                        required_spaces r = (k * un + 1) / 2);
    [|destruct G as (r & H & E); exists r; split; [exact Hl|];
      split; [unfold SF2Q; rewrite Sr; exact Hr|]; split; assumption].
  apply (calculate_parking_of_requirement u info).
  - rewrite (resolve_known u info Hl). exact Hl.
  - cbn [effective_ratio].
    destruct Hb as [-> | ->]; cbn [base_requirement];
      apply ceil_mul_halves_exact; assumption.
  - apply small_le_pow2_1002. change (2 ^ 53) with (16 * 2 ^ 49).
    Z.div_mod_to_equations. nia.
Qed.

(** X14.  For the entries counted per dwelling unit, room or classroom,
    whose ratios are [k / 2] with [k] as [unit_count_halves] lists it, and
    [|units| < 2^49], the call returns whatever [gross_sf] and [seats] are,
    and [required_spaces] is exactly [ceiling(k * units / 2)]: binary64
    rounds nothing here. *)
Theorem unit_count_requirement_is_exact (use_type : string) (k : Z)
    (gross_sf : pynum) (units seats employees : Z) :
  In (use_type, k) unit_count_halves ->
  Z.abs units < 2 ^ 49 ->
  exists info r,
    lookup use_type PARKING_RATIOS = Some info /\
    (2 * SF2Q (ri_ratio info) == inject_Z k)%Q /\
    calculate_parking use_type gross_sf units seats employees None = Ok r /\
    required_spaces r = (k * units + 1) / 2 /\
    2 * required_spaces r - 1 <= k * units <= 2 * required_spaces r.
Proof.
  intros Hin Hu.
  assert (G : exists info r,
            lookup use_type PARKING_RATIOS = Some info /\
            (2 * SF2Q (ri_ratio info) == inject_Z k)%Q /\
            calculate_parking use_type gross_sf units seats employees None = Ok r /\
            required_spaces r = (k * units + 1) / 2).
  { unfold unit_count_halves in Hin. cbn [In] in Hin.
    repeat (destruct Hin as [Hin|Hin];
            [inversion Hin; subst use_type k;
             eapply count_entry_exact;
             [ vm_compute; reflexivity
             | first [left; vm_compute; reflexivity | right; vm_compute; reflexivity]
             | vm_compute; reflexivity
             | vm_compute; reflexivity
             | vm_compute; reflexivity
             | lia
             | exact Hu ]
            |]).
    contradiction. }
  destruct G as (info & r & Hl & Hr & H & E). exists info, r.
  split; [exact Hl|]. split; [exact Hr|]. split; [exact H|]. split; [exact E|].
  rewrite E. Z.div_mod_to_equations. lia.
Qed.

Lemma unit_count_requirement_is_exact_witness :
  exists r,
    calculate_parking "multi_family" (PInt 0) 51 0 0 None = Ok r /\
    required_spaces r = 77.
Proof.
  destruct (unit_count_requirement_is_exact "multi_family" 3 (PInt 0) 51 0 0)
    as (info & r & _ & _ & H & E & _).
  - right. left. reflexivity.
  - reflexivity.
  - exists r. split; [exact H | exact E].
Defined.

(** X15.  For ["church"] and [0 <= seats <= 2^48] the call returns and
    [required_spaces] is exactly [ceiling(33 * seats / 100)], although the
    binary64 number for 0.33 lies above 0.33; 300 seats take 99 spaces,
    not the 100 of the entry's note, 1 space per 3 seats. *)
Theorem church_requirement_is_exact (gross_sf : pynum)
    (units seats employees : Z) :
  0 <= seats <= 2 ^ 48 ->
  exists r,
    calculate_parking "church" gross_sf units seats employees None = Ok r /\
    required_spaces r = (33 * seats + 99) / 100 /\
    100 * (required_spaces r - 1) < 33 * seats <= 100 * required_spaces r.
Proof.
  intros Hs.
  assert (G : exists r,
            calculate_parking "church" gross_sf units seats employees None = Ok r /\
            required_spaces r = (33 * seats + 99) / 100).
  { eapply (calculate_parking_of_requirement "church").
    - vm_compute. reflexivity.
    - cbn [effective_ratio ri_ratio ri_unit].
      change (select_branch "seat") with Seat. cbn [base_requirement].
      apply ceil_mul_033_exact. exact Hs.
    - apply small_le_pow2_1002.
      assert (2 ^ 48 < 2 ^ 53) by (apply Z.pow_lt_mono_r; lia).
      Z.div_mod_to_equations. lia. }
  destruct G as (r & H & E). exists r. split; [exact H|]. split; [exact E|].
  rewrite E. Z.div_mod_to_equations. lia.
Qed.

Lemma church_requirement_is_exact_witness :
  exists r,
    calculate_parking "church" (PInt 0) 0 300 0 None = Ok r /\
    required_spaces r = 99.
Proof.
  destruct (church_requirement_is_exact (PInt 0) 0 300 0) as (r & H & E & _).
  - split; [lia | vm_compute; discriminate].
  - exists r. split; [exact H | exact E].
Defined.

(** ** Dividing and multiplying back *)

Section RoundTrip.
Local Open Scope Q_scope.

(** Round-to-nearest-even sends everything within one half of an even
    integer to that integer, the two ties included. *)
Lemma Qrne_even (x : Q) (K : Z) :
  Z.even K = true ->
  2 * inject_Z K - 1 <= 2 * x -> 2 * x <= 2 * inject_Z K + 1 ->
  Qrne x = K.
Proof.
  intros He H1 H2. unfold Qrne.
  pose proof (Qfloor_le x) as F1. pose proof (Qlt_floor x) as F2.
  set (f := Qfloor x) in *. clearbody f.
  rewrite inject_Z_plus in F2. change (inject_Z 1) with 1 in F2.
  assert (L : forall a b : Z, inject_Z a < inject_Z b + 1 -> (a <= b)%Z).
  { intros a b H. change 1 with (inject_Z 1) in H.
    rewrite <- inject_Z_plus, <- Zlt_Qlt in H. lia. }
  destruct (Qcompare_spec (x - inject_Z f) (1 # 2)) as [E|E|E].
  - assert (A : (K - 1 <= f)%Z).
    { apply L. distribute_inject. change (inject_Z 1) with 1. lra. }
    assert (B : (f <= K)%Z) by (apply L; lra).
    destruct (Z.even f) eqn:Ef.
    + destruct (Z.eq_dec f K) as [->|N]; [reflexivity|].
      assert (f = K - 1)%Z by lia. subst f.
      rewrite Z.even_sub, He in Ef. discriminate.
    + destruct (Z.eq_dec f K) as [->|N]; [congruence | lia].
  - assert (A : (K <= f)%Z) by (apply L; lra).
    assert (B : (f <= K)%Z) by (apply L; lra).
    lia.
  - assert (A : (f + 1 <= K)%Z).
    { apply L. rewrite inject_Z_plus. change (inject_Z 1) with 1. lra. }
    assert (B : (K <= f + 1)%Z).
    { apply L. rewrite inject_Z_plus. change (inject_Z 1) with 1. lra. }
    lia.
Qed.

Lemma pow2_cancel (e : Z) : 2 ^ (- e) * 2 ^ e == 1.
Proof. rewrite <- pow2_add. replace (- e + e)%Z with 0%Z by lia. reflexivity. Qed.

(** Dividing a whole number by 5 or by 10 and multiplying the rounded
    quotient back gives, after the second rounding, the number itself. *)
Lemma div_mul_round_trip (n d0 c : Z) :
  (n = 5 /\ d0 = 2 \/ n = 10 /\ d0 = 3)%Z ->
  (1 <= c < 2 ^ 40)%Z ->
  round_val (inject_Z n * round_val (inject_Z c / inject_Z n)) == inject_Z c.
Proof.
  intros Hn Hc.
  assert (Hn0 : (n = 5 \/ n = 10)%Z) by lia.
  set (N := inject_Z n).
  assert (HN : N == 5 \/ N == 10).
  { unfold N. destruct Hn0 as [-> | ->]; [left | right]; reflexivity. }
  assert (HNpos : 0 < N) by (destruct HN as [E|E]; rewrite E; reflexivity).
  set (C := inject_Z c).
  assert (HC1 : 1 <= C).
  { unfold C. change 1 with (inject_Z 1). rewrite <- Zle_Qle. lia. }
  assert (HC2 : C < 1099511627776).
  { unfold C. change 1099511627776 with (inject_Z (2 ^ 40)).
    rewrite <- Zlt_Qlt. lia. }
  set (x0 := C / N).
  assert (Ex0 : x0 * N == C) by (unfold x0; field; lra).
  assert (Hx0a : 1 # 16 <= x0).
  { apply Qle_shift_div_l; [exact HNpos|]. destruct HN as [E|E]; rewrite E; lra. }
  assert (Hx0b : x0 < 2 ^ 39).
  { apply Qlt_shift_div_r; [exact HNpos|]. change (2 ^ 39) with 549755813888.
    destruct HN as [E|E]; rewrite E; lra. }
  assert (Hx0pos : 0 < x0) by lra.
  (* the first rounding *)
  assert (Hl0 : (-4 <= Qlog2_floor x0)%Z).
  { rewrite <- (Qlog2_floor_pow2 (-4)).
    apply Qlog2_floor_mono; [apply pow2_pos | exact Hx0a]. }
  assert (He0 : ulp_exp x0 = (Qlog2_floor x0 - 52)%Z).
  { unfold ulp_exp, prec, emin. lia. }
  assert (He0ub : (ulp_exp x0 <= -14)%Z).
  { apply ulp_exp_le; [exact Hx0pos | exact Hx0b | unfold emin; lia]. }
  assert (He0lb : (emin < ulp_exp x0)%Z) by (unfold emin; lia).
  pose proof (mantissa_lower x0 Hx0pos He0lb) as HM1.
  pose proof (mantissa_upper x0 Hx0pos) as HM2.
  pose proof (round_val_eq x0) as Hsf.
  pose proof (Qrne_bounds (x0 / 2 ^ ulp_exp x0)) as [HB1 HB2].
  pose proof (Qdiv_pow2_mul x0 (ulp_exp x0)) as Hy.
  pose proof (Qlog2_floor_spec x0 Hx0pos) as [HL1 _].
  set (l0 := Qlog2_floor x0) in *.
  set (e0 := ulp_exp x0) in *.
  set (M := Qrne (x0 / 2 ^ e0)) in *.
  set (y := x0 / 2 ^ e0) in *.
  set (T := (2 ^ (- e0))%Z).
  assert (HT : inject_Z T == 2 ^ (- e0)).
  { unfold T. symmetry. apply pow2_inject. lia. }
  pose proof (pow2_cancel e0) as HTU.
  pose proof (pow2_pos e0) as HU.
  assert (EyN : y * N == inject_Z (c * T)).
  { rewrite inject_Z_mult, HT. fold C. rewrite <- Ex0, <- Hy.
    set (U := 2 ^ e0) in *. set (V := 2 ^ (- e0)) in *.
    clearbody U V y. 
    transitivity (y * N * (V * U)); [rewrite HTU; ring | ring]. }
  set (j := (n * M - c * T)%Z).
  assert (Hj : (n * M = c * T + j)%Z) by (unfold j; lia).
  assert (Hj2 : (- n <= 2 * j <= n)%Z).
  { assert (A : inject_Z (n * (2 * M - 1)) <= inject_Z (2 * (c * T))).
    { distribute_inject. rewrite <- EyN. fold N.
      change (inject_Z 2) with 2. change (inject_Z 1) with 1.
      set (Mq := inject_Z M) in *. clearbody Mq y.
      destruct HN as [E|E]; rewrite E; lra. }
    assert (B : inject_Z (2 * (c * T)) <= inject_Z (n * (2 * M + 1))).
    { distribute_inject. rewrite <- EyN. fold N.
      change (inject_Z 2) with 2. change (inject_Z 1) with 1.
      set (Mq := inject_Z M) in *. clearbody Mq y.
      destruct HN as [E|E]; rewrite E; lra. }
    rewrite <- Zle_Qle in A, B. lia. }
  assert (HTeven : exists T', T = (2 * T')%Z).
  { exists (2 ^ (- e0 - 1))%Z. unfold T.
    rewrite <- Z.pow_succ_r by lia. f_equal. lia. }
  assert (Hjb : (Z.abs j <= 2 ^ (d0 - 1))%Z).
  { destruct Hn as [[-> ->]|[-> ->]].
    - change (2 ^ (2 - 1))%Z with 2%Z. lia.
    - change (2 ^ (3 - 1))%Z with 4%Z. destruct HTeven as [T' HT'].
      assert (j = 2 * (5 * M - c * T'))%Z by (unfold j; rewrite HT'; lia). lia. }
  (* the product and the second rounding *)
  set (a := N * round_val x0).
  assert (Ea : a == inject_Z (n * M) * 2 ^ e0).
  { unfold a. rewrite Hsf, inject_Z_mult. fold N. ring. }
  assert (Ea2 : a == C + inject_Z j * 2 ^ e0).
  { rewrite Ea, Hj, inject_Z_plus, inject_Z_mult, HT. fold C.
    set (U := 2 ^ e0) in *. set (V := 2 ^ (- e0)) in *. clearbody U V.
    transitivity (C * (V * U) + inject_Z j * U); [ring | rewrite HTU; ring]. }
  assert (HnM : (2 ^ d0 * 2 ^ 52 <= n * M)%Z).
  { unfold prec in HM1. change (2 ^ (53 - 1))%Z with (2 ^ 52)%Z in HM1.
    destruct Hn as [[-> ->]|[-> ->]].
    - change (2 ^ 2)%Z with 4%Z. lia.
    - change (2 ^ 3)%Z with 8%Z. lia. }
  assert (Hd0 : (2 <= d0 <= 3)%Z) by lia.
  assert (Hage : 2 ^ (l0 + d0) <= a).
  { rewrite Ea. replace (l0 + d0)%Z with (d0 + 52 + e0)%Z by lia.
    rewrite pow2_add. apply Qmult_le_compat_r; [|apply Qlt_le_weak; exact HU].
    rewrite pow2_add. rewrite (pow2_inject d0), (pow2_inject 52) by lia.
    rewrite <- inject_Z_mult, <- Zle_Qle. exact HnM. }
  assert (Hapos : 0 < a).
  { eapply Qlt_le_trans; [apply (pow2_pos (l0 + d0)) | exact Hage]. }
  assert (Hjq : - (2 ^ (d0 - 1)) <= inject_Z j /\ inject_Z j <= 2 ^ (d0 - 1)).
  { rewrite (pow2_inject (d0 - 1)) by lia. rewrite <- inject_Z_opp, <- !Zle_Qle. lia. }
  assert (HU14 : 2 ^ e0 <= 1 # 16384).
  { change (1 # 16384) with (2 ^ (-14)). apply pow2_le. exact He0ub. }
  assert (Hjd : - (1 # 2048) <= inject_Z j * 2 ^ e0 /\ inject_Z j * 2 ^ e0 <= 1 # 2048).
  { assert (P4 : 2 ^ (d0 - 1) <= 4).
    { change 4 with (2 ^ 2). apply pow2_le. lia. }
    set (J := inject_Z j) in *. set (U := 2 ^ e0) in *. set (P := 2 ^ (d0 - 1)) in *.
    clearbody J U P.
    assert (J * U <= 4 * U) by (apply Qmult_le_compat_r; lra).
    assert (-4 * U <= J * U) by (apply Qmult_le_compat_r; lra).
    lra. }
  assert (Ha52 : a < 2 ^ (-1 + prec)).
  { change (2 ^ (-1 + prec)) with 4503599627370496.
    set (JU := inject_Z j * 2 ^ e0) in *. clearbody JU a. lra. }
  assert (He1ub : (ulp_exp a <= -1)%Z).
  { apply ulp_exp_le; [exact Hapos | exact Ha52 | unfold emin; lia]. }
  assert (He1lb : (e0 + d0 <= ulp_exp a)%Z).
  { assert (Hl1 : (l0 + d0 <= Qlog2_floor a)%Z).
    { rewrite <- (Qlog2_floor_pow2 (l0 + d0)).
      apply Qlog2_floor_mono; [apply pow2_pos | exact Hage]. }
    unfold ulp_exp at 1. unfold prec. lia. }
  rewrite round_val_eq. fold a.
  set (e1 := ulp_exp a) in *.
  set (K := (c * 2 ^ (- e1))%Z).
  assert (HKeven : Z.even K = true).
  { unfold K. rewrite Z.even_mul.
    replace (- e1)%Z with (Z.succ (- e1 - 1)) by lia.
    rewrite Z.pow_succ_r by lia. rewrite Z.even_mul. cbn. apply orb_true_r. }
  assert (HKq : inject_Z K == C * 2 ^ (- e1)).
  { unfold K. rewrite inject_Z_mult, <- pow2_inject by lia. reflexivity. }
  pose proof (pow2_cancel e1) as HV1.
  assert (Ez : a / 2 ^ e1 == inject_Z K + inject_Z j * 2 ^ (e0 - e1)).
  { rewrite Ea2, HKq.
    replace (e0 - e1)%Z with (e0 + - e1)%Z by lia. rewrite pow2_add.
    unfold Qdiv. rewrite <- Qpower_opp. ring. }
  assert (Hf : - (1 # 2) <= inject_Z j * 2 ^ (e0 - e1) /\
               inject_Z j * 2 ^ (e0 - e1) <= 1 # 2).
  { assert (P1 : 2 ^ (e0 - e1) <= 2 ^ (- d0)) by (apply pow2_le; lia).
    pose proof (pow2_pos (e0 - e1)) as P0.
    assert (P2 : 2 ^ (d0 - 1) * 2 ^ (- d0) == 1 # 2).
    { rewrite <- pow2_add. replace (d0 - 1 + - d0)%Z with (-1)%Z by lia.
      reflexivity. }
    pose proof (pow2_pos (d0 - 1)) as P3. pose proof (pow2_pos (- d0)) as P4.
    set (J := inject_Z j) in *. set (W := 2 ^ (e0 - e1)) in *.
    set (P := 2 ^ (d0 - 1)) in *. set (D := 2 ^ (- d0)) in *.
    clearbody J W P D.
    assert (J * W <= P * W) by (apply Qmult_le_compat_r; lra).
    assert (- P * W <= J * W) by (apply Qmult_le_compat_r; lra).
    assert (P * W <= P * D).
    { rewrite !(Qmult_comm P). apply Qmult_le_compat_r; lra. }
    lra. }
  assert (Hr : Qrne (a / 2 ^ e1) = K).
  { apply Qrne_even; [exact HKeven | |]; rewrite Ez;
      set (F := inject_Z j * 2 ^ (e0 - e1)) in *; clearbody F; lra. }
  rewrite Hr, HKq.
  transitivity (C * (2 ^ (- e1) * 2 ^ e1)); [ring | rewrite HV1; ring].
Qed.

End RoundTrip.

(** ** Floor areas *)

Section ExactFloorArea.
Local Open Scope Q_scope.

(** The quotient of two [int]s, the dividend not negative and the divisor
    positive. *)
Lemma truediv_nonneg_eq (k d : Z) :
  (0 <= k)%Z -> (0 < d)%Z -> inject_Z k / inject_Z d < 2 ^ (emax - 1) ->
  py_truediv (PInt k) (PInt d) = Ok (SFround false (inject_Z k / inject_Z d)) /\
  is_finite (SFround false (inject_Z k / inject_Z d)) = true.
Proof.
  intros Hk Hd Hlt.
  assert (Hdq : 0 < inject_Z d) by (change 0 with (inject_Z 0); rewrite <- Zlt_Qlt; lia).
  assert (Hkq : 0 <= inject_Z k) by (change 0 with (inject_Z 0); rewrite <- Zle_Qle; lia).
  assert (Ha : 0 <= inject_Z k / inject_Z d).
  { apply Qle_shift_div_l; [exact Hdq|]. rewrite Qmult_0_l. exact Hkq. }
  unfold py_truediv.
  destruct (Z.eqb_spec d 0); [lia|].
  replace (k <? 0)%Z with false by (symmetry; apply Z.ltb_ge; lia).
  replace (d <? 0)%Z with false by (symmetry; apply Z.ltb_ge; lia).
  replace (Z.abs k) with k by lia. replace (Z.abs d) with d by lia.
  cbn [xorb].
  pose proof (SFround_finite false _ Ha Hlt) as Hf.
  split; [|exact Hf].
  destruct (SFround false (inject_Z k / inject_Z d)); try discriminate; reflexivity.
Qed.

Lemma Qceiling_2000th (n : Z) : Qceiling (n # 2000) = ((n + 1999) / 2000)%Z.
Proof.
  unfold Qceiling, Qfloor. cbn [Qopp Qnum Qden].
  Z.div_mod_to_equations. lia.
Qed.

(** [math.ceil(ratio * (g / 1000))] for a whole number [g] of square feet
    and a ratio of [k] halves: the two roundings do not move the product
    across an integer. *)
Lemma sf_requirement_exact (r : spec_float) (k g : Z) :
  is_finite r = true -> SFsign r = false ->
  2 * SFmag r == inject_Z k -> (1 <= k <= 24)%Z ->
  (Z.gcd 125 k = 1 \/ k = 10 \/ k = 20)%Z ->
  (0 <= g <= 2 ^ 40)%Z ->
  (sf <- py_truediv (PInt g) (PInt 1000) ;; ceil_mul (PFloat r) (PFloat sf))
  = Ok ((k * g + 1999) / 2000)%Z.
Proof.
  intros Fr Sr Hr Hk Hgcd Hg.
  set (x0 := inject_Z g / inject_Z 1000).
  assert (HG0 : 0 <= inject_Z g).
  { change 0 with (inject_Z 0). rewrite <- Zle_Qle. lia. }
  assert (HG1 : inject_Z g <= 1099511627776).
  { change 1099511627776 with (inject_Z (2 ^ 40)). rewrite <- Zle_Qle. lia. }
  assert (Ex0 : x0 * 1000 == inject_Z g).
  { unfold x0. change (inject_Z 1000) with 1000. field. }
  assert (Hx0 : 0 <= x0) by lra.
  assert (Hx31 : x0 < 2 ^ 31).
  { change (2 ^ 31) with 2147483648. lra. }
  destruct (truediv_nonneg_eq g 1000) as [E Fq]; [lia | lia | |].
  { fold x0. apply Qlt_trans with (2 ^ 31); [exact Hx31|].
    apply pow2_lt. unfold emax. lia. }
  fold x0 in E, Fq. rewrite E. cbn [bind].
  unfold ceil_mul, py_mul. cbn [py_to_float bind].
  rewrite (mul_finite_eq r _ Fr Fq). rewrite SFround_sign, Sr. cbn [xorb].
  pose proof (SFround_mag false x0 Hx0 Fq) as Hsf.
  set (sfv := SFmag (SFround false x0)) in *.
  set (R := SFmag r) in *.
  set (K := inject_Z k) in *.
  assert (HK1 : 1 <= K).
  { unfold K. change 1 with (inject_Z 1). rewrite <- Zle_Qle. lia. }
  assert (HK2 : K <= 24).
  { unfold K. change 24 with (inject_Z 24). rewrite <- Zle_Qle. lia. }
  assert (HR0 : 0 <= R) by lra.
  assert (HR1 : R <= 12) by lra.
  set (X := inject_Z (k * g)).
  assert (EX : X == K * inject_Z g).
  { unfold X, K. rewrite inject_Z_mult. reflexivity. }
  assert (HX0 : 0 <= X).
  { unfold X. change 0 with (inject_Z 0). rewrite <- Zle_Qle. nia. }
  assert (HX1 : X <= 26388279066624).
  { unfold X. change 26388279066624 with (inject_Z (24 * 2 ^ 40)).
    rewrite <- Zle_Qle. nia. }
  assert (ERx : R * x0 * 2000 == X).
  { rewrite EX, <- Hr, <- Ex0. ring. }
  set (c := ((k * g + 1999) / 2000)%Z).
  assert (Hc : (2000 * (c - 1) + 1 <= k * g <= 2000 * c)%Z).
  { unfold c. Z.div_mod_to_equations. lia. }
  assert (Hc0 : (0 <= c)%Z) by nia.
  assert (Hcub : (c < 2 ^ prec)%Z).
  { unfold prec. assert (k * g <= 24 * 2 ^ 40)%Z by nia.
    change (2 ^ 53)%Z with (8192 * 2 ^ 40)%Z. lia. }
  assert (Hq1 : 2000 * (inject_Z c - 1) + 1 <= X).
  { destruct Hc as [Hc _]. rewrite Zle_Qle in Hc. distribute_inject_in Hc. exact Hc. }
  assert (Hq2 : X <= 2000 * inject_Z c).
  { destruct Hc as [_ Hc]. rewrite Zle_Qle in Hc. distribute_inject_in Hc. exact Hc. }
  clearbody c.
  (* the product before the second rounding *)
  set (a := R * sfv).
  assert (Hsf0 : 0 <= sfv) by (rewrite Hsf; apply round_val_nonneg; exact Hx0).
  assert (Hsf1 : sfv <= 2 ^ 31).
  { rewrite Hsf. apply round_val_le_pow2; [exact Hx0 | lra | unfold emin; lia]. }
  assert (Ha0 : 0 <= a) by (apply Qmult_le_0_compat; assumption).
  assert (Ha35 : a < 2 ^ 35).
  { change (2 ^ 35) with 34359738368. change (2 ^ 31) with 2147483648 in Hsf1.
    assert (a <= 12 * sfv) by (apply Qmult_le_compat_r; assumption).
    clearbody a sfv. lra. }
  assert (Hfin : is_finite (SFround false a) = true).
  { apply SFround_finite; [exact Ha0|].
    apply Qlt_trans with (2 ^ 35); [exact Ha35 | apply pow2_lt; unfold emax; lia]. }
  rewrite (py_ceil_finite _ Hfin). f_equal.
  unfold SF2Q. rewrite SFround_sign.
  rewrite (Qceiling_comp _ _ (SFround_mag false a Ha0 Hfin)).
  assert (C : (k * g = 2000 * c \/ k * g + 1 <= 2000 * c)%Z) by lia.
  destruct C as [C|C].
  - (* the product is an integer *)
    rewrite <- (Qceiling_Z c). apply Qceiling_comp.
    assert (Hcase : ((125 | g) \/ (1 <= g /\ (k = 10 \/ k = 20)))%Z).
    { destruct Hgcd as [G|G].
      - left. apply (Z.gauss 125 k g); [|exact G]. exists (16 * c)%Z. lia.
      - destruct (Z.eq_dec g 0) as [->|N]; [left; apply Z.divide_0_r|].
        right. split; [lia | exact G]. }
    destruct Hcase as [[j Hj]|[Hg1 Hk10]].
    + (* [g] is a multiple of 125: nothing is rounded *)
      assert (Hj0 : (0 <= j < 2 ^ prec)%Z).
      { unfold prec. change (2 ^ 53)%Z with (8192 * 2 ^ 40)%Z. lia. }
      assert (Ej : x0 == inject_Z j * 2 ^ (-3)).
      { change (2 ^ (-3)) with (1 # 8).
        assert (inject_Z g == inject_Z j * 125).
        { rewrite Hj, inject_Z_mult. reflexivity. }
        set (J := inject_Z j) in *. clearbody J x0. lra. }
      assert (Esf : sfv == x0).
      { rewrite Hsf. apply (round_val_exact x0 j (-3) Ej Hj0). unfold emin. lia. }
      assert (Ea : a == inject_Z c).
      { unfold a. rewrite Esf.
        assert (Q : X == 2000 * inject_Z c).
        { unfold X. rewrite C, inject_Z_mult. reflexivity. }
        clearbody X x0 R.
        assert (R * x0 * 2000 == 2000 * inject_Z c) by (rewrite ERx; exact Q).
        set (P := R * x0) in *. clearbody P. lra. }
      rewrite (round_val_comp a (inject_Z c) Ha0 Ea).
      apply round_val_inject. lia.
    + (* the ratio is 5.0 or 10.0 and [g / 1000] is [c / 5] or [c / 10] *)
      assert (Hn : exists n d0,
                (n = 5 /\ d0 = 2 \/ n = 10 /\ d0 = 3)%Z /\
                R == inject_Z n /\ (g * n = 1000 * c)%Z).
      { destruct Hk10 as [-> | ->].
        - exists 5%Z, 2%Z. split; [left; split; reflexivity|].
          split; [change (inject_Z 5) with 5; change K with 10 in Hr; lra | lia].
        - exists 10%Z, 3%Z. split; [right; split; reflexivity|].
          split; [change (inject_Z 10) with 10; change K with 20 in Hr; lra | lia]. }
      destruct Hn as (n & d0 & Hn & ER & Hgn).
      assert (Hn0 : (n = 5 \/ n = 10)%Z) by lia.
      assert (Hc1 : (1 <= c < 2 ^ 40)%Z) by lia.
      set (y := inject_Z c / inject_Z n).
      assert (HNpos : 0 < inject_Z n).
      { destruct Hn0 as [-> | ->]; reflexivity. }
      assert (Ey : y * inject_Z n == inject_Z c).
      { unfold y. field. intros Z0. rewrite Z0 in HNpos. discriminate. }
      assert (Exy : x0 == y).
      { assert (Q : inject_Z g * inject_Z n == 1000 * inject_Z c).
        { rewrite <- inject_Z_mult, Hgn, inject_Z_mult. reflexivity. }
        rewrite <- Ex0, <- Ey in Q.
        assert (HN : inject_Z n == 5 \/ inject_Z n == 10).
        { destruct Hn0 as [-> | ->]; [left | right]; reflexivity. }
        set (N := inject_Z n) in *. clearbody y x0 N.
        destruct HN as [HN|HN]; rewrite HN in Q; lra. }
      assert (Ea : a == inject_Z n * round_val y).
      { unfold a. rewrite ER, Hsf, (round_val_comp x0 y Hx0 Exy). reflexivity. }
      rewrite (round_val_comp a _ Ha0 Ea).
      apply (div_mul_round_trip n d0 c Hn Hc1).
  - (* the product is at least 1/2000 away from every integer *)
    assert (Cq : X + 1 <= 2000 * inject_Z c).
    { rewrite Zle_Qle in C. distribute_inject_in C. exact C. }
    assert (Hc1 : (1 <= c)%Z) by nia.
    assert (HC1 : 1 <= inject_Z c).
    { change 1 with (inject_Z 1). rewrite <- Zle_Qle. exact Hc1. }
    assert (Hx0pos : 0 < x0).
    { destruct (Qlt_le_dec 0 x0) as [P|P]; [exact P|].
      exfalso. assert (Z0 : inject_Z g == 0) by lra.
      rewrite Z0 in EX. clearbody X K. lra. }
    pose proof (pow2_ulp_le x0 (-22) Hx0pos Hx31 ltac:(unfold emin; lia)) as Hu0.
    change (2 ^ (-22)) with (1 # 4194304) in Hu0.
    destruct (round_val_error x0) as [Hlo0 Hhi0].
    rewrite <- Hsf in Hlo0, Hhi0.
    set (U0 := 2 ^ ulp_exp x0) in *.
    assert (Hup : sfv * R <= (x0 + (1 # 8388608)) * R).
    { apply Qmult_le_compat_r; [clearbody U0 sfv x0; lra | exact HR0]. }
    assert (Hlow : (x0 - (1 # 8388608)) * R <= sfv * R).
    { apply Qmult_le_compat_r; [clearbody U0 sfv x0; lra | exact HR0]. }
    assert (Ea : a == sfv * R) by (unfold a; ring).
    assert (Eup : (x0 + (1 # 8388608)) * R == X / 2000 + (1 # 8388608) * R).
    { rewrite <- ERx. field. }
    assert (Elow : (x0 - (1 # 8388608)) * R == X / 2000 - (1 # 8388608) * R).
    { rewrite <- ERx. field. }
    rewrite Eup in Hup. rewrite Elow in Hlow. rewrite <- Ea in Hup, Hlow.
    assert (EXd : X / 2000 * 2000 == X) by field.
    set (Xd := X / 2000) in *.
    clearbody a U0 sfv x0 Xd.
    assert (Hapos : 0 < a) by lra.
    pose proof (pow2_ulp_le a (-18) Hapos Ha35 ltac:(unfold emin; lia)) as Hu1.
    change (2 ^ (-18)) with (1 # 262144) in Hu1.
    destruct (round_val_error a) as [Hlo1 Hhi1].
    set (U1 := 2 ^ ulp_exp a) in *. clearbody U1.
    apply Qceiling_unique; lra.
Qed.

End ExactFloorArea.

Lemma floor_area_entry_exact (u key : string) (info : ratio_info) (k : Z)
    (g un se em : Z) :
  resolve_use_type u = key ->
  lookup key PARKING_RATIOS = Some info ->
  select_branch (ri_unit info) = ThousandSF \/
  select_branch (ri_unit info) = DefaultSF ->
  is_finite (ri_ratio info) = true -> SFsign (ri_ratio info) = false ->
  (2 * SFmag (ri_ratio info) == inject_Z k)%Q -> 1 <= k <= 24 ->
  Z.gcd 125 k = 1 \/ k = 10 \/ k = 20 ->
  0 <= g <= 2 ^ 40 ->
  exists info' r,
    lookup (resolve_use_type u) PARKING_RATIOS = Some info' /\
    (2 * SF2Q (ri_ratio info') == inject_Z k)%Q /\
    calculate_parking u (PInt g) un se em None = Ok r /\
    required_spaces r = (k * g + 1999) / 2000.
Proof.
  intros Hres Hl Hb Fr Sr Hr Hk Hgcd Hg. exists info.
  assert (G : exists r, calculate_parking u (PInt g) un se em None = Ok r /\
                        required_spaces r = (k * g + 1999) / 2000);
    [|destruct G as (r & H & E); exists r; split; [rewrite Hres; exact Hl|];
      split; [unfold SF2Q; rewrite Sr; exact Hr|]; split; assumption].
  apply (calculate_parking_of_requirement u info).
  - rewrite Hres. exact Hl.
  - cbn [effective_ratio].
    destruct Hb as [-> | ->]; cbn [base_requirement];
      apply sf_requirement_exact; assumption.
  - apply small_le_pow2_1002. change (2 ^ 53) with (8192 * 2 ^ 40).
    Z.div_mod_to_equations. nia.
Qed.

(** X16.  For every use type that is computed from the floor area (the
    thirteen entries of [floor_area_halves], whose ratios are [k / 2], and
    every use type that the table does not have, which is computed as
    ["office_general"]) and a whole number [0 <= gross_sf <= 2^40] of
    square feet, the call returns and [required_spaces] is exactly
    [ceiling(ratio * gross_sf / 1000)]: neither rounding of
    [ratio * (gross_sf / 1000)] moves the result to another integer. *)
Theorem floor_area_requirement_is_exact (use_type : string) (k : Z)
    (gross_sf units seats employees : Z) :
  In (resolve_use_type use_type, k) floor_area_halves ->
  0 <= gross_sf <= 2 ^ 40 ->
  exists info r,
    lookup (resolve_use_type use_type) PARKING_RATIOS = Some info /\
    (2 * SF2Q (ri_ratio info) == inject_Z k)%Q /\
    calculate_parking use_type (PInt gross_sf) units seats employees None
      = Ok r /\
    required_spaces r = (k * gross_sf + 1999) / 2000 /\
    2000 * (required_spaces r - 1) < k * gross_sf <= 2000 * required_spaces r.
Proof.
  intros Hin Hg.
  assert (G : exists info r,
            lookup (resolve_use_type use_type) PARKING_RATIOS = Some info /\
            (2 * SF2Q (ri_ratio info) == inject_Z k)%Q /\
            calculate_parking use_type (PInt gross_sf) units seats employees None
              = Ok r /\
            required_spaces r = (k * gross_sf + 1999) / 2000).
  { unfold floor_area_halves in Hin. cbn [In] in Hin.
    repeat (destruct Hin as [Hin|Hin];
            [injection Hin as Hkey Hk; subst k; symmetry in Hkey;
             eapply (floor_area_entry_exact use_type _ _ _ _ _ _ _ Hkey);
             [ vm_compute; reflexivity
             | first [left; vm_compute; reflexivity | right; vm_compute; reflexivity]
             | vm_compute; reflexivity
             | vm_compute; reflexivity
             | vm_compute; reflexivity
             | lia
             | first [ left; reflexivity | right; left; reflexivity
                     | right; right; reflexivity ]
             | exact Hg ]
            |]).
    contradiction. }
  destruct G as (info & r & Hl & Hr & H & E). exists info, r.
  split; [exact Hl|]. split; [exact Hr|]. split; [exact H|]. split; [exact E|].
  rewrite E. Z.div_mod_to_equations. lia.
Qed.

Lemma floor_area_requirement_is_exact_witness :
  exists r,
    calculate_parking "shopping_center" (PInt 12345) 0 0 0 None = Ok r /\
    required_spaces r = 56.
Proof.
  destruct (floor_area_requirement_is_exact "shopping_center" 9 12345 0 0 0)
    as (info & r & _ & _ & H & E & _).
  - right. left. reflexivity.
  - split; [lia | vm_compute; discriminate].
  - exists r. split; [exact H | exact E].
Defined.

(** ** Sizes that a call does not read *)

Lemma spaces_of_call (u : string) (info : ratio_info) (g : pynum)
    (un se em : Z) (cr : option pynum) :
  lookup (resolve_use_type u) PARKING_RATIOS = Some info ->
  spaces (calculate_parking u g un se em cr) =
  (required <- base_requirement (select_branch (ri_unit info))
                 (effective_ratio info cr) g un se ;;
   _ <- calculation_strings (select_branch (ri_unit info))
          (effective_ratio info cr) un se required ;;
   ada <- calculate_ada_spaces required ;;
   van <- calculate_van_accessible ada ;;
   _ <- py_str_int ada ;;
   _ <- py_str_int van ;;
   _ <- py_str_num (effective_ratio info cr) ;;
   Ok (required, ada, required)).
Proof.
  intros Hl.
  destruct (calculate_parking_eq u g un se em cr) as (info' & Hl' & E).
  assert (info' = info) by congruence. subst info'. rewrite E. unfold spaces.
  destruct (base_requirement _ _ _ _ _) as [required|]; [|reflexivity].
  cbn [bind].
  destruct (calculation_strings _ _ _ _ _) as [s_calc|]; [|reflexivity].
  cbn [bind].
  destruct (calculate_ada_spaces required) as [ada|]; [|reflexivity].
  cbn [bind].
  destruct (calculate_van_accessible ada) as [van|]; [|reflexivity].
  cbn [bind].
  destruct (py_str_int ada) as [s_ada|]; [|reflexivity]. cbn [bind].
  destruct (py_str_int van) as [s_van|]; [|reflexivity]. cbn [bind].
  destruct (py_str_num _) as [s_ratio|]; reflexivity.
Qed.

(** X17.  The counts of a call depend on one size only: on [units] for
    an entry counted per dwelling unit or room, on [seats] for one counted
    per seat, on [gross_sf] for one computed from the floor area.  The
    other sizes, and [employees], change neither the counts nor whether
    the call raises. *)
Theorem only_one_size_is_read (use_type : string) (info : ratio_info) :
  lookup (resolve_use_type use_type) PARKING_RATIOS = Some info ->
  match select_branch (ri_unit info) with
  | DwellingUnit | Room | Classroom =>
      forall g g' un se se' em em' cr,
        spaces (calculate_parking use_type g un se em cr) =
        spaces (calculate_parking use_type g' un se' em' cr)
  | Seat =>
      forall g g' un un' se em em' cr,
        spaces (calculate_parking use_type g un se em cr) =
        spaces (calculate_parking use_type g' un' se em' cr)
  | ThousandSF | DefaultSF =>
      forall g un un' se se' em em' cr,
        spaces (calculate_parking use_type g un se em cr) =
        spaces (calculate_parking use_type g un' se' em' cr)
  end.
Proof.
  intros Hl.
  destruct (select_branch (ri_unit info)) eqn:Eb; intros;
    rewrite !(spaces_of_call use_type info _ _ _ _ _ Hl), Eb; reflexivity.
Qed.

Lemma only_one_size_is_read_witness :
  spaces (calculate_parking "hotel" (PInt 5000) 120 30 0 None) =
  spaces (calculate_parking "hotel" (PFloat S754_nan) 120 0 9 None).
Proof.
  exact (only_one_size_is_read "hotel"
           {| ri_ratio := float_lit 1.0; ri_unit := "room";
              ri_notes := "1 space per room + employee parking" |}
           eq_refl (PInt 5000) (PFloat S754_nan) 120 30 0 0 9 None).
Defined.
